(** * ralph-tui: the [run] and [create-prd] commands

    A shallow embedding of [src/commands/run.tsx] (argument parsing, the
    headless and TUI event handlers, the interrupt handlers and the
    start-up / tear-down sequence of [executeRunCommand]) and of the
    argument parser of the create-prd command, together with the
    properties the specification states about them. *)

From Stdlib Require Import String Ascii List ZArith Lia Bool Arith DecimalString.
From Stdlib Require DecimalFacts DecimalNat.
From Equations Require Import Equations.
Import ListNotations.

Local Open Scope string_scope.

(** ** JavaScript values and control flow used by the parsers *)

Module Js.

(** How the evaluation of a piece of JavaScript ends: with a value, with
    a thrown exception, or because [process.exit(code)] was called. *)
Inductive completion (A : Type) : Type :=
| Normal (a : A)
| Throw (e : string)
| ProcessExit (code : Z).
Arguments Normal {A} a.
Arguments Throw {A} e.
Arguments ProcessExit {A} code.

Definition bind {A B} (c : completion A) (k : A -> completion B) : completion B :=
  match c with
  | Normal a => k a
  | Throw e => Throw e
  | ProcessExit n => ProcessExit n
  end.

(** [args[i]]: reading past the end of an array gives [undefined],
    here [None]. *)
Definition index (args : list string) (i : nat) : option string :=
  nth_error args i.

(** Truthiness of a value that is a string or [undefined]: [undefined]
    and the empty string are falsy. *)
Definition truthy (v : option string) : bool :=
  match v with
  | Some s => negb (s =? EmptyString)
  | None => false
  end.

(** [v.startsWith(p)]; calling a method on [undefined] throws a
    TypeError. *)
Definition startsWith (v : option string) (p : string) : completion bool :=
  match v with
  | Some s => Normal (String.prefix p s)
  | None => Throw "TypeError"
  end.

(** [a && b] on booleans: [b] is evaluated only when [a] holds. *)
Definition and_then (a : bool) (b : completion bool) : completion bool :=
  if a then b else Normal false.

(** [v ?? d] *)
Definition nullish (v : option string) (d : string) : string :=
  match v with Some s => s | None => d end.

(** ** Strings and numbers

    A string is the sequence of bytes of the UTF-8 encoding of the
    JavaScript string (the command line and the lines read from the
    terminal are decoded from UTF-8), so that equality, concatenation and
    [startsWith] with an ASCII prefix are those of the bytes. *)

(** WhiteSpace and LineTerminator, which [parseInt] and [trim] strip, by
    the length of the encoding: TAB, LF, VT, FF, CR and SP; U+00A0; and
    U+1680, U+2000 to U+200A, U+2028, U+2029, U+202F, U+205F, U+3000 and
    U+FEFF. *)
Definition isWhiteSpace (c : ascii) : bool :=
  let n := nat_of_ascii c in
  ((9 <=? n)%nat && (n <=? 13)%nat) || (n =? 32)%nat.

Definition isWhiteSpace2 (c d : ascii) : bool :=
  ((nat_of_ascii c =? 194) && (nat_of_ascii d =? 160))%nat.

Definition isWhiteSpace3 (c d e : ascii) : bool :=
  let c := nat_of_ascii c in
  let d := nat_of_ascii d in
  let e := nat_of_ascii e in
  (((c =? 225) && (d =? 154) && (e =? 128))
   || ((c =? 226) && (d =? 128)
       && (((128 <=? e) && (e <=? 138)) || (e =? 168) || (e =? 169) || (e =? 175)))
   || ((c =? 226) && (d =? 129) && (e =? 159))
   || ((c =? 227) && (d =? 128) && (e =? 128))
   || ((c =? 239) && (d =? 187) && (e =? 191)))%nat.

(** The string without the white space at its start.  With [backwards]
    the string is read from its last byte, so that the bytes of a
    character come in the opposite order. *)
Fixpoint skipWhiteSpace (backwards : bool) (s : string) : string :=
  match s with
  | String c r =>
      if isWhiteSpace c then skipWhiteSpace backwards r
      else
        match r with
        | String d r1 =>
            if (if backwards then isWhiteSpace2 d c else isWhiteSpace2 c d)
            then skipWhiteSpace backwards r1
            else
              match r1 with
              | String e r2 =>
                  if (if backwards then isWhiteSpace3 e d c else isWhiteSpace3 c d e)
                  then skipWhiteSpace backwards r2
                  else s
              | EmptyString => s
              end
        | EmptyString => s
        end
  | EmptyString => s
  end.

Definition trimStart (s : string) : string := skipWhiteSpace false s.

Definition digit (c : ascii) : option Z :=
  let n := nat_of_ascii c in
  if ((48 <=? n)%nat && (n <=? 57)%nat) then Some (Z.of_nat (n - 48)) else None.

(** The value of the longest prefix of decimal digits, given the value
    [acc] of the digits already read. *)
Fixpoint digits (s : string) (acc : Z) : Z :=
  match s with
  | String c r =>
      match digit c with
      | Some d => digits r (10 * acc + d)
      | None => acc
      end
  | EmptyString => acc
  end.

Definition startsWithDigit (s : string) : bool :=
  match s with
  | String c _ => match digit c with Some _ => true | None => false end
  | EmptyString => false
  end.

(** The numbers [parseInt] returns: NaN, negative zero, the infinities,
    and the doubles that are integers, [Int z] being the double of value
    [z]. *)
Inductive number :=
| NaN
| NegZero
| Int (z : Z)
| Infinity (negative : bool).

Definition isNaN (n : number) : bool :=
  match n with NaN => true | _ => false end.

(** Truthiness of a number: NaN and the two zeros are falsy. *)
Definition truthyNumber (n : number) : bool :=
  match n with
  | NaN | NegZero => false
  | Int z => negb (z =? 0)%Z
  | Infinity _ => true
  end.

(** The double nearest to the positive integer [m], ties to even: the
    integers below 2^53 are doubles; above, a double has 53 significant
    bits; from 2^1024 on the result is infinite, here [None]. *)
Definition toDouble (m : Z) : option Z :=
  let e := (Z.log2 m - 52)%Z in
  if (e <=? 0)%Z then Some m
  else
    let q := Z.shiftr m e in
    let r := Z.land m (Z.ones e) in
    let half := Z.shiftl 1 (e - 1) in
    let q := if (half <? r)%Z || ((half =? r)%Z && Z.odd q) then (q + 1)%Z else q in
    let v := Z.shiftl q e in
    if (Z.shiftl 1 1024 <=? v)%Z then None else Some v.

(** The number of sign [negative] and magnitude [m]. *)
Definition toNumber (negative : bool) (m : Z) : number :=
  if (m =? 0)%Z then (if negative then NegZero else Int 0)
  else
    match toDouble m with
    | Some v => Int (if negative then (- v)%Z else v)
    | None => Infinity negative
    end.

(** [parseInt(v, 10)]: leading white space, an optional sign, then the
    longest run of decimal digits, whose value is rounded to a double;
    without a digit the result is NaN.  [parseInt(undefined)] is NaN. *)
Definition parseInt (v : option string) : number :=
  match v with
  | None => NaN
  | Some s =>
      let t := trimStart s in
      let negative := match t with String "-" _ => true | _ => false end in
      let t := match t with
               | String "-" r | String "+" r => r
               | _ => t
               end in
      if startsWithDigit t then toNumber negative (digits t 0) else NaN
  end.

End Js.

Import Js.

Notation "x <- c ;; k" := (Js.bind c (fun x => k))
  (at level 61, c at next level, right associativity).

(** ** [parseRunArgs] (run.tsx) *)

(** [ExtendedRuntimeOptions]: the fields [parseRunArgs] assigns.  An
    optional field that was never assigned is [None]; the four switches
    are only ever assigned [true], so [false] stands for "not set". *)
Record ExtendedRuntimeOptions := mkOptions {
  epicId : option string;
  prdPath : option string;
  agent : option string;
  model : option string;
  tracker : option string;
  iterations : option number;
  iterationDelay : option number;
  cwd : option string;
  resume : bool;
  force : bool;
  headless : bool;
  noSetup : bool
}.

Definition noOptions : ExtendedRuntimeOptions :=
  mkOptions None None None None None None None None false false false false.

Definition set_epicId v o := mkOptions v (prdPath o) (agent o) (model o) (tracker o)
  (iterations o) (iterationDelay o) (cwd o) (resume o) (force o) (headless o) (noSetup o).
Definition set_prdPath v o := mkOptions (epicId o) v (agent o) (model o) (tracker o)
  (iterations o) (iterationDelay o) (cwd o) (resume o) (force o) (headless o) (noSetup o).
Definition set_agent v o := mkOptions (epicId o) (prdPath o) v (model o) (tracker o)
  (iterations o) (iterationDelay o) (cwd o) (resume o) (force o) (headless o) (noSetup o).
Definition set_model v o := mkOptions (epicId o) (prdPath o) (agent o) v (tracker o)
  (iterations o) (iterationDelay o) (cwd o) (resume o) (force o) (headless o) (noSetup o).
Definition set_tracker v o := mkOptions (epicId o) (prdPath o) (agent o) (model o) v
  (iterations o) (iterationDelay o) (cwd o) (resume o) (force o) (headless o) (noSetup o).
Definition set_iterations v o := mkOptions (epicId o) (prdPath o) (agent o) (model o) (tracker o)
  v (iterationDelay o) (cwd o) (resume o) (force o) (headless o) (noSetup o).
Definition set_iterationDelay v o := mkOptions (epicId o) (prdPath o) (agent o) (model o) (tracker o)
  (iterations o) v (cwd o) (resume o) (force o) (headless o) (noSetup o).
Definition set_cwd v o := mkOptions (epicId o) (prdPath o) (agent o) (model o) (tracker o)
  (iterations o) (iterationDelay o) v (resume o) (force o) (headless o) (noSetup o).
Definition set_resume o := mkOptions (epicId o) (prdPath o) (agent o) (model o) (tracker o)
  (iterations o) (iterationDelay o) (cwd o) true (force o) (headless o) (noSetup o).
Definition set_force o := mkOptions (epicId o) (prdPath o) (agent o) (model o) (tracker o)
  (iterations o) (iterationDelay o) (cwd o) (resume o) true (headless o) (noSetup o).
Definition set_headless o := mkOptions (epicId o) (prdPath o) (agent o) (model o) (tracker o)
  (iterations o) (iterationDelay o) (cwd o) (resume o) (force o) true (noSetup o).
Definition set_noSetup o := mkOptions (epicId o) (prdPath o) (agent o) (model o) (tracker o)
  (iterations o) (iterationDelay o) (cwd o) (resume o) (force o) (headless o) true.

(** The guard every value-taking case of the switch starts with:
    [nextArg && !nextArg.startsWith('-')]. *)
Definition hasValue (nextArg : option string) : completion bool :=
  and_then (truthy nextArg) (b <- startsWith nextArg "-" ;; Normal (negb b)).

(** A case of the form
    [if (nextArg && !nextArg.startsWith('-')) { options.f = nextArg; i++; }]. *)
Definition stringCase (set : option string -> ExtendedRuntimeOptions -> ExtendedRuntimeOptions)
    (nextArg : option string) (i : nat) (options : ExtendedRuntimeOptions)
  : completion (nat * ExtendedRuntimeOptions) :=
  ok <- hasValue nextArg ;;
  if ok then Normal (i + 1, set nextArg options) else Normal (i, options).

(** A case of the form
    [if (nextArg && ...) { const parsed = parseInt(nextArg, 10);
       if (!isNaN(parsed)) { options.f = parsed; } i++; }]. *)
Definition numberCase (set : option number -> ExtendedRuntimeOptions -> ExtendedRuntimeOptions)
    (nextArg : option string) (i : nat) (options : ExtendedRuntimeOptions)
  : completion (nat * ExtendedRuntimeOptions) :=
  ok <- hasValue nextArg ;;
  if ok then
    let parsed := parseInt nextArg in
    if negb (isNaN parsed) then Normal (i + 1, set (Some parsed) options)
    else Normal (i + 1, options)
  else Normal (i, options).

(** The body of the [for] loop: the [switch] on [args[i]].  It returns the
    value of [i] at the end of the body (before the loop's own [i++]) and
    the options. *)
Definition runSwitch (args : list string) (i : nat) (options : ExtendedRuntimeOptions)
  : completion (nat * ExtendedRuntimeOptions) :=
  let nextArg := index args (i + 1) in
  match index args i with
  | None => Normal (i, options)
  | Some arg =>
      if arg =? "--epic" then stringCase set_epicId nextArg i options
      else if arg =? "--prd" then stringCase set_prdPath nextArg i options
      else if arg =? "--agent" then stringCase set_agent nextArg i options
      else if arg =? "--model" then stringCase set_model nextArg i options
      else if arg =? "--tracker" then stringCase set_tracker nextArg i options
      else if arg =? "--iterations" then numberCase set_iterations nextArg i options
      else if arg =? "--delay" then numberCase set_iterationDelay nextArg i options
      else if arg =? "--cwd" then stringCase set_cwd nextArg i options
      else if arg =? "--resume" then Normal (i, set_resume options)
      else if arg =? "--force" then Normal (i, set_force options)
      else if (arg =? "--headless") || (arg =? "--no-tui") then Normal (i, set_headless options)
      else if arg =? "--no-setup" then Normal (i, set_noSetup options)
      else Normal (i, options)
  end.

Lemma hasValue_normal nextArg : exists b, hasValue nextArg = Normal b.
Proof.
  destruct nextArg as [s|]; unfold hasValue, and_then, truthy; cbn.
  - destruct (s =? EmptyString); cbn; eauto.
  - eauto.
Qed.

Lemma stringCase_index set nextArg i o j o' :
  stringCase set nextArg i o = Normal (j, o') -> i <= j.
Proof.
  unfold stringCase. destruct (hasValue_normal nextArg) as [b ->]; cbn.
  destruct b; intros [= <- _]; lia.
Qed.

Lemma numberCase_index set nextArg i o j o' :
  numberCase set nextArg i o = Normal (j, o') -> i <= j.
Proof.
  unfold numberCase. destruct (hasValue_normal nextArg) as [b ->]; cbn.
  destruct b; [destruct (isNaN (parseInt nextArg))|]; intros [= <- _]; lia.
Qed.

Lemma runSwitch_index args i o j o' :
  runSwitch args i o = Normal (j, o') -> i <= j.
Proof.
  unfold runSwitch. destruct (index args i) as [arg|]; [|intros [= <- _]; lia].
  repeat match goal with
  | |- (if ?c then _ else _) = _ -> _ => destruct c
  end;
  eauto using stringCase_index, numberCase_index;
  intros [= <- _]; lia.
Qed.

(** Keeps the equation [x = y] when matching on a computed value [x]. *)
Definition inspect {A} (x : A) : {y : A | x = y} := exist _ x eq_refl.

(** [for (let i = 0; i < args.length; i++) { switch ... }], entered with
    the loop variable at [i]. *)
Equations? runLoop (args : list string) (i : nat) (options : ExtendedRuntimeOptions)
  : completion ExtendedRuntimeOptions by wf (length args - i) lt :=
runLoop args i options with lt_dec i (length args) := {
  | right _ := Normal options
  | left _ with inspect (runSwitch args i options) := {
      | exist _ (Normal (j, options')) Hbody := runLoop args (S j) options'
      | exist _ (Throw e) _ := Throw e
      | exist _ (ProcessExit code) _ := ProcessExit code } }.
Proof.
  apply runSwitch_index in Hbody. lia.
Qed.

Definition parseRunArgs (args : list string) : completion ExtendedRuntimeOptions :=
  runLoop args 0 noOptions.


(** ** [parseCreatePrdArgs] (create-prd command) *)

Module CreatePrd.

(** [CreatePrdArgs].  [force] is only ever assigned [true]. *)
Record CreatePrdArgs := mkArgs {
  cwd : option string;
  output : option string;
  stories : option number;
  force : bool;
  agent : option string;
  timeout : option number
}.

Definition noArgs : CreatePrdArgs := mkArgs None None None false None None.

Definition set_cwd v r := mkArgs v (output r) (stories r) (force r) (agent r) (timeout r).
Definition set_output v r := mkArgs (cwd r) v (stories r) (force r) (agent r) (timeout r).
Definition set_stories v r := mkArgs (cwd r) (output r) v (force r) (agent r) (timeout r).
Definition set_force r := mkArgs (cwd r) (output r) (stories r) true (agent r) (timeout r).
Definition set_agent v r := mkArgs (cwd r) (output r) (stories r) (force r) v (timeout r).
Definition set_timeout v r := mkArgs (cwd r) (output r) (stories r) (force r) (agent r) v.

(** [const n = parseInt(args[++i] ?? '', 10); if (!isNaN(n)) { result.f = n; }]:
    the field after the assignment, if any. *)
Definition numberField (set : option number -> CreatePrdArgs -> CreatePrdArgs)
    (token : option string) (result : CreatePrdArgs) : CreatePrdArgs :=
  let n := parseInt (Some (nullish token EmptyString)) in
  if negb (isNaN n) then set (Some n) result else result.

(** The body of the [for] loop: the [if / else if] chain on [args[i]].  It
    returns the value of [i] at the end of the body (every [args[++i]]
    has incremented it) and the result record.  [--help] prints the help
    text and calls [process.exit(0)]. *)
Definition prdBody (args : list string) (i : nat) (result : CreatePrdArgs)
  : completion (nat * CreatePrdArgs) :=
  match index args i with
  | None => Normal (i, result)
  | Some arg =>
      if (arg =? "--cwd") || (arg =? "-C") then
        Normal (i + 1, set_cwd (index args (i + 1)) result)
      else if (arg =? "--output") || (arg =? "-o") then
        Normal (i + 1, set_output (index args (i + 1)) result)
      else if (arg =? "--stories") || (arg =? "-n") then
        Normal (i + 1, numberField set_stories (index args (i + 1)) result)
      else if (arg =? "--force") || (arg =? "-f") then
        Normal (i, set_force result)
      else if (arg =? "--agent") || (arg =? "-a") then
        Normal (i + 1, set_agent (index args (i + 1)) result)
      else if (arg =? "--timeout") || (arg =? "-t") then
        Normal (i + 1, numberField set_timeout (index args (i + 1)) result)
      else if (arg =? "--help") || (arg =? "-h") then
        ProcessExit 0
      else Normal (i, result)
  end.

Lemma prdBody_index args i r j r' :
  prdBody args i r = Normal (j, r') -> i <= j.
Proof.
  unfold prdBody. destruct (index args i) as [arg|]; [|intros [= <- _]; lia].
  repeat match goal with
  | |- (if ?c then _ else _) = _ -> _ => destruct c
  end; try discriminate; intros [= <- _]; lia.
Qed.

(** [for (let i = 0; i < args.length; i++) { ... }], entered with the loop
    variable at [i]. *)
Equations? prdLoop (args : list string) (i : nat) (result : CreatePrdArgs)
  : completion CreatePrdArgs by wf (length args - i) lt :=
prdLoop args i result with lt_dec i (length args) := {
  | right _ := Normal result
  | left _ with inspect (prdBody args i result) := {
      | exist _ (Normal (j, result')) Hbody := prdLoop args (S j) result'
      | exist _ (Throw e) _ := Throw e
      | exist _ (ProcessExit code) _ := ProcessExit code } }.
Proof.
  apply prdBody_index in Hbody. lia.
Qed.

Definition parseCreatePrdArgs (args : list string) : completion CreatePrdArgs :=
  prdLoop args 0 noArgs.

(** The flags whose branch reads [args[++i]]. *)
Definition stringFlags : list (string * (option string -> CreatePrdArgs -> CreatePrdArgs)) :=
  [("--cwd", set_cwd); ("-C", set_cwd); ("--output", set_output); ("-o", set_output);
   ("--agent", set_agent); ("-a", set_agent)].

Definition numberFlags
  : list (string * (option number -> CreatePrdArgs -> CreatePrdArgs)) :=
  [("--stories", set_stories); ("-n", set_stories);
   ("--timeout", set_timeout); ("-t", set_timeout)].

End CreatePrd.

(** The result of the body of the loop with the index moved by one. *)
Definition shiftPrd (c : completion (nat * CreatePrd.CreatePrdArgs)) :=
  match c with
  | Normal (j, r) => Normal (S j, r)
  | Throw e => Throw e
  | ProcessExit n => ProcessExit n
  end.

(** ** Session data (consumed by run.tsx through [../session/index.js]) *)

Module Tracker.

Inductive TaskStatus := open | in_progress | blocked | completed | cancelled.

Record TrackerTask := mkTask {
  id : string;
  title : string;
  status : TaskStatus
}.

End Tracker.

Module Engine.

(** The result of one iteration, carried by [iteration:completed]. *)
Record IterationResult := mkResult {
  iteration : nat;
  task : Tracker.TrackerTask;
  taskCompleted : bool;
  durationMs : nat;
  exitCode : Z;
  error : option string
}.

Inductive Stream := stdout | stderr.

(** The events an [ExecutionEngine] emits to its listeners. *)
Inductive EngineEvent :=
| engine_started (totalTasks : nat)
| engine_paused (currentIteration : nat)
| engine_resumed (fromIteration : nat)
| engine_stopped (reason : string) (totalIterations tasksCompleted : nat)
| iteration_started (iteration : nat) (task : Tracker.TrackerTask)
| iteration_completed (result : IterationResult)
| iteration_failed (iteration : nat) (task : Tracker.TrackerTask) (error action : string)
| iteration_retrying (iteration : nat) (task : Tracker.TrackerTask)
    (retryAttempt maxRetries delayMs : nat)
| iteration_skipped (iteration : nat) (task : Tracker.TrackerTask) (reason : string)
| agent_output (stream : Stream) (data : string)
| task_selected (task : Tracker.TrackerTask) (iteration : nat)
| task_completed (task : Tracker.TrackerTask) (iteration : nat)
| all_complete (totalCompleted totalIterations : nat).

Inductive EngineStatus := idle | running | paused | stopping | stopped.

(** What [engine.getState()] returns, as far as [executeRunCommand]
    reads it. *)
Record EngineState := mkState {
  status : EngineStatus;
  tasksCompleted : nat;
  totalTasks : nat
}.

End Engine.

Module Session.

Inductive SessionStatus := running | paused | interrupted | completed | failed.

Definition SessionStatus_eqb (a b : SessionStatus) : bool :=
  match a, b with
  | running, running | paused, paused | interrupted, interrupted
  | completed, completed | failed, failed => true
  | _, _ => false
  end.

(** [PersistedSessionState]: the snapshot written to the session file. *)
Record PersistedSessionState := mkSession {
  sessionId : string;
  status : SessionStatus;
  startedAt : Z;
  updatedAt : Z;
  agentPlugin : string;
  trackerPlugin : string;
  model : option string;
  epicId : option string;
  prdPath : option string;
  maxIterations : nat;
  currentIteration : nat;
  tasksCompleted : nat;
  totalTasks : nat;
  taskSnapshot : list Tracker.TrackerTask;
  cwd : string;
  isPaused : bool;
  pausedAt : option Z;
  lastError : option string
}.

(** [{ ...s, status: st }] *)
Definition with_status (st : SessionStatus) (s : PersistedSessionState) :=
  mkSession (sessionId s) st (startedAt s) (updatedAt s) (agentPlugin s) (trackerPlugin s)
    (model s) (epicId s) (prdPath s) (maxIterations s) (currentIteration s)
    (tasksCompleted s) (totalTasks s) (taskSnapshot s) (cwd s) (isPaused s) (pausedAt s)
    (lastError s).

(** [{ ...s, status: st, isPaused: p, pausedAt: t }] *)
Definition with_pause (st : SessionStatus) (p : bool) (t : option Z)
    (s : PersistedSessionState) :=
  mkSession (sessionId s) st (startedAt s) (updatedAt s) (agentPlugin s) (trackerPlugin s)
    (model s) (epicId s) (prdPath s) (maxIterations s) (currentIteration s)
    (tasksCompleted s) (totalTasks s) (taskSnapshot s) (cwd s) p t (lastError s).

(** The parameter object of [createPersistedSession]. *)
Record CreateParams := mkParams {
  p_sessionId : string;
  p_agentPlugin : string;
  p_model : option string;
  p_trackerPlugin : string;
  p_epicId : option string;
  p_prdPath : option string;
  p_maxIterations : nat;
  p_tasks : list Tracker.TrackerTask;
  p_cwd : string
}.

(** Modelled from the spec: [createPersistedSession] is not under src/.
    "[create(params)] snapshots the tracker's initial task list and
    initialises counters": a running, un-paused session with both
    counters at zero and [total_tasks] the size of the snapshot. *)
Definition createPersistedSession (now : Z) (p : CreateParams) : PersistedSessionState :=
  mkSession (p_sessionId p) running now now (p_agentPlugin p) (p_trackerPlugin p)
    (p_model p) (p_epicId p) (p_prdPath p) (p_maxIterations p) 0 0
    (length (p_tasks p)) (p_tasks p) (p_cwd p) false None None.

(** Modelled from the spec: [updateSessionAfterIteration] is not under
    src/.  "[fold(session, iter_result)] increments [current_iteration],
    increments [tasks_completed] if the result flipped a task to
    completed, updates [updated_at], clears [last_error] on success or
    sets it on failure." *)
Definition updateSessionAfterIteration (now : Z) (s : PersistedSessionState)
    (r : Engine.IterationResult) : PersistedSessionState :=
  mkSession (sessionId s) (status s) (startedAt s) now (agentPlugin s) (trackerPlugin s)
    (model s) (epicId s) (prdPath s) (maxIterations s) (S (currentIteration s))
    (if Engine.taskCompleted r then S (tasksCompleted s) else tasksCompleted s)
    (totalTasks s) (taskSnapshot s) (cwd s) (isPaused s) (pausedAt s)
    (Engine.error r).

(** Modelled from the spec: [pauseSession] is not under src/.  A paused
    session has [status = paused], [is_paused] set and [paused_at]
    recorded (data model, invariant 4). *)
Definition pauseSession (now : Z) (s : PersistedSessionState) : PersistedSessionState :=
  with_pause paused true (Some now) s.

(** Modelled from the spec: [completeSession] and [failSession] are not
    under src/; they move the session to the terminal statuses
    [completed] and [failed]. *)
Definition completeSession (s : PersistedSessionState) := with_status completed s.
Definition failSession (s : PersistedSessionState) := with_status failed s.

(** Modelled from the spec: [isSessionResumable] is not under src/.
    "[resumable(session)] iff [status] is one of running, paused,
    interrupted and not all tasks completed." *)
Definition isSessionResumable (s : PersistedSessionState) : bool :=
  match status s with
  | running | paused | interrupted => Nat.ltb (tasksCompleted s) (totalTasks s)
  | completed | failed => false
  end.

(** The session file of the working directory: missing, present but not
    loadable, or holding a snapshot. *)
Inductive SessionFile :=
| Absent
| Unreadable
| Stored (s : PersistedSessionState).

(** [hasPersistedSession(cwd)] and [loadPersistedSession(cwd)]. *)
Definition hasPersistedSession (f : SessionFile) : bool :=
  match f with Absent => false | _ => true end.

Definition loadPersistedSession (f : SessionFile) : option PersistedSessionState :=
  match f with Stored s => Some s | _ => None end.

(** The lock file of the working directory; [holderAlive] tells whether
    the process it names still runs on this host. *)
Record LockFile := mkLock {
  pid : Z;
  lockSessionId : string;
  holderAlive : bool
}.

(** Modelled from the spec: [checkSession] is not under src/.  The lock
    is stale when "the lock file names a pid that does not exist on the
    current host".  [hasSession] (session metadata of an earlier run) is
    supplied by the caller. *)
Record SessionCheck := mkCheck {
  hasSession : bool;
  isLocked : bool;
  isStale : bool;
  lock : option LockFile
}.

Definition checkSession (hasSession : bool) (l : option LockFile) : SessionCheck :=
  match l with
  | None => mkCheck hasSession false false None
  | Some f => mkCheck hasSession true (negb (holderAlive f)) (Some f)
  end.

(** Modelled from the spec: the Lock Manager's [acquire] is not under
    src/.  "If the lock file names a pid that does not exist on the
    current host, the lock is considered stale and may be taken over
    without [force].  If the holder is live and on the same working
    directory, acquisition fails with [Conflict] unless [force] is
    set." *)
Inductive Acquire :=
| Acquired
| Conflict (holder : LockFile).

Definition acquire (l : option LockFile) (force : bool) : Acquire :=
  match l with
  | None => Acquired
  | Some f => if holderAlive f then (if force then Acquired else Conflict f) else Acquired
  end.

(** What [acquireLockWithPrompt] resolves to. *)
Record LockResult := mkLockResult {
  acquired : bool;
  lockError : option string;
  existingPid : option Z
}.

(** Modelled from the spec: [acquireLockWithPrompt] is not under src/.
    "In interactive mode with [non_interactive=false], a conflict may
    prompt the user; in [non_interactive=true] (headless), a conflict is a
    hard error."  [takeOver] is the user's answer to that prompt. *)
Definition acquireLockWithPrompt (l : option LockFile) (force nonInteractive takeOver : bool)
  : LockResult :=
  match acquire l force with
  | Acquired => mkLockResult true None None
  | Conflict f =>
      if nonInteractive then
        mkLockResult false (Some "Another instance is running") (Some (pid f))
      else if takeOver then mkLockResult true None None
      else mkLockResult false (Some "Another instance is running") (Some (pid f))
  end.

End Session.

(** ** Configuration, logger and the effects of the run command *)

Module Config.

(** [RalphConfig], as far as run.tsx reads it ([agent.plugin] and
    [tracker.plugin] are flattened). *)
Record RalphConfig := mkConfig {
  cwd : string;
  agentPlugin : string;
  trackerPlugin : string;
  model : option string;
  epicId : option string;
  prdPath : option string;
  maxIterations : nat;
  showTui : bool
}.

End Config.

Module Logger.

(** The calls [runHeadless] makes on the structured logger. *)
Inductive Call :=
| engineStarted (totalTasks : nat)
| progress (iteration maxIterations : nat) (taskId taskTitle : string)
| iterationComplete (iteration : nat) (taskId : string) (taskCompleted : bool)
    (durationMs : nat)
| taskCompleted (taskId : string) (iteration : nat)
| iterationFailed (iteration : nat) (taskId error action : string)
| iterationRetrying (iteration : nat) (taskId : string)
    (retryAttempt maxRetries delayMs : nat)
| iterationSkipped (iteration : nat) (taskId reason : string)
| agentOutput (data : string)
| agentError (data : string)
| taskSelected (taskId taskTitle : string) (iteration : nat)
| enginePaused (currentIteration : nat)
| engineResumed (fromIteration : nat)
| engineStopped (reason : string) (totalIterations tasksCompleted : nat)
| allComplete (totalCompleted totalIterations : nat)
| sessionCreated (sessionId agentPlugin trackerPlugin : string)
| info (component message : string)
| warn (component message : string).

End Logger.

(** Everything the command does to the world outside its own variables,
    in the order it does it. *)
Inductive Effect :=
| PrintHelp
| Console (line : string)
| ConsoleError (line : string)
| SetupWizard (cwd : string)
| InitializePlugins
| Log (call : Logger.Call)
| SaveSession (s : Session.PersistedSessionState) (written : bool)
| DeleteSession
| LockAcquired (pid : Z) (sessionId : string)
| RegisterLockCleanup
| ReleaseLock
| CleanupLockHandlers
| ResumeSession
| CreateSession
| EngineInitialize
| EngineStart
| EngineDispose
| EndSession (status : string)
| RendererCreate
| RendererDestroy
| InterruptDispose.

Record World := mkWorld {
  trace : list Effect;
  sessionFile : Session.SessionFile;
  lockFile : option Session.LockFile
}.

(** How the command ends: its promise resolves (the process then ends
    with the runtime's default exit code), its promise rejects,
    [process.exit(code)] is called, a callback of the event loop (a signal
    handler) rejects with nothing to catch it, or, when the modelled
    inputs run out, the command is still waiting. *)
Inductive Outcome :=
| Resolved
| Rejected (e : string)
| Exited (code : Z)
| Unhandled (e : string)
| Pending.

Inductive Step (A : Type) :=
| Next (a : A)
| Halt (o : Outcome).
Arguments Next {A} a.
Arguments Halt {A} o.

(** Computations over the world that may stop the command. *)
Definition M (A : Type) : Type := World -> Step A * World.

Definition ret {A} (a : A) : M A := fun w => (Next a, w).

Definition bindM {A B} (m : M A) (k : A -> M B) : M B :=
  fun w => match m w with
           | (Next a, w') => k a w'
           | (Halt o, w') => (Halt o, w')
           end.

Notation "'let*' x ':=' m 'in' k" := (bindM m (fun x => k))
  (at level 10, x name, m at level 100, k at level 200).
Notation "m ';;;' k" := (bindM m (fun _ => k))
  (at level 100, k at level 200, right associativity).

Definition halt {A} (o : Outcome) : M A := fun w => (Halt o, w).

(** [process.exit(code)] and [throw e]. *)
Definition exit {A} (code : Z) : M A := halt (Exited code).
Definition throw {A} (e : string) : M A := halt (Rejected e).

(** [try { m } catch (e) { h e }], also [m.catch(h)] on a promise. *)
Definition try_catch {A} (m : M A) (h : string -> M A) : M A :=
  fun w => match m w with
           | (Halt (Rejected e), w') => h e w'
           | r => r
           end.

(** [m] runs as a callback of its own: what it throws does not reach the
    function that is waiting. *)
Definition detached {A} (m : M A) : M A :=
  try_catch m (fun e => halt (Unhandled e)).

Definition getWorld : M World := fun w => (Next w, w).

(** What an effect does to the world: it is recorded in the trace; a
    successful write replaces the session file, a deletion removes it;
    taking the lock writes the lock file, releasing it removes it. *)
Definition perform (e : Effect) (w : World) : World :=
  mkWorld (trace w ++ [e])
    (match e with
     | SaveSession s true => Session.Stored s
     | DeleteSession => Session.Absent
     | _ => sessionFile w
     end)
    (match e with
     | LockAcquired pid sessionId => Some (Session.mkLock pid sessionId true)
     | ReleaseLock => None
     | _ => lockFile w
     end).

Definition performAll (es : list Effect) (w : World) : World :=
  fold_left (fun w e => perform e w) es w.

Definition emit (e : Effect) : M unit := fun w => (Next tt, perform e w).

Definition console (line : string) : M unit := emit (Console line).
Definition consoleError (line : string) : M unit := emit (ConsoleError line).
Definition log (c : Logger.Call) : M unit := emit (Log c).

Definition lift {A} (c : Js.completion A) : M A :=
  match c with
  | Normal a => ret a
  | Throw e => throw e
  | ProcessExit n => exit n
  end.

(** The call [savePersistedSession(s)] itself: the write is attempted
    when the call is made; [written] tells whether it succeeds. *)
Definition callSave (s : Session.PersistedSessionState) (written : bool) : M unit :=
  emit (SaveSession s written).

(** [await savePersistedSession(s)]: a failed write rejects. *)
Definition savePersistedSession (s : Session.PersistedSessionState) (written : bool)
  : M unit :=
  callSave s written ;;;
  if written then ret tt else throw "savePersistedSession failed".

(** [savePersistedSession(s).catch(() => { })] *)
Definition saveAndForget (s : Session.PersistedSessionState) (written : bool) : M unit :=
  try_catch (savePersistedSession s written) (fun _ => ret tt).

Definition deletePersistedSession : M unit := emit DeleteSession.

Definition releaseLockNew : M unit := emit ReleaseLock.

(** ** The engine listener shared by both modes

    [{ ...currentState, status: 'running', isPaused: false,
       pausedAt: undefined }] *)
Definition resumed (s : Session.PersistedSessionState) :=
  Session.with_pause Session.running false None s.

(** The listener [runWithTui] registers with [engine.on]; it returns the
    new value of [currentState].  [now] is the clock read by the session
    helpers, [written] the fate of the write the listener may start. *)
Definition tuiListener (now : Z) (event : Engine.EngineEvent) (written : bool)
    (currentState : Session.PersistedSessionState) : M Session.PersistedSessionState :=
  match event with
  | Engine.iteration_completed result =>
      let currentState := Session.updateSessionAfterIteration now currentState result in
      saveAndForget currentState written ;;;
      ret currentState
  | Engine.engine_paused _ =>
      let currentState := Session.pauseSession now currentState in
      saveAndForget currentState written ;;;
      ret currentState
  | Engine.engine_resumed _ =>
      let currentState := resumed currentState in
      saveAndForget currentState written ;;;
      ret currentState
  | _ => ret currentState
  end.

(** The listener [runHeadless] registers with [engine.on]. *)
Definition headlessListener (config : Config.RalphConfig) (now : Z)
    (event : Engine.EngineEvent) (written : bool)
    (currentState : Session.PersistedSessionState) : M Session.PersistedSessionState :=
  match event with
  | Engine.engine_started totalTasks =>
      log (Logger.engineStarted totalTasks) ;;; ret currentState
  | Engine.iteration_started iteration task =>
      log (Logger.progress iteration (Config.maxIterations config)
             (Tracker.id task) (Tracker.title task)) ;;;
      ret currentState
  | Engine.iteration_completed result =>
      log (Logger.iterationComplete (Engine.iteration result)
             (Tracker.id (Engine.task result)) (Engine.taskCompleted result)
             (Engine.durationMs result)) ;;;
      (if Engine.taskCompleted result
       then log (Logger.taskCompleted (Tracker.id (Engine.task result))
                   (Engine.iteration result))
       else ret tt) ;;;
      let currentState := Session.updateSessionAfterIteration now currentState result in
      saveAndForget currentState written ;;;
      ret currentState
  | Engine.iteration_failed iteration task error action =>
      log (Logger.iterationFailed iteration (Tracker.id task) error action) ;;;
      ret currentState
  | Engine.iteration_retrying iteration task retryAttempt maxRetries delayMs =>
      log (Logger.iterationRetrying iteration (Tracker.id task) retryAttempt maxRetries
             delayMs) ;;;
      ret currentState
  | Engine.iteration_skipped iteration task reason =>
      log (Logger.iterationSkipped iteration (Tracker.id task) reason) ;;;
      ret currentState
  | Engine.agent_output stream data =>
      (match stream with
       | Engine.stdout => log (Logger.agentOutput data)
       | Engine.stderr => log (Logger.agentError data)
       end) ;;;
      ret currentState
  | Engine.task_selected task iteration =>
      log (Logger.taskSelected (Tracker.id task) (Tracker.title task) iteration) ;;;
      ret currentState
  | Engine.engine_paused currentIteration =>
      log (Logger.enginePaused currentIteration) ;;;
      let currentState := Session.pauseSession now currentState in
      saveAndForget currentState written ;;;
      ret currentState
  | Engine.engine_resumed fromIteration =>
      log (Logger.engineResumed fromIteration) ;;;
      let currentState := resumed currentState in
      saveAndForget currentState written ;;;
      ret currentState
  | Engine.engine_stopped reason totalIterations tasksCompleted =>
      log (Logger.engineStopped reason totalIterations tasksCompleted) ;;;
      ret currentState
  | Engine.all_complete totalCompleted totalIterations =>
      log (Logger.allComplete totalCompleted totalIterations) ;;;
      ret currentState
  | Engine.task_completed _ _ => ret currentState
  end.

(** ** [runHeadless]

    The function registers the listener and the two signal handlers and
    then awaits [engine.start()].  While it waits, the runtime delivers
    engine events and signals one at a time; a signal handler that has
    reached an [await] is resumed by a later turn of the event loop.  The
    model takes the sequence of these deliveries as an input. *)

(** Where a graceful shutdown ([gracefulShutdown] or [handleSigterm]) is
    suspended: at [await savePersistedSession(..)], whose write succeeded
    or not, or at [await engine.dispose()]. *)
Inductive Awaiting :=
| AwaitSave (written : bool)
| AwaitDispose.

Record HeadlessState := mkHeadless {
  currentState : Session.PersistedSessionState;
  lastSigintTime : Z;
  shutdowns : list Awaiting
}.

Inductive HeadlessInput :=
| Emit (now : Z) (event : Engine.EngineEvent) (written : bool)
| Sigint (now : Z) (written : bool)
| Sigterm (written : bool)
| Continue (k : nat)
| EngineSettled (error : option string).

Definition DOUBLE_PRESS_WINDOW_MS : Z := 1000.

(** [gracefulShutdown], up to its first [await]. *)
Definition gracefulShutdown (written : bool) (st : HeadlessState) : M HeadlessState :=
  log (Logger.info "system" "Interrupted, stopping gracefully...") ;;;
  log (Logger.info "system" "(Press Ctrl+C again within 1s to force quit)") ;;;
  let currentState := Session.with_status Session.interrupted (currentState st) in
  callSave currentState written ;;;
  ret (mkHeadless currentState (lastSigintTime st) (shutdowns st ++ [AwaitSave written])).

(** [handleSigint]; [now] is [Date.now()]. *)
Definition handleSigint (now : Z) (written : bool) (st : HeadlessState) : M HeadlessState :=
  let timeSinceLastSigint := (now - lastSigintTime st)%Z in
  let st := mkHeadless (currentState st) now (shutdowns st) in
  if (timeSinceLastSigint <? DOUBLE_PRESS_WINDOW_MS)%Z then
    log (Logger.warn "system" "Force quit!") ;;;
    exit 1
  else gracefulShutdown written st.

(** [handleSigterm], up to its first [await]. *)
Definition handleSigterm (written : bool) (st : HeadlessState) : M HeadlessState :=
  log (Logger.info "system" "Received SIGTERM, stopping gracefully...") ;;;
  let currentState := Session.with_status Session.interrupted (currentState st) in
  callSave currentState written ;;;
  ret (mkHeadless currentState (lastSigintTime st) (shutdowns st ++ [AwaitSave written])).

Fixpoint replace {A} (k : nat) (a : A) (l : list A) : list A :=
  match l, k with
  | [], _ => []
  | _ :: r, O => a :: r
  | x :: r, S k => x :: replace k a r
  end.

(** The rest of a suspended shutdown, resumed when the promise it awaits
    settles: [await engine.dispose(); process.exit(0)].  A rejected save
    leaves the handler's promise rejected with nothing to catch it. *)
Definition continueShutdown (k : nat) (st : HeadlessState) : M HeadlessState :=
  match nth_error (shutdowns st) k with
  | Some (AwaitSave true) =>
      emit EngineDispose ;;;
      ret (mkHeadless (currentState st) (lastSigintTime st)
             (replace k AwaitDispose (shutdowns st)))
  | Some (AwaitSave false) => halt (Unhandled "savePersistedSession failed")
  | Some AwaitDispose => exit 0
  | None => ret st
  end.

Definition headlessStep (config : Config.RalphConfig) (input : HeadlessInput)
    (st : HeadlessState) : M HeadlessState :=
  match input with
  | Emit now event written =>
      let* s := headlessListener config now event written (currentState st) in
      ret (mkHeadless s (lastSigintTime st) (shutdowns st))
  | Sigint now written => handleSigint now written st
  | Sigterm written => handleSigterm written st
  | Continue k => continueShutdown k st
  | EngineSettled _ => ret st
  end.

(** The wait on [await engine.start()]: deliveries are handled until the
    engine's promise settles; then
    [await engine.dispose(); return currentState], or the rejection is
    rethrown.  The deliveries the model follows end there: the two signal
    handlers stay registered for the rest of the process, but a signal
    that arrives after [engine.start()] has settled, and the rest of a
    shutdown that is still suspended then, are outside the model. *)
Fixpoint headlessWait (config : Config.RalphConfig) (inputs : list HeadlessInput)
    (st : HeadlessState) : M Session.PersistedSessionState :=
  match inputs with
  | [] => halt Pending
  | EngineSettled None :: _ => emit EngineDispose ;;; ret (currentState st)
  | EngineSettled (Some e) :: _ => throw e
  | input :: rest =>
      let* st' := headlessStep config input st in
      headlessWait config rest st'
  end.

Definition runHeadless (persistedState : Session.PersistedSessionState)
    (config : Config.RalphConfig) (inputs : list HeadlessInput)
  : M Session.PersistedSessionState :=
  let st := mkHeadless persistedState 0 [] in
  log (Logger.sessionCreated (Session.sessionId persistedState)
         (Config.agentPlugin config) (Config.trackerPlugin config)) ;;;
  emit EngineStart ;;;
  headlessWait config inputs st.

(** ** [runWithTui]

    The interrupt handler and the [RunApp] component are not part of
    run.tsx; what they do to it is to call the callbacks it hands them.
    The deliveries of the TUI are therefore engine events, the calls of
    [onQuit], [onInterruptConfirmed] and [onForceQuit], SIGTERM, and the
    settling of [engine.start()]. *)
Inductive TuiInput :=
| TuiEmit (now : Z) (event : Engine.EngineEvent) (written : bool)
| TuiQuit (written : bool)
| TuiInterruptConfirmed (written : bool)
| TuiSigterm (written : bool)
| TuiForceQuit
| TuiEngineSettled (error : option string).

(** [engineReturned] holds once [await engine.start()] has returned and
    [resolveQuitPromise] is set. *)
Record TuiState := mkTui {
  tuiState : Session.PersistedSessionState;
  engineReturned : bool
}.

(** What a delivery leaves behind: the function keeps waiting, or its
    quit promise is resolved and it returns [currentState]. *)
Inductive TuiStep :=
| Waiting (st : TuiState)
| Quit (s : Session.PersistedSessionState).

(** [cleanup]: [interruptHandler.dispose(); renderer.destroy()]. *)
Definition tuiCleanup : M unit :=
  emit InterruptDispose ;;; emit RendererDestroy.

(** The TUI's [gracefulShutdown]:
    [await savePersistedSession(currentState); await cleanup();
     resolveQuitPromise?.()].  The call is modelled as one step, taken
    when it is delivered: what is delivered between its two [await]s (in
    particular the settling of [engine.start()], after which
    [resolveQuitPromise] is set) is outside the model, and so is a
    SIGTERM that arrives after [runWithTui] has returned. *)
Definition tuiGracefulShutdown (written : bool) (st : TuiState) : M TuiStep :=
  detached (savePersistedSession (tuiState st) written) ;;;
  tuiCleanup ;;;
  if engineReturned st then ret (Quit (tuiState st)) else ret (Waiting st).

(** [forceQuit]: [process.exit(1)]. *)
Definition forceQuit {A} : M A := exit 1.

Definition tuiStep (input : TuiInput) (st : TuiState) : M TuiStep :=
  match input with
  | TuiEmit now event written =>
      let* s := tuiListener now event written (tuiState st) in
      ret (Waiting (mkTui s (engineReturned st)))
  | TuiQuit written | TuiInterruptConfirmed written | TuiSigterm written =>
      tuiGracefulShutdown written st
  | TuiForceQuit => forceQuit
  | TuiEngineSettled None => ret (Waiting (mkTui (tuiState st) true))
  | TuiEngineSettled (Some e) =>
      if engineReturned st then ret (Waiting st) else throw e
  end.

Fixpoint tuiWait (inputs : list TuiInput) (st : TuiState)
  : M Session.PersistedSessionState :=
  match inputs with
  | [] => halt Pending
  | input :: rest =>
      let* r := tuiStep input st in
      match r with
      | Waiting st' => tuiWait rest st'
      | Quit s => ret s
      end
  end.

Definition runWithTui (persistedState : Session.PersistedSessionState)
    (inputs : list TuiInput) : M Session.PersistedSessionState :=
  emit RendererCreate ;;;
  emit EngineStart ;;;
  tuiWait inputs (mkTui persistedState false).

(** ** [executeRunCommand] *)

Inductive SetupResult :=
| SetupSucceeded
| SetupCancelled
| SetupFailed (error : string).

Record Validation := mkValidation {
  valid : bool;
  errors : list string;
  warnings : list string
}.

(** What the collaborators of [executeRunCommand] answer during one run:
    the results of the calls it awaits, in the order it makes them, and
    the deliveries of the mode it runs in. *)
Record Env := mkEnv {
  processCwd : string;
  processPid : Z;
  configExists : bool;
  setupResult : SetupResult;
  builtConfig : option Config.RalphConfig;
  validation : Validation;
  sessionMetadata : bool;
  newSessionId : string;
  takeOverAnswer : bool;
  resumedSessionId : option string;
  createdSessionId : string;
  trackerTasks : option (list Tracker.TrackerTask);
  startTime : Z;
  initialSaveWritten : bool;
  headlessInputs : list HeadlessInput;
  tuiInputs : list TuiInput;
  failedSaveWritten : bool;
  finalEngineState : Engine.EngineState;
  completedSaveWritten : bool;
  finalSaveWritten : bool
}.

Inductive Choice := resume_ | new_ | abort_.

Definition includes (args : list string) (x : string) : bool :=
  existsb (String.eqb x) args.

Fixpoint forEach {A} (f : A -> M unit) (l : list A) : M unit :=
  match l with
  | [] => ret tt
  | x :: r => f x ;;; forEach f r
  end.

(** [promptResumeOrNew]; the session banner is abridged to its first
    line. *)
Definition promptResumeOrNew (env : Env) : M Choice :=
  let* w := getWorld in
  if negb (Session.hasPersistedSession (sessionFile w)) then ret new_
  else
    match Session.loadPersistedSession (sessionFile w) with
    | None => ret new_
    | Some persistedState =>
        let resumable := Session.isSessionResumable persistedState in
        console "Existing Session Found" ;;;
        let sessionCheck := Session.checkSession (sessionMetadata env) (lockFile w) in
        if Session.isLocked sessionCheck && negb (Session.isStale sessionCheck) then
          console "WARNING: Session is currently locked by another process." ;;;
          console "Cannot start while another instance is running." ;;;
          ret abort_
        else if resumable then
          console "This session can be resumed." ;;;
          console "Starting fresh session..." ;;;
          ret new_
        else
          console "This session has completed and cannot be resumed." ;;;
          console "Starting fresh session..." ;;;
          ret new_
    end.

(** [finalState.tasksCompleted >= finalState.totalTasks ||
     finalState.status === 'idle'] *)
Definition allComplete (finalState : Engine.EngineState) : bool :=
  (Engine.totalTasks finalState <=? Engine.tasksCompleted finalState)%nat
  || (match Engine.status finalState with Engine.idle => true | _ => false end).

(** "Check if all tasks completed successfully" and "End session and
    clean up lock": the part of [executeRunCommand] after the mode
    function has returned [persistedState].  Its awaits are modelled as
    steps of the command alone: signals delivered during them are
    outside the model. *)
Definition finishRun (env : Env) (persistedState : Session.PersistedSessionState)
  : M unit :=
  let allComplete := allComplete (finalEngineState env) in
  (if allComplete then
     let persistedState := Session.completeSession persistedState in
     savePersistedSession persistedState (completedSaveWritten env) ;;;
     deletePersistedSession ;;;
     console "Session completed successfully. Session file cleaned up."
   else
     savePersistedSession persistedState (finalSaveWritten env) ;;;
     console "Session state saved. Use 'ralph-tui resume' to continue.") ;;;
  emit (EndSession (if allComplete then "completed" else "interrupted")) ;;;
  releaseLockNew ;;;
  emit CleanupLockHandlers ;;;
  console "Ralph TUI finished.".

(** The sections of [executeRunCommand], in the order of the source. *)

(** "Check if project config exists": offers the setup wizard when there
    is no configuration. *)
Definition checkSetup (options : ExtendedRuntimeOptions) (env : Env) : M unit :=
  let cwd_ := match cwd options with Some c => c | None => processCwd env end in
  if negb (configExists env) && negb (noSetup options) then
    console "No .ralph-tui.yaml configuration found in this project." ;;;
    emit (SetupWizard cwd_) ;;;
    match setupResult env with
    | SetupSucceeded => console "Setup complete! Starting Ralph..."
    | SetupCancelled =>
        console "Run 'ralph-tui setup' to configure later," ;;;
        console "or use 'ralph-tui run --no-setup' to skip setup." ;;;
        halt Resolved
    | SetupFailed error =>
        consoleError ("Setup failed: " ++ error) ;;;
        exit 1
    end
  else if negb (configExists env) && noSetup options then
    console "No .ralph-tui.yaml found. Using default configuration."
  else ret tt.

(** "Build configuration", "Validate configuration", "Show warnings". *)
Definition loadConfig (env : Env) : M Config.RalphConfig :=
  console "Initializing Ralph TUI..." ;;;
  emit InitializePlugins ;;;
  let* config :=
    match builtConfig env with
    | Some config => ret config
    | None => exit 1
    end in
  let validation := validation env in
  (if negb (valid validation) then
     consoleError "Configuration errors:" ;;;
     forEach (fun error => consoleError ("  - " ++ error)) (errors validation) ;;;
     exit 1
   else ret tt) ;;;
  forEach (fun warning => console ("Warning: " ++ warning)) (warnings validation) ;;;
  ret config.

(** "Check for existing persisted session file" and "Handle existing
    persisted session prompt first (before lock acquisition)". *)
Definition handleExistingSession (options : ExtendedRuntimeOptions) (env : Env)
  : M Session.SessionCheck :=
  let* w := getWorld in
  let sessionCheck := Session.checkSession (sessionMetadata env) (lockFile w) in
  let hasPersistedSessionFile := Session.hasPersistedSession (sessionFile w) in
  (if hasPersistedSessionFile && negb (force options) && negb (resume options) then
     let* choice := promptResumeOrNew env in
     match choice with
     | abort_ => exit 1
     | new_ => deletePersistedSession
     | resume_ => ret tt
     end
   else ret tt) ;;;
  ret sessionCheck.

(** "Acquire lock with proper error messages and stale lock handling"
    and "Register cleanup handlers". *)
Definition acquireLock (options : ExtendedRuntimeOptions) (env : Env) : M unit :=
  let newSessionId := newSessionId env in
  let* w := getWorld in
  let lockResult :=
    Session.acquireLockWithPrompt (lockFile w) (force options) (headless options)
      (takeOverAnswer env) in
  (if negb (Session.acquired lockResult) then
     consoleError ("Error: " ++ nullish (Session.lockError lockResult) "undefined") ;;;
     (match Session.existingPid lockResult with
      | Some _ => consoleError "  Use --force to override."
      | None => ret tt
      end) ;;;
     exit 1
   else emit (LockAcquired (processPid env) newSessionId)) ;;;
  emit RegisterLockCleanup.

(** [`${config.maxIterations || 'unlimited'}`] *)
Definition showMaxIterations (maxIterations : nat) : string :=
  if (maxIterations =? 0)%nat then "unlimited"
  else NilZero.string_of_uint (Nat.to_uint maxIterations).

(** "Handle resume or new session"; the result is [session.id]. *)
Definition openSession (options : ExtendedRuntimeOptions)
    (sessionCheck : Session.SessionCheck) (config : Config.RalphConfig) (env : Env)
  : M string :=
  let* sessionId :=
    if resume options && Session.hasSession sessionCheck then
      console "Resuming previous session..." ;;;
      emit ResumeSession ;;;
      match resumedSessionId env with
      | Some id => ret id
      | None =>
          consoleError "Failed to resume session" ;;;
          releaseLockNew ;;;
          emit CleanupLockHandlers ;;;
          exit 1
      end
    else
      emit CreateSession ;;; ret (createdSessionId env) in
  console ("Session: " ++ sessionId) ;;;
  console ("Agent: " ++ Config.agentPlugin config) ;;;
  console ("Tracker: " ++ Config.trackerPlugin config) ;;;
  (if truthy (Config.epicId config)
   then console ("Epic: " ++ nullish (Config.epicId config) EmptyString) else ret tt) ;;;
  (if truthy (Config.prdPath config)
   then console ("PRD: " ++ nullish (Config.prdPath config) EmptyString) else ret tt) ;;;
  console ("Max iterations: " ++ showMaxIterations (Config.maxIterations config)) ;;;
  console EmptyString ;;;
  ret sessionId.

(** "Create and initialize engine": [engine.initialize()] and the
    tracker's open tasks, or the [catch] block. *)
Definition initializeEngine (env : Env) : M (list Tracker.TrackerTask) :=
  emit EngineInitialize ;;;
  match trackerTasks env with
  | Some tasks => ret tasks
  | None =>
      consoleError "Failed to initialize engine" ;;;
      emit (EndSession "failed") ;;;
      releaseLockNew ;;;
      emit CleanupLockHandlers ;;;
      exit 1
  end.

(** "Run with TUI or headless", with its [catch] block. *)
Definition executeMode (config : Config.RalphConfig)
    (persistedState : Session.PersistedSessionState) (env : Env)
  : M Session.PersistedSessionState :=
  try_catch
    (if Config.showTui config then runWithTui persistedState (tuiInputs env)
     else runHeadless persistedState config (headlessInputs env))
    (fun error =>
       consoleError ("Execution error: " ++ error) ;;;
       let persistedState := Session.failSession persistedState in
       savePersistedSession persistedState (failedSaveWritten env) ;;;
       emit (EndSession "failed") ;;;
       releaseLockNew ;;;
       emit CleanupLockHandlers ;;;
       exit 1).

Definition executeRunCommand (args : list string) (env : Env) : M unit :=
  if includes args "--help" || includes args "-h" then emit PrintHelp
  else
  let* options := lift (parseRunArgs args) in
  checkSetup options env ;;;
  let* config := loadConfig env in
  let* sessionCheck := handleExistingSession options env in
  acquireLock options env ;;;
  let* sessionId := openSession options sessionCheck config env in
  let* tasks := initializeEngine env in
  let persistedState :=
    Session.createPersistedSession (startTime env)
      (Session.mkParams sessionId (Config.agentPlugin config) (Config.model config)
         (Config.trackerPlugin config) (Config.epicId config) (Config.prdPath config)
         (Config.maxIterations config) tasks (Config.cwd config)) in
  savePersistedSession persistedState (initialSaveWritten env) ;;;
  let* persistedState := executeMode config persistedState env in
  finishRun env persistedState.

(** A whole run: the world it starts in, and how and where it ends. *)
Definition run (args : list string) (env : Env) (w : World) : Outcome * World :=
  match executeRunCommand args env w with
  | (Next _, w') => (Resolved, w')
  | (Halt o, w') => (o, w')
  end.

(** The exit status of the process for the outcomes that fix one: the
    argument of [process.exit], and the runtime's default 0 when the
    command's promise resolves without any call of it. *)
Definition exitCode (o : Outcome) : option Z :=
  match o with
  | Resolved => Some 0%Z
  | Exited code => Some code
  | _ => None
  end.

(** ** Vocabulary of the properties *)

(** The events on which the listeners save the session state, the state
    they compute, and what the headless listener logs. *)
Definition persisting (event : Engine.EngineEvent) : bool :=
  match event with
  | Engine.iteration_completed _ | Engine.engine_paused _ | Engine.engine_resumed _ => true
  | _ => false
  end.

Definition nextState (now : Z) (event : Engine.EngineEvent)
    (s : Session.PersistedSessionState) : Session.PersistedSessionState :=
  match event with
  | Engine.iteration_completed result => Session.updateSessionAfterIteration now s result
  | Engine.engine_paused _ => Session.pauseSession now s
  | Engine.engine_resumed _ => resumed s
  | _ => s
  end.

Definition savedBy (now : Z) (event : Engine.EngineEvent) (written : bool)
    (s : Session.PersistedSessionState) : list Effect :=
  if persisting event then [SaveSession (nextState now event s) written] else [].

(** The deliveries handled while [engine.start()] is pending, one after
    the other. *)
Fixpoint headlessSteps (config : Config.RalphConfig) (inputs : list HeadlessInput)
    (st : HeadlessState) : M HeadlessState :=
  match inputs with
  | [] => ret st
  | input :: rest =>
      let* st' := headlessStep config input st in
      headlessSteps config rest st'
  end.

Definition isSigint (input : HeadlessInput) : bool :=
  match input with Sigint _ _ => true | _ => false end.

Definition isEmit (input : HeadlessInput) : bool :=
  match input with Emit _ _ _ | EngineSettled _ => true | _ => false end.

(** The same delivery with the write of the listener succeeding. *)
Definition written_ok (input : HeadlessInput) : HeadlessInput :=
  match input with
  | Emit now event _ => Emit now event true
  | other => other
  end.

Definition tui_written_ok (input : TuiInput) : TuiInput :=
  match input with
  | TuiEmit now event _ => TuiEmit now event true
  | other => other
  end.

(** Invariant 4 of the data model on one snapshot. *)
Definition pausedCoherent (s : Session.PersistedSessionState) : Prop :=
  Session.isPaused s = true -> Session.status s = Session.paused.

Definition savesCoherent (e : Effect) : Prop :=
  match e with
  | SaveSession s _ => pausedCoherent s
  | _ => True
  end.

(** The exit codes of section 6.5 of the specification. *)
Inductive Termination := Completed | Fatal | InterruptedGracefully | ForceQuit.

Definition specExitCode (t : Termination) : Z :=
  match t with
  | Completed => 0
  | Fatal => 1
  | InterruptedGracefully => 130
  | ForceQuit => 137
  end.

(** ** Sample data *)

Definition task1 : Tracker.TrackerTask := Tracker.mkTask "T1" "first task" Tracker.open.
Definition task2 : Tracker.TrackerTask := Tracker.mkTask "T2" "second task" Tracker.open.

Definition result1 : Engine.IterationResult :=
  Engine.mkResult 1 task1 true 15 0 None.

Definition config0 (showTui : bool) : Config.RalphConfig :=
  Config.mkConfig "/work" "claude" "json" None None None 10 showTui.

Definition world0 : World := mkWorld [] Session.Absent None.

(** A run in the given mode whose collaborators all succeed: two open
    tasks, every write succeeds, the engine ends with both tasks done. *)
Definition env0 (showTui : bool) (hs : list HeadlessInput) (ts : list TuiInput) : Env :=
  mkEnv "/work" 4242 true SetupSucceeded (Some (config0 showTui))
    (mkValidation true [] []) false "new-session" false None "session-1"
    (Some [task1; task2]) 1700000000000 true hs ts true
    (Engine.mkState Engine.stopped 2 2) true true.

Definition session0 : Session.PersistedSessionState :=
  Session.createPersistedSession 1700000000000
    (Session.mkParams "session-1" "claude" None "json" None None 10 [task1; task2] "/work").

Definition clock0 : Z := 1700000005000.

(** What the headless listener logs for an event. *)
Definition headlessLog (config : Config.RalphConfig) (event : Engine.EngineEvent)
  : list Logger.Call :=
  match event with
  | Engine.engine_started totalTasks => [Logger.engineStarted totalTasks]
  | Engine.iteration_started iteration task =>
      [Logger.progress iteration (Config.maxIterations config)
         (Tracker.id task) (Tracker.title task)]
  | Engine.iteration_completed result =>
      Logger.iterationComplete (Engine.iteration result)
        (Tracker.id (Engine.task result)) (Engine.taskCompleted result)
        (Engine.durationMs result)
      :: (if Engine.taskCompleted result
          then [Logger.taskCompleted (Tracker.id (Engine.task result))
                  (Engine.iteration result)]
          else [])
  | Engine.iteration_failed iteration task error action =>
      [Logger.iterationFailed iteration (Tracker.id task) error action]
  | Engine.iteration_retrying iteration task retryAttempt maxRetries delayMs =>
      [Logger.iterationRetrying iteration (Tracker.id task) retryAttempt maxRetries delayMs]
  | Engine.iteration_skipped iteration task reason =>
      [Logger.iterationSkipped iteration (Tracker.id task) reason]
  | Engine.agent_output Engine.stdout data => [Logger.agentOutput data]
  | Engine.agent_output Engine.stderr data => [Logger.agentError data]
  | Engine.task_selected task iteration =>
      [Logger.taskSelected (Tracker.id task) (Tracker.title task) iteration]
  | Engine.engine_paused currentIteration => [Logger.enginePaused currentIteration]
  | Engine.engine_resumed fromIteration => [Logger.engineResumed fromIteration]
  | Engine.engine_stopped reason totalIterations tasksCompleted =>
      [Logger.engineStopped reason totalIterations tasksCompleted]
  | Engine.all_complete totalCompleted totalIterations =>
      [Logger.allComplete totalCompleted totalIterations]
  | Engine.task_completed _ _ => []
  end.

Definition isSettled (input : HeadlessInput) : bool :=
  match input with EngineSettled _ => true | _ => false end.

(** A write of a snapshot with status [interrupted] that succeeded. *)
Definition interruptedSaved (es : list Effect) : Prop :=
  exists x, In (SaveSession x true) es /\ Session.status x = Session.interrupted.

(** A suspended shutdown that will go on to [process.exit(0)]. *)
Definition committed (p : Awaiting) : Prop := p <> AwaitSave false.

Definition stopEvent : Engine.EngineEvent := Engine.engine_stopped "max_iterations" 5 5.

(** The snapshot of [session0] paused at [clock0] and then interrupted. *)
Definition pausedThenInterrupted : Session.PersistedSessionState :=
  Session.with_status Session.interrupted (Session.pauseSession clock0 session0).

(** [env0] in headless mode, except that the first write of the session
    file fails. *)
Definition envInitialSaveFails (hs : list HeadlessInput) : Env :=
  mkEnv "/work" 4242 true SetupSucceeded (Some (config0 false))
    (mkValidation true [] []) false "new-session" false None "session-1"
    (Some [task1; task2]) 1700000000000 false hs [] true
    (Engine.mkState Engine.stopped 2 2) true true.

(** The effects of the start-up of a run of [env0] on [world0], up to the
    first write of the session file. *)
Definition startup0 : list Effect :=
  [Console "Initializing Ralph TUI..."; InitializePlugins;
   LockAcquired 4242 "new-session"; RegisterLockCleanup; CreateSession;
   Console "Session: session-1"; Console "Agent: claude"; Console "Tracker: json";
   Console "Max iterations: 10"; Console EmptyString;
   EngineInitialize; SaveSession session0 true].

(** ** Footprints of computations *)


Definition touchesLock (e : Effect) : Prop :=
  match e with
  | LockAcquired _ _ | ReleaseLock => True
  | _ => False
  end.

(** The session file holds a snapshot. *)
Definition isStored (f : Session.SessionFile) : Prop :=
  match f with Session.Stored _ => True | _ => False end.

(** [keeps eff out val m]: whatever the world, [m] changes it only
    through effects that satisfy [eff]; it stops the command only with an
    outcome that satisfies [out], and otherwise returns a value that
    satisfies [val]. *)
Definition keeps {A} (eff : Effect -> Prop) (out : Outcome -> Prop) (val : A -> Prop)
    (m : M A) : Prop :=
  forall w r w', m w = (r, w') ->
    exists es, w' = performAll es w /\ Forall eff es /\
               match r with Next a => val a | Halt o => out o end.

Definition any {A} (_ : A) : Prop := True.

Definition notDelete (e : Effect) : Prop := e <> DeleteSession.

(** The invariant of the headless wait: a shutdown that is on its way to
    [process.exit(0)] has written an [interrupted] snapshot. *)
Definition shutdownsSaved (st : HeadlessState) (es : list Effect) : Prop :=
  Exists committed (shutdowns st) -> interruptedSaved es.

(** What a delivery of the TUI leaves behind satisfies [P]. *)
Definition tuiStepOk (P : Session.PersistedSessionState -> Prop) (r : TuiStep) : Prop :=
  match r with
  | Waiting st' => P (tuiState st')
  | Quit s => P s
  end.

(** ** The stages of [executeRunCommand]

    The command regrouped for the proofs: what it does before it takes
    the lock, and from the lock to the first snapshot. *)
Definition beforeLock (args : list string) (env : Env)
  : M (ExtendedRuntimeOptions * Config.RalphConfig * Session.SessionCheck) :=
  let* options := lift (parseRunArgs args) in
  checkSetup options env ;;;
  let* config := loadConfig env in
  let* sessionCheck := handleExistingSession options env in
  ret (options, config, sessionCheck).

Definition initialState (config : Config.RalphConfig) (sessionId : string)
    (tasks : list Tracker.TrackerTask) (env : Env) : Session.PersistedSessionState :=
  Session.createPersistedSession (startTime env)
    (Session.mkParams sessionId (Config.agentPlugin config) (Config.model config)
       (Config.trackerPlugin config) (Config.epicId config) (Config.prdPath config)
       (Config.maxIterations config) tasks (Config.cwd config)).

Definition afterLock (options : ExtendedRuntimeOptions)
    (sessionCheck : Session.SessionCheck) (config : Config.RalphConfig) (env : Env)
  : M Session.PersistedSessionState :=
  let* sessionId := openSession options sessionCheck config env in
  let* tasks := initializeEngine env in
  ret (initialState config sessionId tasks env).

Definition staged (args : list string) (env : Env) : M unit :=
  let* x := beforeLock args env in
  let '(options, config, sessionCheck) := x in
  acquireLock options env ;;;
  let* persistedState := afterLock options sessionCheck config env in
  savePersistedSession persistedState (initialSaveWritten env) ;;;
  let* persistedState := executeMode config persistedState env in
  finishRun env persistedState.

Definition wantsHelp (args : list string) : bool :=
  includes args "--help" || includes args "-h".

(** The effects of the start-up: nothing of the engine's run. *)
Definition startupEffect (e : Effect) : Prop :=
  e <> EngineStart /\ e <> EngineDispose /\ (forall s b, e <> SaveSession s b).

(** The effects before the lock is taken. *)
Definition preLockEffect (e : Effect) : Prop :=
  startupEffect e /\ ~ touchesLock e /\ e <> EngineInitialize.

(** The outcomes of a failed or declined start-up. *)
Definition earlyOutcome (o : Outcome) : Prop := o = Resolved \/ o = Exited 1.

(** The effects of the stages that neither write nor delete the session
    file. *)
Definition quietEffect (e : Effect) : Prop := preLockEffect e /\ e <> DeleteSession.

(** The effects from the lock to the first snapshot. *)
Definition openingEffect (e : Effect) : Prop := startupEffect e /\ e <> DeleteSession.


Definition exitsWithOne (o : Outcome) : Prop := o = Exited 1.


(** How the mode function can end, given the effects [es] of its run:
    [process.exit(0)] only in headless mode and only after an
    [interrupted] snapshot was written. *)
Definition modeOutcome (showTui : bool) (es : list Effect)
    (r : Step Session.PersistedSessionState) : Prop :=
  match r with
  | Halt (Exited c) =>
      c = 1%Z \/ (c = 0%Z /\ showTui = false /\ interruptedSaved es)
  | Halt Resolved => False
  | _ => True
  end.

Definition notStarted (e : Effect) : Prop := e <> EngineStart.

(** The outcomes of the TUI wait and of the [catch] block. *)
Definition tuiOutcome (o : Outcome) : Prop :=
  match o with
  | Exited c => c = 1%Z
  | Resolved => False
  | _ => True
  end.

Definition catchOutcome (o : Outcome) : Prop :=
  match o with
  | Exited c => c = 1%Z
  | Rejected _ => True
  | _ => False
  end.

(** A working directory that holds the session file of an earlier run,
    and a run in which the engine fails to initialise. *)
Definition worldOld : World := mkWorld [] (Session.Stored session0) None.

Definition envInitFails : Env :=
  mkEnv "/work" 4242 true SetupSucceeded (Some (config0 false))
    (mkValidation true [] []) false "new-session" false None "session-2"
    None 1700000000000 true [] [] true
    (Engine.mkState Engine.stopped 0 2) true true.

(** A working directory locked by a live process. *)
Definition worldLocked : World :=
  mkWorld [] Session.Absent (Some (Session.mkLock 777 "other-session" true)).
(** ** The create-prd command after its argument parser *)

Module JsString.

Definition reverse (s : string) : string :=
  string_of_list_ascii (List.rev (list_ascii_of_string s)).

(** [s.trimEnd()] and [s.trim()]: the white space is that of
    [Js.skipWhiteSpace]. *)
Definition trimEnd (s : string) : string :=
  reverse (Js.skipWhiteSpace true (reverse s)).

Definition trim (s : string) : string := trimEnd (Js.trimStart s).

(** [s.toUpperCase()] as far as the command depends on it: the letters a
    to z are mapped to A to Z and every other byte is kept.  (Other
    letters have an upper case too, but none of them has an upper case
    that consists of ASCII letters A, B or C only, and the command only
    compares the result with these.) *)
Definition upper (c : ascii) : ascii :=
  let n := nat_of_ascii c in
  if ((97 <=? n)%nat && (n <=? 122)%nat) then ascii_of_nat (n - 32) else c.

Fixpoint toUpperCase (s : string) : string :=
  match s with
  | EmptyString => EmptyString
  | String c r => String (upper c) (toUpperCase r)
  end.

(** [a || b] on strings that may be [undefined]: the first operand when
    it is truthy. *)
Definition orElse (a : option string) (b : string) : string :=
  if Js.truthy a then Js.nullish a b else b.

(** The decimal form of an integer, as a template literal prints it. *)
Definition showZ (z : Z) : string := NilZero.string_of_int (Z.to_int z).

Definition newline : string := String (ascii_of_nat 10) EmptyString.

(** [s] between double quotes. *)
Definition quoted (s : string) : string :=
  String (ascii_of_nat 34) s ++ String (ascii_of_nat 34) EmptyString.

End JsString.

Module CreatePrdCommand.

Import JsString.

(** What the command prints, asks, renders and runs, in order. *)
Inductive Output :=
| Log (line : string)
| Error (line : string)
| Question (prompt : string)
| Render (agent cwd outputDir : string) (timeout : number)
| Unmount
| Destroy
| Execute (prompt cwd : string).

(** A part of the command: what it puts out, and the value it returns
    or the way it stops the command ([Rejected] for an exception,
    [Pending] for a promise that never settles). *)
Definition Run (A : Type) : Type := list Output * Step A.

Definition done {A} (a : A) : Run A := ([], Next a).

Definition say (o : Output) : Run unit := ([o], Next tt).

Definition stop {A} (o : Outcome) : Run A := ([], Halt o).

Definition andThen {A B} (m : Run A) (k : A -> Run B) : Run B :=
  match m with
  | (out, Next a) => let '(out', r) := k a in ((out ++ out')%list, r)
  | (out, Halt o) => (out, Halt o)
  end.

Notation "'let+' x ':=' m 'in' k" := (andThen m (fun x => k))
  (at level 10, x name, m at level 100, k at level 200).
Notation "m ';+' k" := (andThen m (fun _ => k))
  (at level 100, k at level 200, right associativity).

(** [try { m } catch (error) { h message }] *)
Definition tryCatch {A} (m : Run A) (h : string -> Run A) : Run A :=
  match m with
  | (out, Halt (Rejected e)) => let '(out', r) := h e in ((out ++ out')%list, r)
  | r => r
  end.

(** A call that returns a value or throws; for a promise: that resolves
    or rejects. *)
Definition call {A} (result : A + string) : Run A :=
  match result with
  | inl a => done a
  | inr message => stop (Rejected message)
  end.

(** ** [getAgent] *)

Record Detection := mkDetection {
  detected : bool;
  detectionError : option string
}.

(** An agent plugin instance, as far as the command uses it:
    [meta.name], and what [isReady()] and [detect()] resolve to or throw. *)
Record AgentPlugin := mkAgent {
  metaName : string;
  isReady : bool + string;
  detect : Detection + string
}.

(** The stored configuration, as far as [getAgent] reads it. *)
Record StoredConfig := mkStored {
  storedAgent : option string;
  defaultAgent : option string
}.

(** What [agent.execute(prompt, [], { cwd }).promise] does. *)
Record AgentResult := mkAgentResult {
  status : string;
  exitCode : option Z;
  error : option string
}.

Inductive Execution :=
| Resolves (result : AgentResult)
| Throws (message : string)
| NeverSettles.

(** The callbacks the chat component calls. *)
Inductive ChatEvent :=
| OnError (message : string)
| OnComplete (prdPath featureName : string)
| OnCancel.

(** The collaborators of the command during one run: what each call the
    command makes gives.  [registerAgents] stands for
    [registerBuiltinAgents()] and [registry.initialize()];
    [createRenderer] for [createCliRenderer] and [createRoot], with the
    message of what is thrown, if anything; [answer] is the line typed at
    the question, if one ever is; [requireSetup] is not part of the
    file: [setupMissing] is the outcome with which it stops the command,
    if it does. *)
Record Env := mkEnv {
  processCwd : string;
  setupMissing : option Outcome;
  loadStoredConfig : StoredConfig + string;
  registerAgents : unit + string;
  getInstance : string -> AgentPlugin + string;
  createRenderer : unit + string;
  chat : list ChatEvent;
  hasBeads : string -> bool;
  answer : option string;
  execute : string -> string -> Execution
}.

(** [agentName || storedConfig.agent || storedConfig.defaultAgent || 'claude'] *)
Definition targetAgent (agentName : option string) (storedConfig : StoredConfig) : string :=
  orElse agentName (orElse (storedAgent storedConfig)
                      (orElse (defaultAgent storedConfig) "claude")).

(** [getAgent] *)
Definition getAgent (agentName : option string) (env : Env) : Run (option AgentPlugin) :=
  tryCatch
    (let+ storedConfig := call (loadStoredConfig env) in
     call (registerAgents env) ;+
     let targetAgent := targetAgent agentName storedConfig in
     let+ agent := call (getInstance env targetAgent) in
     let+ isReady := call (isReady agent) in
     if negb isReady then
       let+ detection := call (detect agent) in
       if negb (detected detection) then
         say (Error ("Agent '" ++ targetAgent ++ "' is not available: "
                     ++ orElse (detectionError detection) "not detected")) ;+
         done None
       else done (Some agent)
     else done (Some agent))
    (fun message =>
       say (Error ("Failed to load agent: " ++ message)) ;+
       done None).

(** ** Tracker selection *)

Record TrackerOption := mkOption {
  key : string;
  name : string;
  description : string;
  available : bool;
  skillPrompt : string
}.

(** [getAvailableTrackers]; [hasBeads] is [fs.existsSync] of the
    [.beads] directory under [cwd]. *)
Definition getAvailableTrackers (hasBeads : bool) : list TrackerOption :=
  [ mkOption "A" "JSON (prd.json)" "Simple JSON format, no external dependencies" true
      "Convert this PRD to prd.json format using the ralph-tui-create-json skill.";
    mkOption "B" "Beads" "Git-backed issue tracker with dependencies" hasBeads
      "Convert this PRD to beads using the ralph-tui-create-beads skill.";
    mkOption "C" "Skip" "I'll create tasks manually" true EmptyString ].

Fixpoint sayAll (lines : list Output) : Run unit :=
  match lines with
  | [] => done tt
  | o :: rest => say o ;+ sayAll rest
  end.

(** [promptTrackerSelection]; the promise resolves in the callback of
    [rl.question], which is called with the line the user types. *)
Definition promptTrackerSelection (hasBeads : bool) (answer : option string)
  : Run (option TrackerOption) :=
  let trackers := getAvailableTrackers hasBeads in
  let availableTrackers := filter available trackers in
  say (Log EmptyString) ;+
  say (Log "Would you like to create tasks for a tracker?") ;+
  say (Log EmptyString) ;+
  sayAll (map (fun tracker =>
                 Log ("  " ++ key tracker ++ ". " ++ name tracker ++ " - "
                      ++ description tracker)) availableTrackers) ;+
  say (Log EmptyString) ;+
  say (Question "Select option (A/B/C): ") ;+
  match answer with
  | None => stop Pending
  | Some answer =>
      let normalized := toUpperCase (trim answer) in
      let selected := find (fun t => key t =? normalized) availableTrackers in
      match selected with
      | None => done None
      | Some selected => if key selected =? "C" then done None else done (Some selected)
      end
  end.

(** ** [runTrackerConversion] *)

Definition conversionPrompt (tracker : TrackerOption) (prdPath : string) : string :=
  skillPrompt tracker ++ newline ++ newline
  ++ "The PRD file is at: " ++ prdPath ++ newline ++ newline
  ++ "Read the PRD and create the appropriate tasks.".

(** [const handle = agent.execute(...); const result = await handle.promise] *)
Definition runAgent (execute : string -> string -> Execution) (prompt cwd : string)
  : Run AgentResult :=
  say (Execute prompt cwd) ;+
  match execute prompt cwd with
  | Resolves result => done result
  | Throws message => stop (Rejected message)
  | NeverSettles => stop Pending
  end.

(** [`Exit code: ${result.exitCode}`] *)
Definition showExitCode (exitCode : option Z) : string :=
  match exitCode with
  | Some code => showZ code
  | None => "undefined"
  end.

Definition runTrackerConversion (execute : string -> string -> Execution)
    (prdPath : string) (tracker : TrackerOption) (cwd : string) : Run bool :=
  say (Log EmptyString) ;+
  say (Log ("Converting PRD to " ++ name tracker ++ " format...")) ;+
  say (Log EmptyString) ;+
  let prompt := conversionPrompt tracker prdPath in
  tryCatch
    (let+ result := runAgent execute prompt cwd in
     if (status result =? "completed")
        && (match exitCode result with Some code => (code =? 0)%Z | None => false end) then
       say (Log EmptyString) ;+
       say (Log "Tasks created successfully!") ;+
       done true
     else
       say (Error EmptyString) ;+
       say (Error ("Task creation failed: "
                   ++ orElse (error result)
                        ("Exit code: " ++ showExitCode (exitCode result)))) ;+
       done false)
    (fun message =>
       say (Error EmptyString) ;+
       say (Error ("Error running conversion: " ++ message)) ;+
       done false).

(** ** [runChatMode] and [executeCreatePrdCommand] *)

(** [parsedArgs.timeout || 180000]: NaN and the zeros are falsy. *)
Definition timeoutOf (parsedArgs : CreatePrd.CreatePrdArgs) : number :=
  match CreatePrd.timeout parsedArgs with
  | Some t => if truthyNumber t then t else Int 180000
  | None => Int 180000
  end.

(** The wait on the promise of the chat: errors are printed; the first
    completion or cancellation tears the renderer down and resolves the
    promise with [completedPrdPath] set or left [null]. *)
Fixpoint chatWait (events : list ChatEvent) : Run (option string) :=
  match events with
  | [] => stop Pending
  | OnError message :: rest =>
      say (Error ("Error: " ++ message)) ;+
      chatWait rest
  | OnComplete prdPath _ :: _ =>
      say Unmount ;+
      say Destroy ;+
      say (Log EmptyString) ;+
      say (Log ("PRD created: " ++ prdPath)) ;+
      done (Some prdPath)
  | OnCancel :: _ =>
      say Unmount ;+
      say Destroy ;+
      say (Log EmptyString) ;+
      say (Log "PRD creation cancelled.") ;+
      done None
  end.

(** [runChatMode] *)
Definition runChatMode (parsedArgs : CreatePrd.CreatePrdArgs) (env : Env) : Run unit :=
  let+ agent := getAgent (CreatePrd.agent parsedArgs) env in
  match agent with
  | None =>
      say (Error EmptyString) ;+
      say (Error "Chat mode requires an AI agent. Options:") ;+
      say (Error ("  1. Run " ++ quoted "ralph-tui setup" ++ " to configure an agent")) ;+
      say (Error ("  2. Use " ++ quoted "--agent claude" ++ " or "
                  ++ quoted "--agent opencode" ++ " to specify one")) ;+
      stop (Exited 1)
  | Some agent =>
      let cwd := orElse (CreatePrd.cwd parsedArgs) (processCwd env) in
      let outputDir := orElse (CreatePrd.output parsedArgs) "tasks" in
      let timeout := timeoutOf parsedArgs in
      say (Log ("Using agent: " ++ metaName agent)) ;+
      say (Log EmptyString) ;+
      call (createRenderer env) ;+
      say (Render (metaName agent) cwd outputDir timeout) ;+
      let+ completedPrdPath := chatWait (chat env) in
      if truthy completedPrdPath then
        let completedPrdPath := nullish completedPrdPath EmptyString in
        let+ selectedTracker := promptTrackerSelection (hasBeads env cwd) (answer env) in
        match selectedTracker with
        | Some selectedTracker =>
            runTrackerConversion (execute env) completedPrdPath selectedTracker cwd ;+
            done tt
        | None =>
            say (Log EmptyString) ;+
            say (Log "Next steps:") ;+
            say (Log ("  1. Review the PRD: " ++ completedPrdPath)) ;+
            say (Log ("  2. Convert to tasks: ralph-tui convert --to json "
                      ++ completedPrdPath)) ;+
            say (Log "  3. Or run with beads: ralph-tui run --epic <epic-id>")
        end
      else done tt
  end.

(** [executeCreatePrdCommand]: the output of the command and the way it
    ends. *)
Definition executeCreatePrdCommand (args : list string) (env : Env)
  : list Output * Outcome :=
  match CreatePrd.parseCreatePrdArgs args with
  | Throw e => ([], Rejected e)
  | ProcessExit code => ([], Exited code)
  | Normal parsedArgs =>
      match setupMissing env with
      | Some o => ([], o)
      | None =>
          match runChatMode parsedArgs env with
          | (out, Halt o) => (out, o)
          | (out, Next _) => (out, Exited 0)
          end
      end
  end.

End CreatePrdCommand.

(** ** Vocabulary of further properties of the parsers *)

(** The value-taking flags of [parseRunArgs] with the field each sets. *)
Definition stringFlagSetters
  : list (string * (option string -> ExtendedRuntimeOptions -> ExtendedRuntimeOptions)) :=
  [("--epic", set_epicId); ("--prd", set_prdPath); ("--agent", set_agent);
   ("--model", set_model); ("--tracker", set_tracker); ("--cwd", set_cwd)].

Definition numberFlagSetters
  : list (string * (option number -> ExtendedRuntimeOptions -> ExtendedRuntimeOptions)) :=
  [("--iterations", set_iterations); ("--delay", set_iterationDelay)].

(** A token that can serve as the value of a flag: not empty and not
    starting with a dash. *)
Definition usable (v : string) : bool :=
  negb (v =? EmptyString) && negb (String.prefix "-" v).

(** What a numeric case stores for the token [v]: nothing when
    [parseInt] gives NaN. *)
Definition stored {R} (set : option number -> R -> R) (v : string) (r : R) : R :=
  if isNaN (parseInt (Some v)) then r else set (Some (parseInt (Some v))) r.

(** The decimal numeral of a natural number. *)
Definition decimal (n : nat) : string := NilZero.string_of_uint (Nat.to_uint n).

(** [--no-tui] written as [--headless]. *)
Definition canonical (token : string) : string :=
  if token =? "--no-tui" then "--headless" else token.

(** U+00A0, the no-break space, and U+3000, the ideographic space. *)
Definition nbsp : string := String (ascii_of_nat 194) (String (ascii_of_nat 160) EmptyString).

Definition ideographicSpace : string :=
  String (ascii_of_nat 227) (String (ascii_of_nat 128) (String (ascii_of_nat 128) EmptyString)).

(** ** Vocabulary of the properties of the create-prd command *)

(** The first callback of the chat that is not [onError]. *)
Fixpoint firstTerminal (events : list CreatePrdCommand.ChatEvent)
  : option CreatePrdCommand.ChatEvent :=
  match events with
  | [] => None
  | CreatePrdCommand.OnError _ :: rest => firstTerminal rest
  | e :: _ => Some e
  end.

(** Output that neither renders the chat nor runs the agent. *)
Definition plainOutput (o : CreatePrdCommand.Output) : Prop :=
  match o with
  | CreatePrdCommand.Execute _ _ | CreatePrdCommand.Render _ _ _ _ => False
  | _ => True
  end.

(** The line [getAgent] prints when a call it makes throws [message]. *)
Definition failedToLoad (message : string) : CreatePrdCommand.Output :=
  CreatePrdCommand.Error ("Failed to load agent: " ++ message).

Definition jsonTracker : CreatePrdCommand.TrackerOption :=
  CreatePrdCommand.mkOption "A" "JSON (prd.json)"
    "Simple JSON format, no external dependencies" true
    "Convert this PRD to prd.json format using the ralph-tui-create-json skill.".

Definition beadsTracker : CreatePrdCommand.TrackerOption :=
  CreatePrdCommand.mkOption "B" "Beads" "Git-backed issue tracker with dependencies" true
    "Convert this PRD to beads using the ralph-tui-create-beads skill.".

(** What the agent that [getAgent] obtains is, if any. *)
Definition agentOf (parsed : CreatePrd.CreatePrdArgs) (env : CreatePrdCommand.Env)
  : option CreatePrdCommand.AgentPlugin :=
  match snd (CreatePrdCommand.getAgent (CreatePrd.agent parsed) env) with
  | Next agent => agent
  | Halt _ => None
  end.

(** The working directory [runChatMode] uses. *)
Definition cwdOf (parsed : CreatePrd.CreatePrdArgs) (env : CreatePrdCommand.Env) : string :=
  JsString.orElse (CreatePrd.cwd parsed) (CreatePrdCommand.processCwd env).

(** The tracker the user selects, once the question is answered. *)
Definition selectionOf (parsed : CreatePrd.CreatePrdArgs) (env : CreatePrdCommand.Env)
  : Step (option CreatePrdCommand.TrackerOption) :=
  snd (CreatePrdCommand.promptTrackerSelection
         (CreatePrdCommand.hasBeads env (cwdOf parsed env)) (CreatePrdCommand.answer env)).

(** What [runChatMode] renders for the agent it obtained. *)
Definition renderOf (parsed : CreatePrd.CreatePrdArgs) (env : CreatePrdCommand.Env)
    (agent : CreatePrdCommand.AgentPlugin) : CreatePrdCommand.Output :=
  CreatePrdCommand.Render (CreatePrdCommand.metaName agent) (cwdOf parsed env)
    (JsString.orElse (CreatePrd.output parsed) "tasks") (CreatePrdCommand.timeoutOf parsed).

(** The prompt of the conversion, written out. *)
Definition promptText (skill prdPath : string) : string :=
  skill ++ JsString.newline ++ JsString.newline
  ++ "The PRD file is at: " ++ prdPath ++ JsString.newline ++ JsString.newline
  ++ "Read the PRD and create the appropriate tasks.".

(** Sample data: a ready agent, and a run of the command whose chat
    completes and whose user answers [b], between no-break spaces, in a
    repository with [.beads]. *)
Definition claudeAgent : CreatePrdCommand.AgentPlugin :=
  CreatePrdCommand.mkAgent "Claude Code" (inl true)
    (inl (CreatePrdCommand.mkDetection true None)).

Definition prdEnv0 (execute : string -> string -> CreatePrdCommand.Execution)
  : CreatePrdCommand.Env :=
  CreatePrdCommand.mkEnv "/repo" None
    (inl (CreatePrdCommand.mkStored None (Some "opencode"))) (inl tt)
    (fun _ => inl claudeAgent) (inl tt)
    [CreatePrdCommand.OnError "slow network";
     CreatePrdCommand.OnComplete "tasks/prd-login.md" "login"]
    (fun _ => true) (Some (nbsp ++ "b" ++ ideographicSpace)) execute.

Definition failingAgent (prompt cwd : string) : CreatePrdCommand.Execution :=
  CreatePrdCommand.Resolves (CreatePrdCommand.mkAgentResult "failed" (Some 2%Z) None).

(** ** Vocabulary of further properties of the run command *)


(** The effects of the headless wait. *)
Definition headlessEffect (e : Effect) : Prop :=
  match e with
  | Log _ | SaveSession _ _ | EngineDispose => True
  | _ => False
  end.

(** The effects that leave the lock alone. *)
Definition leavesLock (e : Effect) : Prop := ~ touchesLock e.

Lemma runLoop_body args i (l : i < length args) o c (e : runSwitch args i o = c) :
  runLoop_unfold_clause_1_clause_2 args i l o (exist _ c e) =
  match c with
  | Normal (j, o') => runLoop args (S j) o'
  | Throw e => Throw e
  | ProcessExit c => ProcessExit c
  end.
Proof. destruct c as [[j o']| |]; simp runLoop; reflexivity. Qed.

(** One turn of the loop. *)
Lemma runLoop_step args i o :
  runLoop args i o =
  if lt_dec i (length args) then
    match runSwitch args i o with
    | Normal (j, o') => runLoop args (S j) o'
    | Throw e => Throw e
    | ProcessExit c => ProcessExit c
    end
  else Normal o.
Proof.
  simp runLoop. destruct (lt_dec i (length args)); [|reflexivity].
  rewrite runLoop_clause_1_equation_1. apply runLoop_body.
Qed.

Example parseRunArgs_ex1 :
  parseRunArgs ["--epic"; "e1"; "--iterations"; "20"; "--no-tui"]
  = Normal (set_headless (set_iterations (Some (Int 20)) (set_epicId (Some "e1") noOptions))).
Proof. reflexivity. Qed.

Example parseRunArgs_ex2 :
  parseRunArgs ["--epic"; "--force"; "stray"; "--iterations"; "abc"; "--delay"; " -5"]
  = Normal (set_iterationDelay (Some (Int (-5))) (set_force noOptions)).
Proof. reflexivity. Qed.

(** The case labels of the switch, and those whose case reads [nextArg]. *)
Definition runFlags : list string :=
  ["--epic"; "--prd"; "--agent"; "--model"; "--tracker"; "--iterations"; "--delay";
   "--cwd"; "--resume"; "--force"; "--headless"; "--no-tui"; "--no-setup"].

Definition valueFlags : list string :=
  ["--epic"; "--prd"; "--agent"; "--model"; "--tracker"; "--iterations"; "--delay"; "--cwd"].

Lemma hasValue_dash t : String.prefix "-" t = true -> hasValue (Some t) = Normal false.
Proof.
  intros H. unfold hasValue, and_then, truthy, startsWith.
  destruct (t =? EmptyString); cbn; [reflexivity | now rewrite H].
Qed.

Lemma stringCase_normal set nextArg i o : exists r, stringCase set nextArg i o = Normal r.
Proof.
  unfold stringCase. destruct (hasValue_normal nextArg) as [b ->]; cbn.
  destruct b; eauto.
Qed.

Lemma numberCase_normal set nextArg i o : exists r, numberCase set nextArg i o = Normal r.
Proof.
  unfold numberCase. destruct (hasValue_normal nextArg) as [b ->]; cbn -[parseInt].
  destruct b; [destruct (isNaN (parseInt nextArg))|]; cbn; eauto.
Qed.

Lemma runSwitch_normal args i o : exists r, runSwitch args i o = Normal r.
Proof.
  unfold runSwitch. destruct (index args i) as [arg|]; [|eauto].
  repeat match goal with
  | |- exists r, (if ?c then _ else _) = _ => destruct c
  end; eauto using stringCase_normal, numberCase_normal.
Qed.

Lemma runLoop_normal args : forall n i o,
  length args - i <= n -> exists o', runLoop args i o = Normal o'.
Proof.
  induction n as [|n IH]; intros i o Hn; rewrite runLoop_step;
    destruct (lt_dec i (length args)) as [Hlt|Hge]; eauto; try lia.
  destruct (runSwitch_normal args i o) as [[j o'] E]. rewrite E.
  apply IH. apply runSwitch_index in E. lia.
Qed.

Lemma runSwitch_unrecognised args i o t :
  index args i = Some t -> ~ In t runFlags -> runSwitch args i o = Normal (i, o).
Proof.
  intros Hi Hn. unfold runSwitch. rewrite Hi.
  repeat match goal with
  | |- (if ?a =? ?b then _ else _) = _ =>
      destruct (String.eqb_spec a b) as [->|_]; [exfalso; apply Hn; cbn; tauto|]
  | |- (if (?a =? ?b) || _ then _ else _) = _ =>
      destruct (String.eqb_spec a b) as [->|_]; [exfalso; apply Hn; cbn; tauto|]; cbn [orb]
  end.
  reflexivity.
Qed.

Lemma runSwitch_dash args i o f t :
  index args i = Some f -> In f valueFlags ->
  index args (i + 1) = Some t -> String.prefix "-" t = true ->
  runSwitch args i o = Normal (i, o).
Proof.
  intros Hi Hf Hn Hp. unfold runSwitch. rewrite Hi, Hn.
  cbn in Hf.
  repeat destruct Hf as [<-|Hf]; try contradiction; cbn;
    unfold stringCase, numberCase; rewrite (hasValue_dash t Hp); reflexivity.
Qed.

(** The loop sees the arguments only through [args[i]] and [args[i+1]]:
    dropping an argument in front shifts the indices by one. *)
Definition shift (c : completion (nat * ExtendedRuntimeOptions)) :=
  match c with
  | Normal (j, o) => Normal (S j, o)
  | Throw e => Throw e
  | ProcessExit n => ProcessExit n
  end.

Lemma runSwitch_cons x args i o :
  runSwitch (x :: args) (S i) o = shift (runSwitch args i o).
Proof.
  unfold runSwitch, index; cbn [nth_error Nat.add].
  destruct (nth_error args i) as [arg|]; [|reflexivity].
  unfold stringCase, numberCase.
  destruct (hasValue_normal (nth_error args (i + 1))) as [b ->]; cbn.
  repeat match goal with
  | |- (if ?c then _ else _) = shift (if ?c then _ else _) => destruct c
  end; try reflexivity; destruct (isNaN (parseInt _)); reflexivity.
Qed.

Lemma runLoop_cons x args : forall n i o,
  length args - i <= n -> runLoop (x :: args) (S i) o = runLoop args i o.
Proof.
  induction n as [|n IH]; intros i o Hn;
    rewrite (runLoop_step (x :: args)), (runLoop_step args);
    cbn [length];
    destruct (lt_dec (S i) (S (length args))), (lt_dec i (length args));
    try lia; try reflexivity.
  rewrite runSwitch_cons.
  destruct (runSwitch args i o) as [[j o']| |] eqn:E; cbn; try reflexivity.
  apply IH. apply runSwitch_index in E. lia.
Qed.

(** [parseInt] on decimal numerals. *)
Lemma digits_of_uint d : forall acc,
  digits (NilEmpty.string_of_uint d) (Z.of_nat acc) = Z.of_nat (Nat.of_uint_acc d acc).
Proof.
  induction d; intros acc; cbn [NilEmpty.string_of_uint Nat.of_uint_acc];
    try reflexivity;
    rewrite Nat.tail_mul_spec, <- IHd;
    match goal with
    | |- digits (String ?c _) _ = _ =>
        change (digit c) with (digit c);
        let v := eval vm_compute in (digit c) in
        match v with
        | Some ?k =>
            change (digits (String c (NilEmpty.string_of_uint d)) (Z.of_nat acc))
              with (digits (NilEmpty.string_of_uint d) (10 * Z.of_nat acc + k))
        end
    end;
    f_equal; lia.
Qed.

Lemma string_of_uint_digit d :
  d <> Decimal.Nil -> startsWithDigit (NilEmpty.string_of_uint d) = true.
Proof. destruct d; intros H; [now elim H | reflexivity..]. Qed.

Lemma to_uint_nonnil n : Nat.to_uint n <> Decimal.Nil.
Proof.
  rewrite <- (DecimalNat.Unsigned.of_to n) at 1.
  rewrite DecimalNat.Unsigned.to_of. apply DecimalFacts.unorm_nonnil.
Qed.

Lemma decimal_eq n : decimal n = NilEmpty.string_of_uint (Nat.to_uint n).
Proof.
  unfold decimal, NilZero.string_of_uint.
  pose proof (to_uint_nonnil n) as H. destruct (Nat.to_uint n); [now elim H | reflexivity..].
Qed.

Lemma parseInt_digit c r :
  digit c <> None ->
  parseInt (Some (String c r)) = toNumber false (digits (String c r) 0).
Proof.
  intros H. unfold parseInt, trimStart.
  destruct c as [[] [] [] [] [] [] [] []]; try (now elim H);
    destruct r as [|d [|e r2]]; reflexivity.
Qed.

Lemma toDouble_small m : (0 <= m < 2 ^ 53)%Z -> toDouble m = Some m.
Proof.
  intros [H0 H]. unfold toDouble.
  destruct (Z.leb_spec (Z.log2 m - 52) 0) as [_|Hgt]; [reflexivity|].
  exfalso. assert (Z.log2 m < 53)%Z; [|lia].
  destruct (Z.eq_dec m 0) as [->|Hm]; [cbn; lia|].
  apply Z.log2_lt_pow2; lia.
Qed.

Lemma parseInt_decimal n :
  (Z.of_nat n < 2 ^ 53)%Z -> parseInt (Some (decimal n)) = Int (Z.of_nat n).
Proof.
  intros Hn. rewrite decimal_eq.
  pose proof (string_of_uint_digit _ (to_uint_nonnil n)) as Hd.
  pose proof (digits_of_uint (Nat.to_uint n) 0) as Hv.
  change (Nat.of_uint_acc (Nat.to_uint n) 0) with (Nat.of_uint (Nat.to_uint n)) in Hv.
  rewrite DecimalNat.Unsigned.of_to in Hv. cbn [Z.of_nat] in Hv.
  destruct (NilEmpty.string_of_uint (Nat.to_uint n)) as [|c r]; [discriminate Hd|].
  rewrite parseInt_digit.
  - rewrite Hv. unfold toNumber.
    destruct (Z.eqb_spec (Z.of_nat n) 0) as [->|Hz]; [reflexivity|].
    rewrite toDouble_small by lia. reflexivity.
  - cbn in Hd. now destruct (digit c).
Qed.

Lemma usable_decimal n : usable (decimal n) = true.
Proof.
  rewrite decimal_eq.
  pose proof (string_of_uint_digit _ (to_uint_nonnil n)) as Hd.
  destruct (NilEmpty.string_of_uint (Nat.to_uint n)) as [|c r]; [discriminate Hd|].
  cbn in Hd. unfold usable.
  destruct c as [[] [] [] [] [] [] [] []]; try discriminate Hd; reflexivity.
Qed.


Lemma runLoop_skip args i o :
  i < length args -> runSwitch args i o = Normal (i, o) ->
  runLoop args i o = runLoop args (S i) o.
Proof.
  intros Hlt E. rewrite runLoop_step, E.
  destruct (lt_dec i (length args)); [reflexivity | contradiction].
Qed.

Lemma index_lt args i (f : string) : index args i = Some f -> i < length args.
Proof. intros H. apply nth_error_Some. unfold index in H. congruence. Qed.

(** C9.  [parseRunArgs] returns normally for every argument list.  A
    token that is no case label of the switch changes nothing and the
    loop moves on to the next token.  A value-taking flag whose next
    token starts with '-' changes nothing either and does not consume
    that token: the loop continues at the very next index, so the token
    is examined as [args[i]] in its turn; at the head of the argument
    list this reads [parseRunArgs (f :: t :: rest) = parseRunArgs (t :: rest)]. *)
Theorem parseRunArgs_total_and_lenient :
  (forall args, exists options, parseRunArgs args = Normal options)
  /\ (forall args i options t,
        index args i = Some t -> ~ In t runFlags ->
        runSwitch args i options = Normal (i, options)
        /\ runLoop args i options = runLoop args (S i) options)
  /\ (forall args i options f t,
        index args i = Some f -> In f valueFlags ->
        index args (i + 1) = Some t -> String.prefix "-" t = true ->
        runSwitch args i options = Normal (i, options)
        /\ runLoop args i options = runLoop args (S i) options)
  /\ (forall f t rest,
        In f valueFlags -> String.prefix "-" t = true ->
        parseRunArgs (f :: t :: rest) = parseRunArgs (t :: rest)).
Proof.
  repeat split.
  - intros args. apply (runLoop_normal args (length args)). lia.
  - eapply runSwitch_unrecognised; eassumption.
  - apply runLoop_skip; [eapply index_lt; eassumption|].
    eapply runSwitch_unrecognised; eassumption.
  - eapply runSwitch_dash; eassumption.
  - apply runLoop_skip; [eapply index_lt; eassumption|].
    eapply runSwitch_dash; eassumption.
  - intros f t rest Hf Hp. unfold parseRunArgs.
    rewrite (runLoop_skip (f :: t :: rest) 0).
    + apply (runLoop_cons f (t :: rest) (length (t :: rest))). lia.
    + cbn; lia.
    + apply (runSwitch_dash _ 0 _ f t); auto.
Qed.

Lemma parseRunArgs_total_and_lenient_witness :
  (exists options, parseRunArgs ["--epic"; "--force"; "stray"] = Normal options)
  /\ runLoop ["--epic"; "--force"; "stray"] 2 noOptions
     = runLoop ["--epic"; "--force"; "stray"] 3 noOptions
  /\ runLoop ["--epic"; "--force"; "stray"] 0 noOptions
     = runLoop ["--epic"; "--force"; "stray"] 1 noOptions
  /\ parseRunArgs ["--epic"; "--force"; "stray"] = parseRunArgs ["--force"; "stray"].
Proof.
  destruct parseRunArgs_total_and_lenient as (Htotal & Hskip & Hdash & Hhead).
  split; [apply Htotal|].
  split.
  { apply (Hskip _ 2 noOptions "stray"); [reflexivity|].
    cbn. intuition discriminate. }
  split.
  { apply (Hdash _ 0 noOptions "--epic" "--force"); cbn; auto. }
  apply Hhead; cbn; auto.
Defined.

(** ** Facts about [parseCreatePrdArgs] *)

Lemma prdLoop_body args i (l : i < length args) r c (e : CreatePrd.prdBody args i r = c) :
  CreatePrd.prdLoop_unfold_clause_1_clause_2 args i l r (exist _ c e) =
  match c with
  | Normal (j, r') => CreatePrd.prdLoop args (S j) r'
  | Throw e => Throw e
  | ProcessExit c => ProcessExit c
  end.
Proof. destruct c as [[j r']| |]; simp prdLoop; reflexivity. Qed.

Lemma prdLoop_step args i r :
  CreatePrd.prdLoop args i r =
  if lt_dec i (length args) then
    match CreatePrd.prdBody args i r with
    | Normal (j, r') => CreatePrd.prdLoop args (S j) r'
    | Throw e => Throw e
    | ProcessExit c => ProcessExit c
    end
  else Normal r.
Proof.
  simp prdLoop. destruct (lt_dec i (length args)); [|reflexivity].
  rewrite CreatePrd.prdLoop_clause_1_equation_1. apply prdLoop_body.
Qed.

Example parseCreatePrdArgs_ex1 :
  CreatePrd.parseCreatePrdArgs ["--cwd"; "--force"; "-n"; "many"; "-t"; "500"; "-o"]
  = Normal (CreatePrd.set_output None
             (CreatePrd.set_timeout (Some (Int 500))
               (CreatePrd.set_cwd (Some "--force") CreatePrd.noArgs))).
Proof. reflexivity. Qed.

Example parseCreatePrdArgs_ex2 :
  CreatePrd.parseCreatePrdArgs ["--stories"; "--help"] = Normal CreatePrd.noArgs
  /\ CreatePrd.parseCreatePrdArgs ["--force"; "--help"; "--cwd"; "x"] = ProcessExit 0.
Proof. split; reflexivity. Qed.

Lemma prdBody_string args i r f set :
  index args i = Some f -> In (f, set) CreatePrd.stringFlags ->
  CreatePrd.prdBody args i r = Normal (i + 1, set (index args (i + 1)) r).
Proof.
  intros Hi Hf. unfold CreatePrd.prdBody. rewrite Hi. cbn in Hf.
  repeat destruct Hf as [[= <- <-]|Hf]; try contradiction; reflexivity.
Qed.

Lemma prdBody_number args i r f set :
  index args i = Some f -> In (f, set) CreatePrd.numberFlags ->
  CreatePrd.prdBody args i r
  = Normal (i + 1, CreatePrd.numberField set (index args (i + 1)) r).
Proof.
  intros Hi Hf. unfold CreatePrd.prdBody. rewrite Hi. cbn in Hf.
  repeat destruct Hf as [[= <- <-]|Hf]; try contradiction; reflexivity.
Qed.


(** The loop sees the arguments only through [args[i]] and [args[i+1]]:
    dropping an argument in front shifts the indices by one. *)
Lemma prdBody_cons x args i r :
  CreatePrd.prdBody (x :: args) (S i) r = shiftPrd (CreatePrd.prdBody args i r).
Proof.
  unfold CreatePrd.prdBody, index; cbn [nth_error Nat.add].
  destruct (nth_error args i) as [arg|]; [|reflexivity].
  repeat match goal with
  | |- (if ?c then _ else _) = shiftPrd (if ?c then _ else _) => destruct c
  end; reflexivity.
Qed.

Lemma prdLoop_cons x args : forall n i r,
  length args - i <= n ->
  CreatePrd.prdLoop (x :: args) (S i) r = CreatePrd.prdLoop args i r.
Proof.
  induction n as [|n IH]; intros i r Hn;
    rewrite (prdLoop_step (x :: args)), (prdLoop_step args);
    cbn [length];
    destruct (lt_dec (S i) (S (length args))), (lt_dec i (length args));
    try lia; try reflexivity.
  rewrite prdBody_cons.
  destruct (CreatePrd.prdBody args i r) as [[j r']| |] eqn:E; cbn; try reflexivity.
  apply IH. apply CreatePrd.prdBody_index in E. lia.
Qed.

(** The loop entered at index 2 of [f :: t :: rest] is the loop over
    [rest]. *)
Lemma prdLoop_tail f t rest r :
  CreatePrd.prdLoop (f :: t :: rest) 2 r = CreatePrd.prdLoop rest 0 r.
Proof.
  rewrite (prdLoop_cons f (t :: rest) (length (t :: rest)) 1) by (cbn; lia).
  apply (prdLoop_cons t rest (length rest) 0). lia.
Qed.

Lemma numberField_stored set token r :
  CreatePrd.numberField set (Some token) r = stored set token r.
Proof.
  unfold CreatePrd.numberField, stored. cbn [nullish].
  now destruct (isNaN (parseInt (Some token))).
Qed.

(** C10.  In [parseCreatePrdArgs] every value-taking flag consumes the
    token after it, whatever that token is.  After [--cwd], [--output] or
    [--agent] (and their short forms) the body of the loop assigns
    [args[i+1]] to the field and leaves the loop variable on it, so the
    loop continues at [i+2]; after [--stories] or [--timeout] it does
    the same with the number [parseInt] reads, and assigns nothing when
    that is NaN.  Hence, at the head of the argument list, the result of
    [f :: t :: rest] is that of the loop over [rest] started from the
    record with the field set to [t], also when [t] is itself a flag
    ([--help] included: the process does not exit); and after a numeric
    flag a token that does not parse is skipped with nothing stored: the
    result is that of [rest] alone.  A decimal numeral below 2^53 after
    a numeric flag is stored as the number it denotes. *)
Theorem parseCreatePrdArgs_always_consumes :
  (forall args i result f set,
     index args i = Some f -> In (f, set) CreatePrd.stringFlags ->
     CreatePrd.prdBody args i result
     = Normal (i + 1, set (index args (i + 1)) result)
     /\ CreatePrd.prdLoop args i result
        = CreatePrd.prdLoop args (i + 2) (set (index args (i + 1)) result))
  /\ (forall args i result f set t,
        index args i = Some f -> In (f, set) CreatePrd.numberFlags ->
        index args (i + 1) = Some t ->
        CreatePrd.prdBody args i result = Normal (i + 1, stored set t result)
        /\ CreatePrd.prdLoop args i result
           = CreatePrd.prdLoop args (i + 2) (stored set t result))
  /\ (forall f set t rest,
        In (f, set) CreatePrd.stringFlags ->
        CreatePrd.parseCreatePrdArgs (f :: t :: rest)
        = CreatePrd.prdLoop rest 0 (set (Some t) CreatePrd.noArgs)
        /\ CreatePrd.parseCreatePrdArgs [f; t]
           = Normal (set (Some t) CreatePrd.noArgs))
  /\ (forall f set t rest,
        In (f, set) CreatePrd.numberFlags ->
        CreatePrd.parseCreatePrdArgs (f :: t :: rest)
        = CreatePrd.prdLoop rest 0 (stored set t CreatePrd.noArgs)
        /\ (isNaN (parseInt (Some t)) = true ->
            CreatePrd.parseCreatePrdArgs (f :: t :: rest)
            = CreatePrd.parseCreatePrdArgs rest)
        /\ (isNaN (parseInt (Some t)) = false ->
            CreatePrd.parseCreatePrdArgs [f; t]
            = Normal (set (Some (parseInt (Some t))) CreatePrd.noArgs)))
  /\ (forall f set n,
        In (f, set) CreatePrd.numberFlags -> (Z.of_nat n < 2 ^ 53)%Z ->
        CreatePrd.parseCreatePrdArgs [f; decimal n]
        = Normal (set (Some (Int (Z.of_nat n))) CreatePrd.noArgs)).
Proof.
  assert (Hs : forall args i result f set,
            index args i = Some f -> In (f, set) CreatePrd.stringFlags ->
            CreatePrd.prdLoop args i result
            = CreatePrd.prdLoop args (i + 2) (set (index args (i + 1)) result)).
  { intros args i r f set Hi Hf. rewrite prdLoop_step.
    destruct (lt_dec i (length args)) as [_|Hn];
      [|exfalso; apply Hn; eapply index_lt; eassumption].
    rewrite (prdBody_string args i r f set Hi Hf).
    replace (S (i + 1)) with (i + 2) by lia. reflexivity. }
  assert (Hn : forall args i result f set t,
            index args i = Some f -> In (f, set) CreatePrd.numberFlags ->
            index args (i + 1) = Some t ->
            CreatePrd.prdLoop args i result
            = CreatePrd.prdLoop args (i + 2) (stored set t result)).
  { intros args i r f set t Hi Hf Ht. rewrite prdLoop_step.
    destruct (lt_dec i (length args)) as [_|Hn];
      [|exfalso; apply Hn; eapply index_lt; eassumption].
    rewrite (prdBody_number args i r f set Hi Hf), Ht, numberField_stored.
    replace (S (i + 1)) with (i + 2) by lia. reflexivity. }
  split; [|split; [|split; [|split]]].
  - intros args i r f set Hi Hf.
    split; [now apply (prdBody_string _ _ _ f) | now apply (Hs _ _ _ f)].
  - intros args i r f set t Hi Hf Ht. split; [|now apply (Hn _ _ _ f)].
    rewrite (prdBody_number args i r f set Hi Hf), Ht. now rewrite numberField_stored.
  - intros f set t rest Hf.
    assert (E : CreatePrd.parseCreatePrdArgs (f :: t :: rest)
                = CreatePrd.prdLoop rest 0 (set (Some t) CreatePrd.noArgs)).
    { unfold CreatePrd.parseCreatePrdArgs.
      rewrite (Hs (f :: t :: rest) 0 CreatePrd.noArgs f set eq_refl Hf).
      apply prdLoop_tail. }
    split; [exact E|].
    unfold CreatePrd.parseCreatePrdArgs.
    rewrite (Hs [f; t] 0 CreatePrd.noArgs f set eq_refl Hf).
    rewrite prdLoop_step. reflexivity.
  - intros f set t rest Hf.
    assert (E : forall rest, CreatePrd.parseCreatePrdArgs (f :: t :: rest)
                = CreatePrd.prdLoop rest 0 (stored set t CreatePrd.noArgs)).
    { intros rest'. unfold CreatePrd.parseCreatePrdArgs.
      rewrite (Hn (f :: t :: rest') 0 CreatePrd.noArgs f set t eq_refl Hf eq_refl).
      apply prdLoop_tail. }
    split; [apply E|]. split.
    + intros Hnan. rewrite E. unfold stored. now rewrite Hnan.
    + intros Hnum. rewrite E. unfold stored. rewrite Hnum.
      rewrite prdLoop_step. reflexivity.
  - intros f set n Hf Hlt. unfold CreatePrd.parseCreatePrdArgs.
    rewrite (Hn [f; decimal n] 0 CreatePrd.noArgs f set (decimal n) eq_refl Hf eq_refl).
    unfold stored. rewrite (parseInt_decimal n Hlt). cbn [isNaN].
    etransitivity; [apply prdLoop_tail|]. rewrite prdLoop_step. reflexivity.
Qed.

Lemma parseCreatePrdArgs_always_consumes_witness :
  CreatePrd.prdBody ["-f"; "--cwd"; "--help"; "-n"; "many"] 1 CreatePrd.noArgs
  = Normal (2, CreatePrd.set_cwd (Some "--help") CreatePrd.noArgs)
  /\ CreatePrd.prdBody ["-f"; "--cwd"; "--help"; "-n"; "many"] 3 CreatePrd.noArgs
     = Normal (4, CreatePrd.noArgs)
  /\ CreatePrd.parseCreatePrdArgs ["--cwd"; "--help"]
     = Normal (CreatePrd.set_cwd (Some "--help") CreatePrd.noArgs)
  /\ CreatePrd.parseCreatePrdArgs ["--stories"; "--force"; "-o"; "-f"]
     = CreatePrd.parseCreatePrdArgs ["-o"; "-f"]
  /\ CreatePrd.parseCreatePrdArgs ["-t"; nbsp ++ "5000ms"]
     = Normal (CreatePrd.set_timeout (Some (Int 5000)) CreatePrd.noArgs)
  /\ CreatePrd.parseCreatePrdArgs ["-n"; decimal 12]
     = Normal (CreatePrd.set_stories (Some (Int 12)) CreatePrd.noArgs).
Proof.
  destruct parseCreatePrdArgs_always_consumes as (Hs & Hn & Hhs & Hhn & Hd).
  split.
  { exact (proj1 (Hs ["-f"; "--cwd"; "--help"; "-n"; "many"] 1 CreatePrd.noArgs
                    "--cwd" CreatePrd.set_cwd eq_refl (or_introl eq_refl))). }
  split.
  { exact (proj1 (Hn ["-f"; "--cwd"; "--help"; "-n"; "many"] 3 CreatePrd.noArgs
                    "-n" CreatePrd.set_stories "many" eq_refl
                    (or_intror (or_introl eq_refl)) eq_refl)). }
  split.
  { exact (proj2 (Hhs "--cwd" CreatePrd.set_cwd "--help" [] (or_introl eq_refl))). }
  split.
  { exact (proj1 (proj2 (Hhn "--stories" CreatePrd.set_stories "--force" ["-o"; "-f"]
                           (or_introl eq_refl))) eq_refl). }
  split.
  { exact (proj2 (proj2 (Hhn "-t" CreatePrd.set_timeout (nbsp ++ "5000ms") []
                           (or_intror (or_intror (or_intror (or_introl eq_refl))))))
             eq_refl). }
  exact (Hd "-n" CreatePrd.set_stories 12%nat (or_intror (or_introl eq_refl)) eq_refl).
Defined.

(** ** Reasoning about computations over the world *)

Local Open Scope list_scope.

Lemma performAll_app es1 es2 w :
  performAll (es1 ++ es2) w = performAll es2 (performAll es1 w).
Proof. unfold performAll. apply fold_left_app. Qed.

Lemma performAll_ext es0 es w :
  performAll es (performAll es0 w) = performAll (es0 ++ es) w.
Proof. symmetry. apply performAll_app. Qed.



Lemma lockFile_performAll es : forall w,
  Forall (fun e => ~ touchesLock e) es -> lockFile (performAll es w) = lockFile w.
Proof.
  induction es as [|e es IH]; intros w H; [reflexivity|].
  inversion H as [|? ? He Hes]; subst.
  change (lockFile (performAll es (perform e w)) = lockFile w).
  rewrite (IH _ Hes). destruct e; cbn in *; try reflexivity;
    exfalso; now apply He.
Qed.

Lemma stored_performAll es : forall w,
  Forall (fun e => e <> DeleteSession) es ->
  isStored (sessionFile w) -> isStored (sessionFile (performAll es w)).
Proof.
  induction es as [|e es IH]; intros w H Hs; [assumption|].
  inversion H as [|? ? He Hes]; subst.
  change (isStored (sessionFile (performAll es (perform e w)))).
  apply IH; [assumption|].
  destruct e; cbn; try assumption; [|congruence].
  destruct written; [exact I | assumption].
Qed.

Lemma keeps_ret {A} eff out (val : A -> Prop) (a : A) : val a -> keeps eff out val (ret a).
Proof.
  intros Ha w r w' [= <- <-]. exists []. repeat split; [constructor | assumption].
Qed.

Lemma keeps_emit eff out (val : unit -> Prop) e :
  eff e -> val tt -> keeps eff out val (emit e).
Proof.
  intros He Hv w r w' [= <- <-]. exists [e]. repeat split; auto.
Qed.

Lemma keeps_halt {A} eff (out : Outcome -> Prop) (val : A -> Prop) o :
  out o -> keeps eff out val (halt o).
Proof.
  intros Ho w r w' [= <- <-]. exists []. repeat split; [constructor | assumption].
Qed.

Lemma keeps_bind {A B} eff out (val1 : A -> Prop) (val : B -> Prop) (m : M A) (k : A -> M B) :
  keeps eff out val1 m -> (forall a, val1 a -> keeps eff out val (k a)) ->
  keeps eff out val (bindM m k).
Proof.
  intros Hm Hk w r w' H. unfold bindM in H.
  destruct (m w) as [[a|o] w1] eqn:E.
  - destruct (Hm _ _ _ E) as (es1 & -> & F1 & Ha).
    destruct (Hk a Ha _ _ _ H) as (es2 & -> & F2 & Hr).
    exists (es1 ++ es2). rewrite performAll_app.
    repeat split; [apply Forall_app; auto | exact Hr].
  - injection H as <- <-. destruct (Hm _ _ _ E) as (es1 & -> & F1 & Ho).
    exists es1. repeat split; auto.
Qed.

Lemma keeps_seq {A B} eff out (val : B -> Prop) (m : M A) (k : A -> M B) :
  keeps eff out any m -> (forall a, keeps eff out val (k a)) ->
  keeps eff out val (bindM m k).
Proof. intros Hm Hk. apply (keeps_bind eff out any); auto. Qed.

Lemma keeps_getWorld eff out : keeps eff out any getWorld.
Proof.
  intros w r w' [= <- <-]. exists []. repeat split; constructor.
Qed.

Lemma keeps_try_catch {A} eff out (val : A -> Prop) (m : M A) h :
  keeps eff (fun o => out o \/ exists e, o = Rejected e) val m ->
  (forall e, keeps eff out val (h e)) -> keeps eff out val (try_catch m h).
Proof.
  intros Hm Hh w r w' H. unfold try_catch in H.
  destruct (m w) as [[a|o] w1] eqn:E.
  - injection H as <- <-. destruct (Hm _ _ _ E) as (es1 & -> & F1 & Ha).
    exists es1. repeat split; auto.
  - destruct (Hm _ _ _ E) as (es1 & -> & F1 & Ho).
    destruct o as [|e|c|e|];
      try (injection H as <- <-; exists es1; repeat split; auto;
           destruct Ho as [?|[? ?]]; [assumption | discriminate]).
    destruct (Hh e _ _ _ H) as (es2 & -> & F2 & Hr).
    exists (es1 ++ es2). rewrite performAll_app.
    repeat split; [apply Forall_app; auto | exact Hr].
Qed.

Lemma keeps_weaken {A} (eff eff' : Effect -> Prop) (out out' : Outcome -> Prop)
    (val val' : A -> Prop) (m : M A) :
  keeps eff out val m -> (forall e, eff e -> eff' e) -> (forall o, out o -> out' o) ->
  (forall a, val a -> val' a) ->
  keeps eff' out' val' m.
Proof.
  intros Hm He Ho Hv w r w' H. destruct (Hm _ _ _ H) as (es & -> & F & Hr).
  exists es. repeat split.
  - eapply Forall_impl; [|exact F]. exact He.
  - destruct r; auto.
Qed.

Lemma keeps_forEach {A} eff out (f : A -> M unit) l :
  (forall a, keeps eff out any (f a)) -> keeps eff out any (forEach f l).
Proof.
  intros Hf. induction l as [|x l IH]; cbn [forEach].
  - now apply keeps_ret.
  - apply keeps_seq; [apply Hf | intros _; exact IH].
Qed.

Lemma keeps_lift {A} eff (out : Outcome -> Prop) (c : Js.completion A) :
  (forall e, c = Throw e -> out (Rejected e)) ->
  (forall n, c = ProcessExit n -> out (Exited n)) ->
  keeps eff out any (lift c).
Proof.
  intros Ht He. destruct c; cbn [lift].
  - now apply keeps_ret.
  - apply keeps_halt. now apply Ht.
  - apply keeps_halt. now apply He.
Qed.

(** Decomposes a goal [keeps eff out val m] along the structure of [m];
    what is left are conditions on single effects, outcomes and values. *)
Ltac keeps_step :=
  lazymatch goal with
  | |- keeps _ _ _ (bindM _ _) => apply keeps_seq; [|intros ?]
  | |- keeps _ _ _ (ret _) => apply keeps_ret
  | |- keeps _ _ _ getWorld => apply keeps_getWorld
  | |- keeps _ _ _ (emit _) => apply keeps_emit
  | |- keeps _ _ _ (console _) => apply keeps_emit
  | |- keeps _ _ _ (consoleError _) => apply keeps_emit
  | |- keeps _ _ _ (log _) => apply keeps_emit
  | |- keeps _ _ _ (callSave _ _) => apply keeps_emit
  | |- keeps _ _ _ deletePersistedSession => apply keeps_emit
  | |- keeps _ _ _ releaseLockNew => apply keeps_emit
  | |- keeps _ _ _ (halt _) => apply keeps_halt
  | |- keeps _ _ _ (exit _) => apply keeps_halt
  | |- keeps _ _ _ (throw _) => apply keeps_halt
  | |- keeps _ _ _ forceQuit => apply keeps_halt
  | |- keeps _ _ _ (forEach _ _) => apply keeps_forEach; intros ?
  | |- keeps _ _ _ (savePersistedSession _ _) => unfold savePersistedSession
  | |- keeps _ _ _ (saveAndForget _ _) => unfold saveAndForget
  | |- keeps _ _ _ (detached _) => unfold detached
  | |- keeps _ _ _ tuiCleanup => unfold tuiCleanup
  | |- keeps _ _ _ (try_catch _ _) => apply keeps_try_catch; [|intros ?]
  | |- keeps _ _ _ (if ?c then _ else _) => destruct c
  | |- keeps _ _ _ (match ?x with _ => _ end) => destruct x
  end.

Ltac keeps_auto := repeat keeps_step; unfold any; cbn; eauto.

(** ** The listeners as functions of the event *)

Lemma tuiListener_eq now event written s w :
  tuiListener now event written s w
  = (Next (nextState now event s), performAll (savedBy now event written s) w).
Proof. destruct event; try reflexivity; destruct written; reflexivity. Qed.

Lemma headlessListener_eq config now event written s w :
  headlessListener config now event written s w
  = (Next (nextState now event s),
     performAll (map Log (headlessLog config event) ++ savedBy now event written s) w).
Proof.
  destruct event; try reflexivity; try (destruct written; reflexivity).
  - cbn. destruct (Engine.taskCompleted result), written; reflexivity.
  - destruct stream; reflexivity.
Qed.

Lemma headlessStep_Emit config now event written st w :
  headlessStep config (Emit now event written) st w
  = (Next (mkHeadless (nextState now event (currentState st)) (lastSigintTime st)
             (shutdowns st)),
     performAll (map Log (headlessLog config event)
                 ++ savedBy now event written (currentState st)) w).
Proof.
  cbn [headlessStep]. unfold bindM. now rewrite headlessListener_eq.
Qed.

Lemma tuiStep_Emit now event written st w :
  tuiStep (TuiEmit now event written) st w
  = (Next (Waiting (mkTui (nextState now event (tuiState st)) (engineReturned st))),
     performAll (savedBy now event written (tuiState st)) w).
Proof.
  cbn [tuiStep]. unfold bindM. now rewrite tuiListener_eq.
Qed.

Lemma headlessWait_Emit config now event written rest st w :
  headlessWait config (Emit now event written :: rest) st w
  = headlessWait config rest
      (mkHeadless (nextState now event (currentState st)) (lastSigintTime st)
         (shutdowns st))
      (performAll (map Log (headlessLog config event)
                   ++ savedBy now event written (currentState st)) w).
Proof.
  cbn [headlessWait]. unfold bindM at 1. now rewrite headlessStep_Emit.
Qed.

Lemma tuiWait_Emit now event written rest st w :
  tuiWait (TuiEmit now event written :: rest) st w
  = tuiWait rest (mkTui (nextState now event (tuiState st)) (engineReturned st))
      (performAll (savedBy now event written (tuiState st)) w).
Proof.
  cbn [tuiWait]. unfold bindM at 1. now rewrite tuiStep_Emit.
Qed.

(** The signal handlers of the headless mode. *)
Lemma handleSigterm_eq written st w :
  handleSigterm written st w
  = (Next (mkHeadless (Session.with_status Session.interrupted (currentState st))
             (lastSigintTime st) (shutdowns st ++ [AwaitSave written])),
     performAll
       [Log (Logger.info "system" "Received SIGTERM, stopping gracefully...");
        SaveSession (Session.with_status Session.interrupted (currentState st)) written]
       w).
Proof. reflexivity. Qed.

Lemma handleSigint_force now written st w :
  (now - lastSigintTime st < DOUBLE_PRESS_WINDOW_MS)%Z ->
  handleSigint now written st w
  = (Halt (Exited 1), performAll [Log (Logger.warn "system" "Force quit!")] w).
Proof.
  intros H. unfold handleSigint.
  apply Z.ltb_lt in H. rewrite H. reflexivity.
Qed.

Lemma handleSigint_graceful now written st w :
  (DOUBLE_PRESS_WINDOW_MS <= now - lastSigintTime st)%Z ->
  handleSigint now written st w
  = (Next (mkHeadless (Session.with_status Session.interrupted (currentState st))
             now (shutdowns st ++ [AwaitSave written])),
     performAll
       [Log (Logger.info "system" "Interrupted, stopping gracefully...");
        Log (Logger.info "system" "(Press Ctrl+C again within 1s to force quit)");
        SaveSession (Session.with_status Session.interrupted (currentState st)) written]
       w).
Proof.
  intros H. unfold handleSigint.
  apply Z.ltb_ge in H. rewrite H. reflexivity.
Qed.

(** ** The two modes *)

Lemma headlessSteps_app config pre : forall rest st w,
  headlessSteps config (pre ++ rest) st w
  = (let* st' := headlessSteps config pre st in headlessSteps config rest st') w.
Proof.
  induction pre as [|i pre IH]; intros rest st w; [reflexivity|].
  cbn [app headlessSteps]. unfold bindM.
  destruct (headlessStep config i st w) as [[st'|o] w1]; [|reflexivity].
  rewrite IH. reflexivity.
Qed.

Lemma headlessWait_app config pre : forall rest st w,
  forallb (fun i => negb (isSettled i)) pre = true ->
  headlessWait config (pre ++ rest) st w
  = (let* st' := headlessSteps config pre st in headlessWait config rest st') w.
Proof.
  induction pre as [|i pre IH]; intros rest st w H; [reflexivity|].
  cbn in H. apply andb_prop in H as [Hi Hpre].
  destruct i; try discriminate Hi;
    cbn [app headlessWait headlessSteps]; unfold bindM;
    match goal with
    | |- context [headlessStep ?c ?i ?s ?w] =>
        destruct (headlessStep c i s w) as [[st'|o] w1]; [|reflexivity]
    end;
    now rewrite IH.
Qed.

(** Only [handleSigint] writes [lastSigintTime]. *)
Lemma headlessStep_lastSigintTime config input st w st' w' :
  isSigint input = false ->
  headlessStep config input st w = (Next st', w') ->
  lastSigintTime st' = lastSigintTime st.
Proof.
  intros Hi H. destruct input; try discriminate Hi.
  - rewrite headlessStep_Emit in H. now injection H as <- _.
  - cbn [headlessStep] in H. rewrite handleSigterm_eq in H. now injection H as <- _.
  - cbn [headlessStep] in H. unfold continueShutdown in H.
    destruct (nth_error (shutdowns st) k) as [[[]|]|]; try discriminate;
      now injection H as <- _.
  - now injection H as <- _.
Qed.

Lemma headlessSteps_lastSigintTime config inputs : forall st w st' w',
  forallb (fun i => negb (isSigint i)) inputs = true ->
  headlessSteps config inputs st w = (Next st', w') ->
  lastSigintTime st' = lastSigintTime st.
Proof.
  induction inputs as [|i inputs IH]; intros st w st' w' Hall H.
  - now injection H as <- _.
  - cbn in Hall. apply andb_prop in Hall as [Hi Hrest].
    cbn [headlessSteps] in H. unfold bindM in H.
    destruct (headlessStep config i st w) as [[st1|o] w1] eqn:E; [|discriminate].
    rewrite (IH _ _ _ _ Hrest H).
    eapply headlessStep_lastSigintTime; [|exact E].
    now destruct (isSigint i).
Qed.

(** What one delivery of the headless mode can do. *)
Lemma committed_app l p : Exists committed (l ++ [p]) -> Exists committed l \/ committed p.
Proof.
  intros H. apply Exists_app in H as [H|H]; [now left|].
  inversion H as [? ? Hp|? ? Hn]; subst; [now right | inversion Hn].
Qed.

Lemma committed_replace k : forall l,
  nth_error l k = Some (AwaitSave true) ->
  Exists committed l.
Proof.
  induction k as [|k IH]; intros [|p l] H; try discriminate.
  - injection H as ->. left. discriminate.
  - right. now apply IH.
Qed.

Lemma committed_nth k : forall l,
  nth_error l k = Some AwaitDispose -> Exists committed l.
Proof.
  induction k as [|k IH]; intros [|p l] H; try discriminate.
  - injection H as ->. left. discriminate.
  - right. now apply IH.
Qed.

Lemma interruptedSaved_app es es' : interruptedSaved es -> interruptedSaved (es ++ es').
Proof.
  intros (x & Hin & Hs). exists x. split; [|exact Hs]. apply in_or_app. now left.
Qed.

Lemma headlessStep_inv config input st w0 es0 r w' :
  headlessStep config input st (performAll es0 w0) = (r, w') ->
  shutdownsSaved st es0 ->
  exists es, w' = performAll (es0 ++ es) w0 /\ Forall notDelete es /\
    match r with
    | Next st' => shutdownsSaved st' (es0 ++ es)
    | Halt (Exited c) => c = 1%Z \/ (c = 0%Z /\ interruptedSaved (es0 ++ es))
    | Halt (Unhandled _) => True
    | Halt _ => False
    end.
Proof.
  intros H Inv. destruct input.
  - rewrite headlessStep_Emit in H. apply pair_equal_spec in H as [<- <-].
    eexists. split; [apply performAll_ext|]. split.
    + apply Forall_app. split.
      * apply Forall_forall. intros e He. apply in_map_iff in He as (c & <- & _).
        discriminate.
      * unfold savedBy. destruct (persisting event); repeat constructor. discriminate.
    + intros Hc. apply interruptedSaved_app. now apply Inv.
  - cbn [headlessStep] in H.
    destruct (Z.ltb_spec (now - lastSigintTime st) DOUBLE_PRESS_WINDOW_MS) as [Hlt|Hge].
    + rewrite (handleSigint_force _ _ _ _ Hlt) in H. apply pair_equal_spec in H as [<- <-].
      eexists. split; [apply performAll_ext|]. split.
      * repeat constructor; discriminate.
      * now left.
    + rewrite (handleSigint_graceful _ _ _ _ Hge) in H. apply pair_equal_spec in H as [<- <-].
      eexists. split; [apply performAll_ext|]. split.
      * repeat constructor; discriminate.
      * intros Hc. cbn [shutdowns] in Hc. apply committed_app in Hc as [Hc|Hc].
        -- apply interruptedSaved_app. now apply Inv.
        -- destruct written; [|now elim Hc].
           eexists. split; [apply in_or_app; right; cbn; eauto | reflexivity].
  - cbn [headlessStep] in H. rewrite handleSigterm_eq in H. apply pair_equal_spec in H as [<- <-].
    eexists. split; [apply performAll_ext|]. split.
    + repeat constructor; discriminate.
    + intros Hc. cbn [shutdowns] in Hc. apply committed_app in Hc as [Hc|Hc].
      * apply interruptedSaved_app. now apply Inv.
      * destruct written; [|now elim Hc].
        eexists. split; [apply in_or_app; right; cbn; eauto | reflexivity].
  - cbn [headlessStep] in H. unfold continueShutdown in H.
    destruct (nth_error (shutdowns st) k) as [[[]|]|] eqn:E.
    + apply pair_equal_spec in H as [<- <-]. exists [EngineDispose].
      split; [apply (performAll_ext es0 [EngineDispose])|].
      split; [repeat constructor; discriminate|].
      intros _. apply interruptedSaved_app, Inv. eapply committed_replace; eauto.
    + apply pair_equal_spec in H as [<- <-]. exists []. rewrite app_nil_r. repeat split; constructor.
    + apply pair_equal_spec in H as [<- <-]. exists []. rewrite app_nil_r.
      split; [reflexivity|]. split; [constructor|].
      right. split; [reflexivity|]. apply Inv. eapply committed_nth; eauto.
    + apply pair_equal_spec in H as [<- <-]. exists []. rewrite app_nil_r.
      repeat split; [constructor | assumption].
  - apply pair_equal_spec in H as [<- <-]. exists []. rewrite app_nil_r.
    repeat split; [constructor | assumption].
Qed.

Lemma headlessWait_inv config inputs : forall st w0 es0 r w',
  headlessWait config inputs st (performAll es0 w0) = (r, w') ->
  shutdownsSaved st es0 ->
  exists es, w' = performAll (es0 ++ es) w0 /\ Forall notDelete es /\
    match r with
    | Halt (Exited c) => c = 1%Z \/ (c = 0%Z /\ interruptedSaved (es0 ++ es))
    | Halt Resolved => False
    | _ => True
    end.
Proof.
  induction inputs as [|input inputs IH]; intros st w0 es0 r w' H Inv.
  - apply pair_equal_spec in H as [<- <-]. exists []. rewrite app_nil_r. repeat split. constructor.
  - assert (Hstep :
              (let* st' := headlessStep config input st in
               headlessWait config inputs st') (performAll es0 w0) = (r, w') ->
              exists es, w' = performAll (es0 ++ es) w0 /\ Forall notDelete es /\
                match r with
                | Halt (Exited c) => c = 1%Z \/ (c = 0%Z /\ interruptedSaved (es0 ++ es))
                | Halt Resolved => False
                | _ => True
                end).
    { intros H1. unfold bindM in H1.
      destruct (headlessStep config input st (performAll es0 w0)) as [[st1|o] w1] eqn:E;
        destruct (headlessStep_inv _ _ _ _ _ _ _ E Inv) as (es1 & -> & F1 & P1).
      - destruct (IH _ _ _ _ _ H1 P1) as (es2 & -> & F2 & P2).
        exists (es1 ++ es2). rewrite app_assoc. split; [reflexivity|].
        split; [apply Forall_app; auto|].
        destruct r as [|[]]; auto.
      - apply pair_equal_spec in H1 as [<- <-]. exists es1. split; [reflexivity|]. split; [assumption|].
        destruct o; auto. }
    destruct input; try (apply Hstep; exact H).
    destruct error as [e|]; cbn [headlessWait] in H.
    + apply pair_equal_spec in H as [<- <-]. exists []. rewrite app_nil_r. repeat split. constructor.
    + apply pair_equal_spec in H as [<- <-]. exists [EngineDispose].
      split; [apply (performAll_ext es0 [EngineDispose])|].
      repeat split. repeat constructor. discriminate.
Qed.

Lemma keeps_prefix {A} eff out (val : A -> Prop) (m m' : M A) es :
  (forall w, m w = m' (performAll es w)) -> Forall eff es ->
  keeps eff out val m' -> keeps eff out val m.
Proof.
  intros Hm Hes Hk w r w' H. rewrite Hm in H.
  destruct (Hk _ _ _ H) as (es' & -> & F & Hr).
  exists (es ++ es'). rewrite performAll_app. repeat split; [|exact Hr].
  apply Forall_app. auto.
Qed.

Lemma savedBy_Forall (eff : Effect -> Prop) (P : Session.PersistedSessionState -> Prop)
    now event written s :
  (forall x b, P x -> eff (SaveSession x b)) -> P (nextState now event s) ->
  Forall eff (savedBy now event written s).
Proof.
  intros He Hp. unfold savedBy. destruct (persisting event); repeat constructor.
  now apply He.
Qed.

(** The TUI mode, for a property [P] of [currentState] that every
    listener step preserves. *)
Section TuiKeeps.

Variable eff : Effect -> Prop.
Variable out : Outcome -> Prop.
Variable P : Session.PersistedSessionState -> Prop.
Hypothesis eff_save : forall x b, P x -> eff (SaveSession x b).
Hypothesis eff_dispose : eff InterruptDispose.
Hypothesis eff_destroy : eff RendererDestroy.
Hypothesis out_force : out (Exited 1).
Hypothesis out_unhandled : forall e, out (Unhandled e).
Hypothesis out_rejected : forall e, out (Rejected e).
Hypothesis out_pending : out Pending.
Hypothesis P_next : forall now event s, P s -> P (nextState now event s).

Lemma tuiGracefulShutdown_keeps written st :
  P (tuiState st) -> keeps eff out (tuiStepOk P) (tuiGracefulShutdown written st).
Proof.
  intros Hst. unfold tuiGracefulShutdown, tuiStepOk.
  destruct st as [s returned]. cbn in Hst |- *.
  destruct written, returned; keeps_auto.
Qed.

Lemma tuiStep_keeps input st :
  P (tuiState st) -> keeps eff out (tuiStepOk P) (tuiStep input st).
Proof.
  intros Hst. destruct input;
    try (cbn [tuiStep]; now apply tuiGracefulShutdown_keeps).
  - intros w r w' H. rewrite tuiStep_Emit in H.
    apply pair_equal_spec in H as [<- <-].
    eexists. split; [reflexivity|]. split.
    + eapply savedBy_Forall; eauto.
    + cbn. now apply P_next.
  - cbn [tuiStep]. now apply keeps_halt.
  - cbn [tuiStep]. destruct error as [e|]; [destruct (engineReturned st)|];
      try (apply keeps_ret; exact Hst).
    now apply keeps_halt.
Qed.

Lemma tuiWait_keeps : forall inputs st,
  P (tuiState st) -> keeps eff out P (tuiWait inputs st).
Proof.
  induction inputs as [|input inputs IH]; intros st Hst; cbn [tuiWait].
  - now apply keeps_halt.
  - apply (keeps_bind eff out (tuiStepOk P)); [now apply tuiStep_keeps|].
    intros [st'|s] Hr; [now apply IH | now apply keeps_ret].
Qed.

Lemma runWithTui_keeps s inputs :
  eff RendererCreate -> eff EngineStart -> P s ->
  keeps eff out P (runWithTui s inputs).
Proof.
  intros Hc He Hs. unfold runWithTui.
  apply keeps_seq; [now apply keeps_emit|intros _].
  apply keeps_seq; [now apply keeps_emit|intros _].
  now apply tuiWait_keeps.
Qed.

End TuiKeeps.

(** The headless mode when only engine events are delivered. *)
Lemma headlessWait_emit_keeps (eff : Effect -> Prop) (out : Outcome -> Prop)
    (P : Session.PersistedSessionState -> Prop) config :
  (forall x b, P x -> eff (SaveSession x b)) ->
  (forall c, eff (Log c)) -> eff EngineDispose ->
  (forall e, out (Rejected e)) -> out Pending ->
  (forall now event s, P s -> P (nextState now event s)) ->
  forall inputs st, forallb isEmit inputs = true ->
    P (currentState st) -> keeps eff out P (headlessWait config inputs st).
Proof.
  intros Hsave Hlog Hd Hj Hp Hnext.
  induction inputs as [|input inputs IH]; intros st Hall Hst.
  - now apply keeps_halt.
  - cbn in Hall. apply andb_prop in Hall as [Hi Hrest].
    destruct input; try discriminate Hi.
    + eapply keeps_prefix; [intros w; apply headlessWait_Emit | |].
      * apply Forall_app. split.
        -- apply Forall_forall. intros e He. apply in_map_iff in He as (c & <- & _).
           apply Hlog.
        -- eapply savedBy_Forall; eauto.
      * apply IH; [assumption|]. cbn. now apply Hnext.
    + destruct error as [e|]; cbn [headlessWait].
      * now apply keeps_halt.
      * apply keeps_seq; [now apply keeps_emit|intros _]. now apply keeps_ret.
Qed.

(** ** Saving after engine events (C3, C7) *)

(** C3, counterexample.  In TUI mode the engine stops, [engine.start()]
    returns and the user force-quits: the only write of the session file
    is the initial one, made before the engine was started; nothing is
    saved after the stop.  The headless listener only logs the stop. *)
Lemma stop_is_not_saved :
  run [] (env0 true []
            [TuiEmit clock0 stopEvent true; TuiEngineSettled None; TuiForceQuit]) world0
  = (Exited 1, performAll (startup0 ++ [RendererCreate; EngineStart]) world0)
  /\ headlessListener (config0 false) clock0 stopEvent true session0 world0
     = (Next session0,
        performAll [Log (Logger.engineStopped "max_iterations" 5 5)] world0).
Proof. split; reflexivity. Qed.

(** C3, as amended.  In both modes, when [iteration:completed],
    [engine:paused] or [engine:resumed] is delivered, the listener calls
    [savePersistedSession] with the updated state before the next
    delivery is handled: the rest of the wait runs in a world whose trace
    already ends with that save.  On [engine:stopped] neither listener
    saves: the headless one logs the stop, the TUI one does nothing. *)
Theorem listeners_save_on_iteration_pause_resume :
  (forall now event written,
     persisting event = true ->
     (forall config rest st w,
        headlessWait config (Emit now event written :: rest) st w
        = headlessWait config rest
            (mkHeadless (nextState now event (currentState st)) (lastSigintTime st)
               (shutdowns st))
            (performAll
               (map Log (headlessLog config event)
                ++ [SaveSession (nextState now event (currentState st)) written]) w))
     /\ (forall rest st w,
           tuiWait (TuiEmit now event written :: rest) st w
           = tuiWait rest (mkTui (nextState now event (tuiState st)) (engineReturned st))
               (performAll [SaveSession (nextState now event (tuiState st)) written] w)))
  /\ (forall config now reason n m written s w,
        headlessListener config now (Engine.engine_stopped reason n m) written s w
        = (Next s, performAll [Log (Logger.engineStopped reason n m)] w)
        /\ tuiListener now (Engine.engine_stopped reason n m) written s w = (Next s, w)).
Proof.
  split.
  - intros now event written Hp. split.
    + intros config rest st w. rewrite headlessWait_Emit. unfold savedBy.
      now rewrite Hp.
    + intros rest st w. rewrite tuiWait_Emit. unfold savedBy. now rewrite Hp.
  - intros. split; reflexivity.
Qed.

Lemma listeners_save_on_iteration_pause_resume_witness :
  headlessWait (config0 false)
    [Emit clock0 (Engine.engine_paused 1) true] (mkHeadless session0 0 []) world0
  = headlessWait (config0 false) []
      (mkHeadless (Session.pauseSession clock0 session0) 0 [])
      (performAll [Log (Logger.enginePaused 1);
                   SaveSession (Session.pauseSession clock0 session0) true] world0).
Proof.
  destruct listeners_save_on_iteration_pause_resume as [Hsave _].
  destruct (Hsave clock0 (Engine.engine_paused 1) true eq_refl) as [Hheadless _].
  exact (Hheadless (config0 false) [] (mkHeadless session0 0 []) world0).
Defined.

(** The result of a delivery does not depend on the world, nor on the
    fate of the write a listener starts. *)
Lemma headlessStep_fst config input st w1 w2 :
  fst (headlessStep config input st w1)
  = fst (headlessStep config (written_ok input) st w2).
Proof.
  destruct input; cbn [written_ok].
  - now rewrite !headlessStep_Emit.
  - cbn [headlessStep]. unfold handleSigint.
    destruct (now - lastSigintTime st <? DOUBLE_PRESS_WINDOW_MS)%Z; reflexivity.
  - reflexivity.
  - cbn [headlessStep]. unfold continueShutdown.
    destruct (nth_error (shutdowns st) k) as [[[]|]|]; reflexivity.
  - reflexivity.
Qed.

Lemma headlessWait_fst config inputs : forall st w1 w2,
  fst (headlessWait config inputs st w1)
  = fst (headlessWait config (map written_ok inputs) st w2).
Proof.
  induction inputs as [|input inputs IH]; intros st w1 w2; [reflexivity|].
  assert (Hstep :
    fst ((let* st' := headlessStep config input st in
          headlessWait config inputs st') w1)
    = fst ((let* st' := headlessStep config (written_ok input) st in
            headlessWait config (map written_ok inputs) st') w2)).
  { unfold bindM. pose proof (headlessStep_fst config input st w1 w2) as E.
    destruct (headlessStep config input st w1) as [[a|o] w1'],
             (headlessStep config (written_ok input) st w2) as [[a'|o'] w2'];
      cbn in E; try discriminate; injection E as <-; [apply IH | reflexivity]. }
  destruct input; try exact Hstep.
  destruct error; reflexivity.
Qed.

Lemma tuiStep_fst input st w1 w2 :
  fst (tuiStep input st w1) = fst (tuiStep (tui_written_ok input) st w2).
Proof.
  destruct input; cbn [tui_written_ok]; try reflexivity.
  - now rewrite !tuiStep_Emit.
  - cbn [tuiStep]. unfold tuiGracefulShutdown.
    destruct written, (engineReturned st); reflexivity.
  - cbn [tuiStep]. unfold tuiGracefulShutdown.
    destruct written, (engineReturned st); reflexivity.
  - cbn [tuiStep]. unfold tuiGracefulShutdown.
    destruct written, (engineReturned st); reflexivity.
  - cbn [tuiStep]. destruct error; [destruct (engineReturned st)|]; reflexivity.
Qed.

Lemma tuiWait_fst inputs : forall st w1 w2,
  fst (tuiWait inputs st w1) = fst (tuiWait (map tui_written_ok inputs) st w2).
Proof.
  induction inputs as [|input inputs IH]; intros st w1 w2; [reflexivity|].
  cbn [tuiWait map]. unfold bindM.
  pose proof (tuiStep_fst input st w1 w2) as E.
  destruct (tuiStep input st w1) as [[a|o] w1'],
           (tuiStep (tui_written_ok input) st w2) as [[a'|o'] w2'];
    cbn in E; try discriminate; injection E as <-; [|reflexivity].
  destruct a; [apply IH | reflexivity].
Qed.

(** C7, counterexample.  A failed write started by the headless listener
    leaves no log entry: after the two progress lines the trace ends with
    the failed write itself.  And a failed write is not always survived:
    when the first write of the session file fails, the command's promise
    rejects, where the same run with a successful write resolves. *)
Lemma save_failure_unlogged_or_fatal :
  headlessListener (config0 false) clock0 (Engine.iteration_completed result1) false
    session0 world0
  = (Next (Session.updateSessionAfterIteration clock0 session0 result1),
     performAll
       [Log (Logger.iterationComplete 1 "T1" true 15);
        Log (Logger.taskCompleted "T1" 1);
        SaveSession (Session.updateSessionAfterIteration clock0 session0 result1) false]
       world0)
  /\ fst (run ["--headless"] (env0 false [EngineSettled None] []) world0) = Resolved
  /\ fst (run ["--headless"] (envInitialSaveFails [EngineSettled None]) world0)
     = Rejected "savePersistedSession failed".
Proof. repeat split; reflexivity. Qed.

(** C7, as amended.  A failing [savePersistedSession] started by an
    engine listener ([iteration:completed], [engine:paused],
    [engine:resumed]) is swallowed: the listener returns the same state
    as when the write succeeds, its only trace is the failed write itself
    (nothing is logged about it), and the result of the mode function
    (the state it returns or the way it stops) is the same as when every
    such write succeeds. *)
Theorem listener_save_failure_is_swallowed :
  (forall config now event s w,
     headlessListener config now event false s w
     = (Next (nextState now event s),
        performAll (map Log (headlessLog config event) ++ savedBy now event false s) w)
     /\ fst (headlessListener config now event false s w)
        = fst (headlessListener config now event true s w))
  /\ (forall now event s w,
        tuiListener now event false s w
        = (Next (nextState now event s), performAll (savedBy now event false s) w)
        /\ fst (tuiListener now event false s w) = fst (tuiListener now event true s w))
  /\ (forall config inputs s w1 w2,
        fst (runHeadless s config inputs w1)
        = fst (runHeadless s config (map written_ok inputs) w2))
  /\ (forall inputs s w1 w2,
        fst (runWithTui s inputs w1) = fst (runWithTui s (map tui_written_ok inputs) w2)).
Proof.
  repeat split.
  - apply headlessListener_eq.
  - now rewrite !headlessListener_eq.
  - apply tuiListener_eq.
  - now rewrite !tuiListener_eq.
  - intros. unfold runHeadless, bindM. cbn. apply headlessWait_fst.
  - intros. unfold runWithTui, bindM. cbn. apply tuiWait_fst.
Qed.

(** ** Paused snapshots (C4) *)

Lemma pausedCoherent_next now event s :
  pausedCoherent s -> pausedCoherent (nextState now event s).
Proof.
  unfold pausedCoherent. destruct event; cbn; auto. discriminate.
Qed.

Lemma savesCoherent_save x (b : bool) : pausedCoherent x -> savesCoherent (SaveSession x b).
Proof. auto. Qed.

(** C4, counterexample.  A headless run is paused and then receives
    SIGTERM: the snapshot written by [handleSigterm], which is the one
    left on disk when the process exits, has [isPaused] set and status
    [interrupted]. *)
Lemma interrupted_while_paused :
  fst (run ["--headless"]
         (env0 false [Emit clock0 (Engine.engine_paused 1) true; Sigterm true;
                      Continue 0; Continue 0] []) world0) = Exited 0
  /\ sessionFile (snd (run ["--headless"]
         (env0 false [Emit clock0 (Engine.engine_paused 1) true; Sigterm true;
                      Continue 0; Continue 0] []) world0))
     = Session.Stored pausedThenInterrupted
  /\ Session.isPaused pausedThenInterrupted = true
  /\ Session.status pausedThenInterrupted = Session.interrupted
  /\ ~ pausedCoherent pausedThenInterrupted.
Proof.
  repeat split; try reflexivity.
  intros H. specialize (H eq_refl). discriminate H.
Qed.

(** C4, as amended.  The engine listeners keep the invariant "[isPaused]
    implies [status = paused]": from a state that satisfies it, the state
    they compute satisfies it and so does every snapshot they save; hence
    every snapshot written by [runWithTui], and every snapshot written by
    [runHeadless] while only engine events are delivered, satisfies it.
    The [engine:resumed] listener saves a state with status [running],
    [isPaused] false and [pausedAt] cleared. *)
Theorem listener_snapshots_paused_coherent :
  (forall s, pausedCoherent s ->
     (forall config now event written w,
        exists es,
          headlessListener config now event written s w
          = (Next (nextState now event s), performAll es w)
          /\ Forall savesCoherent es /\ pausedCoherent (nextState now event s))
     /\ (forall now event written w,
           exists es,
             tuiListener now event written s w
             = (Next (nextState now event s), performAll es w)
             /\ Forall savesCoherent es /\ pausedCoherent (nextState now event s))
     /\ (forall inputs w r w',
           runWithTui s inputs w = (r, w') ->
           exists es, w' = performAll es w /\ Forall savesCoherent es)
     /\ (forall config inputs w r w',
           forallb isEmit inputs = true ->
           runHeadless s config inputs w = (r, w') ->
           exists es, w' = performAll es w /\ Forall savesCoherent es))
  /\ (forall now k written s,
        nextState now (Engine.engine_resumed k) s = resumed s
        /\ savedBy now (Engine.engine_resumed k) written s = [SaveSession (resumed s) written]
        /\ Session.status (resumed s) = Session.running
        /\ Session.isPaused (resumed s) = false
        /\ Session.pausedAt (resumed s) = None).
Proof.
  split; [|intros; repeat split].
  intros s Hs. repeat split.
  - intros config now event written w. eexists. split; [apply headlessListener_eq|].
    split; [|now apply pausedCoherent_next].
    apply Forall_app. split.
    + apply Forall_forall. intros e He. apply in_map_iff in He as (c & <- & _). exact I.
    + eapply savedBy_Forall; [apply savesCoherent_save | now apply pausedCoherent_next].
  - intros now event written w. eexists. split; [apply tuiListener_eq|].
    split; [|now apply pausedCoherent_next].
    eapply savedBy_Forall; [apply savesCoherent_save | now apply pausedCoherent_next].
  - intros inputs w r w' H.
    destruct (runWithTui_keeps savesCoherent any pausedCoherent savesCoherent_save
                I I I (fun _ => I) (fun _ => I) I pausedCoherent_next s inputs I I Hs
                _ _ _ H) as (es & -> & F & _).
    now exists es.
  - intros config inputs w r w' Hall H.
    assert (K : keeps savesCoherent any pausedCoherent (runHeadless s config inputs)).
    { unfold runHeadless.
      apply keeps_seq; [now apply keeps_emit|intros _].
      apply keeps_seq; [now apply keeps_emit|intros _].
      apply headlessWait_emit_keeps; cbn; auto using pausedCoherent_next.
      - intros; exact I.
      - intros; exact I. }
    destruct (K _ _ _ H) as (es & -> & F & _). now exists es.
Qed.

Lemma listener_snapshots_paused_coherent_witness :
  exists es,
    headlessListener (config0 false) clock0 (Engine.engine_paused 1) true session0 world0
    = (Next (Session.pauseSession clock0 session0), performAll es world0)
    /\ Forall savesCoherent es
    /\ pausedCoherent (Session.pauseSession clock0 session0).
Proof.
  destruct listener_snapshots_paused_coherent as [Hkeep _].
  assert (Hs : pausedCoherent session0) by (intros H; discriminate H).
  destruct (Hkeep session0 Hs) as [Hheadless _].
  exact (Hheadless (config0 false) clock0 (Engine.engine_paused 1) true world0).
Defined.

(** ** Interrupts in headless mode (C5, C8) *)

Lemma nth_error_last {A} (l : list A) x : nth_error (l ++ [x]) (length l) = Some x.
Proof. induction l as [|y l IH]; [reflexivity | exact IH]. Qed.

Lemma replace_last {A} (l : list A) x y : replace (length l) y (l ++ [x]) = l ++ [y].
Proof. induction l as [|z l IH]; [reflexivity | cbn; now rewrite IH]. Qed.

(** C5.  In headless mode a SIGINT that is not within the double-press
    window of an earlier one (for the first SIGINT of a run: a clock that
    reads at least 1000 ms) does not end the process: it logs, writes the
    [interrupted] snapshot and leaves a graceful shutdown pending.  If,
    while the process is still alive and after any deliveries other than
    SIGINT, a second SIGINT arrives less than 1000 ms after the first,
    the handler logs "Force quit!" and the process exits at once with
    code 1. *)
Theorem second_sigint_within_window_forces_quit :
  forall config st w t1 written1,
    (DOUBLE_PRESS_WINDOW_MS <= t1 - lastSigintTime st)%Z ->
    exists st1 w1,
      headlessStep config (Sigint t1 written1) st w = (Next st1, w1)
      /\ shutdowns st1 = shutdowns st ++ [AwaitSave written1]
      /\ Session.status (currentState st1) = Session.interrupted
      /\ w1 = performAll
                [Log (Logger.info "system" "Interrupted, stopping gracefully...");
                 Log (Logger.info "system" "(Press Ctrl+C again within 1s to force quit)");
                 SaveSession (currentState st1) written1] w
      /\ forall mid st2 w2 t2 written2,
           forallb (fun i => negb (isSigint i)) mid = true ->
           headlessSteps config mid st1 w1 = (Next st2, w2) ->
           (t1 <= t2 < t1 + DOUBLE_PRESS_WINDOW_MS)%Z ->
           headlessStep config (Sigint t2 written2) st2 w2
           = (Halt (Exited 1), performAll [Log (Logger.warn "system" "Force quit!")] w2).
Proof.
  intros config st w t1 written1 H1.
  eexists. eexists. split; [cbn [headlessStep]; now apply handleSigint_graceful|].
  repeat split.
  intros mid st2 w2 t2 written2 Hmid Hsteps Ht2.
  cbn [headlessStep]. apply handleSigint_force.
  rewrite (headlessSteps_lastSigintTime _ _ _ _ _ _ Hmid Hsteps). cbn. lia.
Qed.

Lemma second_sigint_within_window_forces_quit_witness :
  exists st1 w1,
    headlessStep (config0 false) (Sigint clock0 true) (mkHeadless session0 0 []) world0
    = (Next st1, w1)
    /\ headlessStep (config0 false) (Sigint (clock0 + 400) true) st1 w1
       = (Halt (Exited 1), performAll [Log (Logger.warn "system" "Force quit!")] w1).
Proof.
  assert (H1 : (DOUBLE_PRESS_WINDOW_MS
                <= clock0 - lastSigintTime (mkHeadless session0 0 []))%Z)
    by (vm_compute; discriminate).
  destruct (second_sigint_within_window_forces_quit (config0 false)
              (mkHeadless session0 0 []) world0 clock0 true H1)
    as (st1 & w1 & Hstep & _ & _ & _ & Hforce).
  exists st1, w1. split; [exact Hstep|].
  apply (Hforce [] st1 w1 (clock0 + 400)%Z true eq_refl eq_refl).
  unfold clock0, DOUBLE_PRESS_WINDOW_MS. lia.
Defined.

Lemma stored_after_save es x w :
  In (SaveSession x true) es -> Forall notDelete es ->
  isStored (sessionFile (performAll es w)).
Proof.
  intros Hin F. apply in_split in Hin as (es1 & es2 & ->).
  rewrite performAll_app. apply Forall_app in F as [_ F2].
  inversion F2 as [|? ? _ F3]; subst.
  change (isStored (sessionFile (performAll es2 (perform (SaveSession x true)
                                                   (performAll es1 w))))).
  apply stored_performAll; [exact F3 | exact I].
Qed.

(** C8.  In headless mode SIGTERM, and a SIGINT outside the double-press
    window, write the current state with status [interrupted] before
    anything else happens to the process.  When that write succeeds and
    the two awaited promises settle, the process exits with code 0 and
    the snapshot on disk is that [interrupted] state, which is resumable
    as long as tasks remain.  Conversely [runHeadless] never reaches
    [process.exit(0)] without having written an [interrupted] snapshot,
    and a snapshot is then on disk. *)
Theorem graceful_interrupt_saves_interrupted :
  forall config st w,
    let s := Session.with_status Session.interrupted (currentState st) in
    let k := length (shutdowns st) in
    Session.status s = Session.interrupted
    /\ (forall written,
          headlessStep config (Sigterm written) st w
          = (Next (mkHeadless s (lastSigintTime st) (shutdowns st ++ [AwaitSave written])),
             performAll
               [Log (Logger.info "system" "Received SIGTERM, stopping gracefully...");
                SaveSession s written] w))
    /\ (forall now written,
          (DOUBLE_PRESS_WINDOW_MS <= now - lastSigintTime st)%Z ->
          headlessStep config (Sigint now written) st w
          = (Next (mkHeadless s now (shutdowns st ++ [AwaitSave written])),
             performAll
               [Log (Logger.info "system" "Interrupted, stopping gracefully...");
                Log (Logger.info "system" "(Press Ctrl+C again within 1s to force quit)");
                SaveSession s written] w))
    /\ (headlessSteps config [Sigterm true; Continue k; Continue k] st w
        = (Halt (Exited 0),
           performAll
             [Log (Logger.info "system" "Received SIGTERM, stopping gracefully...");
              SaveSession s true; EngineDispose] w)
        /\ sessionFile
             (performAll
                [Log (Logger.info "system" "Received SIGTERM, stopping gracefully...");
                 SaveSession s true; EngineDispose] w)
           = Session.Stored s)
    /\ (Session.tasksCompleted s < Session.totalTasks s ->
        Session.isSessionResumable s = true)
    /\ (forall s0 inputs w',
          runHeadless s0 config inputs w = (Halt (Exited 0), w') ->
          exists es, w' = performAll es w /\ interruptedSaved es
                     /\ isStored (sessionFile w')).
Proof.
  intros config st w s k. split; [reflexivity|].
  split; [intros; apply handleSigterm_eq|].
  split; [intros; cbn [headlessStep]; now apply handleSigint_graceful|].
  split; [split; [|reflexivity]|split].
  - cbn [headlessSteps headlessStep]. unfold bindM at 1. rewrite handleSigterm_eq.
    unfold bindM at 1. unfold continueShutdown at 1. cbn [shutdowns].
    subst k. rewrite nth_error_last. unfold bindM at 1. cbn [emit ret].
    unfold bindM at 1. unfold continueShutdown. cbn [shutdowns].
    rewrite replace_last, nth_error_last. reflexivity.
  - intros Hlt. unfold Session.isSessionResumable. cbn.
    now apply Nat.ltb_lt.
  - intros s0 inputs w' H. unfold runHeadless, bindM in H. cbn in H.
    destruct (headlessWait_inv config inputs (mkHeadless s0 0 []) w
                [Log (Logger.sessionCreated (Session.sessionId s0)
                        (Config.agentPlugin config) (Config.trackerPlugin config));
                 EngineStart] _ _ H) as (es & -> & F & [Hc|[_ Hsaved]]).
    + intros Hc. inversion Hc.
    + discriminate Hc.
    + eexists. split; [reflexivity|]. split; [exact Hsaved|].
      destruct Hsaved as (x & Hin & _).
      apply (stored_after_save _ x); [exact Hin|].
      apply Forall_app. split; [repeat constructor; discriminate | exact F].
Qed.

Lemma graceful_interrupt_saves_interrupted_witness :
  headlessStep (config0 false) (Sigint clock0 true) (mkHeadless session0 0 []) world0
  = (Next (mkHeadless (Session.with_status Session.interrupted session0) clock0
             [AwaitSave true]),
     performAll
       [Log (Logger.info "system" "Interrupted, stopping gracefully...");
        Log (Logger.info "system" "(Press Ctrl+C again within 1s to force quit)");
        SaveSession (Session.with_status Session.interrupted session0) true] world0)
  /\ Session.isSessionResumable (Session.with_status Session.interrupted session0) = true.
Proof.
  destruct (graceful_interrupt_saves_interrupted (config0 false)
              (mkHeadless session0 0 []) world0)
    as (_ & _ & Hsigint & _ & Hres & _).
  split.
  - apply (Hsigint clock0 true). vm_compute. discriminate.
  - apply Hres. cbn. lia.
Defined.

(** ** The stages of the command *)

Lemma bindM_inv {A B} (m : M A) (k : A -> M B) w r w' :
  bindM m k w = (r, w') ->
  (exists a w1, m w = (Next a, w1) /\ k a w1 = (r, w'))
  \/ (exists o, m w = (Halt o, w') /\ r = Halt o).
Proof.
  unfold bindM. destruct (m w) as [[a|o] w1]; intros H.
  - left. eauto.
  - right. injection H as <- <-. eauto.
Qed.

Lemma executeRunCommand_staged args env w :
  executeRunCommand args env w
  = if wantsHelp args then emit PrintHelp w else staged args env w.
Proof.
  unfold executeRunCommand, wantsHelp.
  destruct (includes args "--help" || includes args "-h"); [reflexivity|].
  unfold staged, beforeLock, afterLock, initialState, bindM.
  repeat match goal with
  | |- context [let (_, _) := ?m ?x in _] =>
      lazymatch m with
      | context [bindM] => fail
      | _ => destruct (m x) as [[?|?] ?]; cbn [ret]
      end
  end; reflexivity.
Qed.

Ltac effect_tac :=
  unfold quietEffect, openingEffect, preLockEffect, startupEffect, notDelete,
    earlyOutcome, exitsWithOne, any; cbn;
  repeat split; try discriminate; try (intros; discriminate); try tauto.

Ltac keeps_all := repeat keeps_step; try solve [effect_tac].

Lemma parseRunArgs_normal args : exists options, parseRunArgs args = Normal options.
Proof. apply (runLoop_normal args (length args)). lia. Qed.

Lemma checkSetup_quiet options env :
  keeps quietEffect earlyOutcome any (checkSetup options env).
Proof. unfold checkSetup. keeps_all. Qed.

Lemma checkSetup_exits options env :
  setupResult env <> SetupCancelled ->
  keeps quietEffect exitsWithOne any (checkSetup options env).
Proof.
  intros Hs. unfold checkSetup.
  destruct (setupResult env); try (now elim Hs); keeps_all.
Qed.

Lemma loadConfig_quiet env : keeps quietEffect exitsWithOne any (loadConfig env).
Proof. unfold loadConfig. keeps_all. Qed.

Lemma loadConfig_config env w config w' :
  loadConfig env w = (Next config, w') -> builtConfig env = Some config.
Proof.
  unfold loadConfig. intros H.
  apply bindM_inv in H as [(? & w1 & _ & H)|(? & _ & [=])].
  apply bindM_inv in H as [(? & w2 & _ & H)|(? & _ & [=])].
  apply bindM_inv in H as [(c & w3 & Hc & H)|(? & _ & [=])].
  destruct (builtConfig env); [|discriminate Hc].
  injection Hc as <- _.
  apply bindM_inv in H as [(? & w4 & _ & H)|(? & _ & [=])].
  apply bindM_inv in H as [(? & w5 & _ & H)|(? & _ & [=])].
  now injection H as <- _.
Qed.

Lemma promptResumeOrNew_keeps env :
  keeps quietEffect exitsWithOne any (promptResumeOrNew env).
Proof. unfold promptResumeOrNew. keeps_all. Qed.

Lemma handleExistingSession_keeps options env :
  keeps preLockEffect exitsWithOne any (handleExistingSession options env).
Proof.
  unfold handleExistingSession.
  apply keeps_seq; [apply keeps_getWorld | intros w0].
  apply keeps_seq; [|intros _; now apply keeps_ret].
  match goal with |- keeps _ _ _ (if ?c then _ else _) => destruct c end;
    [|now apply keeps_ret].
  apply keeps_seq; [|intros []; keeps_all].
  eapply keeps_weaken; [apply promptResumeOrNew_keeps| | |]; auto.
  now intros e [].
Qed.


Lemma beforeLock_keeps args env :
  keeps preLockEffect earlyOutcome any (beforeLock args env).
Proof.
  unfold beforeLock. destruct (parseRunArgs_normal args) as [options ->]. cbn [lift].
  apply keeps_seq; [now apply keeps_ret|intros options'].
  apply keeps_seq.
  { eapply keeps_weaken; [apply checkSetup_quiet| | |]; auto. now intros e []. }
  intros _. apply keeps_seq.
  { eapply keeps_weaken; [apply loadConfig_quiet| | |]; auto.
    - now intros e [].
    - intros o ->. now right. }
  intros config. apply keeps_seq.
  { eapply keeps_weaken; [apply handleExistingSession_keeps| | |]; auto.
    intros o ->. now right. }
  intros sc. now apply keeps_ret.
Qed.

Lemma beforeLock_exits args env :
  setupResult env <> SetupCancelled ->
  keeps preLockEffect exitsWithOne any (beforeLock args env).
Proof.
  intros Hs.
  unfold beforeLock. destruct (parseRunArgs_normal args) as [options ->]. cbn [lift].
  apply keeps_seq; [now apply keeps_ret|intros options'].
  apply keeps_seq.
  { eapply keeps_weaken; [now apply checkSetup_exits| | |]; auto. now intros e []. }
  intros _. apply keeps_seq.
  { eapply keeps_weaken; [apply loadConfig_quiet| | |]; auto. now intros e []. }
  intros config. apply keeps_seq; [apply handleExistingSession_keeps|].
  intros sc. now apply keeps_ret.
Qed.

Lemma beforeLock_options args env w options config sc w' :
  beforeLock args env w = (Next (options, config, sc), w') ->
  parseRunArgs args = Normal options /\ builtConfig env = Some config.
Proof.
  unfold beforeLock. destruct (parseRunArgs_normal args) as [options0 E]. rewrite E.
  cbn [lift]. intros H.
  apply bindM_inv in H as [(? & w1 & Ho & H)|(? & _ & [=])].
  injection Ho as <- <-.
  apply bindM_inv in H as [(? & w2 & _ & H)|(? & _ & [=])].
  apply bindM_inv in H as [(c & w3 & Hc & H)|(? & _ & [=])].
  apply loadConfig_config in Hc.
  apply bindM_inv in H as [(? & w4 & _ & H)|(? & _ & [=])].
  injection H as <- <- _ _. auto.
Qed.


Lemma preLock_lockFile es w :
  Forall preLockEffect es -> lockFile (performAll es w) = lockFile w.
Proof.
  intros F. apply lockFile_performAll. eapply Forall_impl; [|exact F].
  now intros e [_ [Hl _]].
Qed.



(** A live holder, no [--force], headless: the lock is refused and the
    command exits with code 1. *)
Lemma acquireLock_conflict options env w f :
  lockFile w = Some f -> Session.holderAlive f = true ->
  force options = false -> headless options = true ->
  exists es, acquireLock options env w = (Halt (Exited 1), performAll es w)
             /\ Forall preLockEffect es.
Proof.
  intros Hl Ha Hf Hh. unfold acquireLock, bindM, getWorld.
  rewrite Hl, Hf, Hh. unfold Session.acquireLockWithPrompt, Session.acquire.
  rewrite Ha. cbn.
  eexists [ConsoleError _; ConsoleError _]. split; [reflexivity|].
  repeat constructor; effect_tac.
Qed.

Lemma afterLock_keeps options sessionCheck config env :
  keeps openingEffect exitsWithOne any (afterLock options sessionCheck config env).
Proof. unfold afterLock, openSession, initializeEngine. keeps_all. Qed.


Lemma try_catch_inv {A} (m : M A) h w r w' :
  try_catch m h w = (r, w') ->
  (exists e w1, m w = (Halt (Rejected e), w1) /\ h e w1 = (r, w'))
  \/ (m w = (r, w') /\ forall e, r <> Halt (Rejected e)).
Proof.
  unfold try_catch. destruct (m w) as [[a|[]] w1]; intros H;
    try (right; split; [exact H|]; injection H as <- _; discriminate).
  left. eauto.
Qed.


Lemma runHeadless_spec config s inputs w r w' :
  runHeadless s config inputs w = (r, w') ->
  exists es, w' = performAll es w /\ Forall notDelete es /\ In EngineStart es
             /\ modeOutcome false es r.
Proof.
  intros H. unfold runHeadless, bindM in H. cbn in H.
  destruct (headlessWait_inv config inputs (mkHeadless s 0 []) w
              [Log (Logger.sessionCreated (Session.sessionId s)
                      (Config.agentPlugin config) (Config.trackerPlugin config));
               EngineStart] _ _ H) as (es & -> & F & Hr).
  { intros Hc. inversion Hc. }
  eexists. split; [reflexivity|]. split; [|split].
  - apply Forall_app. split; [repeat constructor; discriminate | exact F].
  - apply in_or_app. left. cbn. auto.
  - destruct r as [|[]]; cbn in *; auto. destruct Hr as [?|[? ?]]; auto.
Qed.

Lemma runWithTui_spec s inputs w r w' :
  runWithTui s inputs w = (r, w') ->
  exists es, w' = performAll es w /\ Forall notDelete es /\ In EngineStart es
             /\ modeOutcome true es r.
Proof.
  intros H. unfold runWithTui, bindM in H. cbn in H.
  assert (K : keeps notDelete tuiOutcome any (tuiWait inputs (mkTui s false))).
  { apply tuiWait_keeps; cbn; unfold notDelete, any; auto; try discriminate;
      intros; discriminate. }
  destruct (K _ _ _ H) as (es & -> & F & Hr).
  exists ([RendererCreate; EngineStart] ++ es). split; [|split; [|split]].
  - now rewrite performAll_app.
  - apply Forall_app. split; [repeat constructor; discriminate | exact F].
  - cbn. auto.
  - destruct r as [|[]]; cbn in *; auto.
Qed.

Lemma executeMode_spec config s env w r w' :
  executeMode config s env w = (r, w') ->
  exists es, w' = performAll es w /\ Forall notDelete es /\ In EngineStart es
             /\ modeOutcome (Config.showTui config) es r.
Proof.
  intros H. unfold executeMode in H.
  apply try_catch_inv in H as [(e & w1 & Hm & Hh)|[Hm Hr]].
  - assert (K : exists es, w1 = performAll es w /\ Forall notDelete es
                           /\ In EngineStart es).
    { destruct (Config.showTui config).
      - destruct (runWithTui_spec _ _ _ _ _ Hm) as (es & ? & ? & ? & _). eauto.
      - destruct (runHeadless_spec _ _ _ _ _ _ Hm) as (es & ? & ? & ? & _). eauto. }
    destruct K as (es & -> & F & Hin).
    match type of Hh with ?h _ = _ =>
      assert (Kh : keeps notDelete catchOutcome (@any Session.PersistedSessionState) h)
    end.
    { repeat keeps_step; cbn; unfold notDelete, any; auto; discriminate. }
    destruct (Kh _ _ _ Hh) as (es' & -> & F' & Ho).
    exists (es ++ es'). rewrite performAll_app. repeat split.
    + apply Forall_app; auto.
    + apply in_or_app; auto.
    + destruct r as [|[]]; cbn in *; auto; contradiction.
  - destruct (Config.showTui config).
    + eapply runWithTui_spec; exact Hm.
    + eapply runHeadless_spec; exact Hm.
Qed.

Lemma savePersistedSession_inv s written w r w' :
  savePersistedSession s written w = (r, w') ->
  w' = perform (SaveSession s written) w
  /\ (written = true /\ r = Next tt
      \/ written = false /\ r = Halt (Rejected "savePersistedSession failed")).
Proof.
  unfold savePersistedSession, callSave, bindM. destruct written; cbn;
    intros [= <- <-]; auto.
Qed.

(** The end of the command: the file is deleted exactly on the
    [allComplete] branch, after the [completed] snapshot was written. *)
Lemma finishRun_spec env p w r w' :
  finishRun env p w = (r, w') ->
  exists es, w' = performAll es w
    /\ (r = Next tt \/ exists e, r = Halt (Rejected e))
    /\ (In DeleteSession es -> r = Next tt /\ allComplete (finalEngineState env) = true)
    /\ (isStored (sessionFile w) ->
        (sessionFile w' = Session.Absent
         <-> r = Next tt /\ allComplete (finalEngineState env) = true)
        /\ (sessionFile w' <> Session.Absent -> isStored (sessionFile w'))).
Proof.
  unfold finishRun, bindM, savePersistedSession, callSave, deletePersistedSession,
    releaseLockNew, console, emit, ret, throw, halt.
  destruct (allComplete (finalEngineState env)).
  - destruct (completedSaveWritten env); cbn; intros H;
      apply pair_equal_spec in H as [<- <-].
    + exists [SaveSession (Session.completeSession p) true; DeleteSession;
              Console "Session completed successfully. Session file cleaned up.";
              EndSession "completed"; ReleaseLock; CleanupLockHandlers;
              Console "Ralph TUI finished."].
      split; [reflexivity|]. cbn. intuition discriminate.
    + exists [SaveSession (Session.completeSession p) false].
      split; [reflexivity|]. cbn. split; [eauto|]. split; [intuition discriminate|].
      intros Hs. destruct (sessionFile w); cbn in Hs; try contradiction.
      intuition discriminate.
  - destruct (finalSaveWritten env); cbn; intros H;
      apply pair_equal_spec in H as [<- <-].
    + exists [SaveSession p true;
              Console "Session state saved. Use 'ralph-tui resume' to continue.";
              EndSession "interrupted"; ReleaseLock; CleanupLockHandlers;
              Console "Ralph TUI finished."].
      split; [reflexivity|]. cbn. intuition discriminate.
    + exists [SaveSession p false].
      split; [reflexivity|]. cbn. split; [eauto|]. split; [intuition discriminate|].
      intros Hs. destruct (sessionFile w); cbn in Hs; try contradiction.
      intuition discriminate.
Qed.

Lemma Forall_app3 {A} (P : A -> Prop) l1 l2 l3 :
  Forall P l1 -> Forall P l2 -> Forall P l3 -> Forall P ((l1 ++ l2) ++ l3).
Proof. intros H1 H2 H3. apply Forall_app. split; [apply Forall_app; split|]; auto. Qed.

Lemma opening_notStarted es : Forall openingEffect es -> Forall notStarted es.
Proof. intros F. eapply Forall_impl; [|exact F]. now intros e [[? _] _]. Qed.


Lemma preLock_notStarted es : Forall preLockEffect es -> Forall notStarted es.
Proof. intros F. eapply Forall_impl; [|exact F]. now intros e [[? _] _]. Qed.



(** ** Exit codes (C1) *)

(** C1, counterexample.  A headless run that receives SIGTERM shuts down
    gracefully and exits with code 0, not 130; a headless run that
    receives two SIGINTs 300 ms apart, and a TUI run that is force-quit,
    exit with code 1, not 137. *)
Lemma interrupt_exit_codes_differ :
  fst (run ["--headless"]
         (env0 false [Sigterm true; Continue 0; Continue 0] []) world0) = Exited 0
  /\ exitCode (Exited 0) <> Some (specExitCode InterruptedGracefully)
  /\ fst (run ["--headless"]
            (env0 false [Sigint clock0 true; Sigint (clock0 + 300) true] []) world0)
     = Exited 1
  /\ fst (run [] (env0 true [] [TuiForceQuit]) world0) = Exited 1
  /\ exitCode (Exited 1) <> Some (specExitCode ForceQuit).
Proof. repeat split; try reflexivity; discriminate. Qed.



(** ** Deleting the session file (C2) *)

(** C2, counterexample.  The working directory holds the session file of
    an earlier run; the command is started without [--force] and
    [--resume], starts fresh and deletes the file; then the engine fails
    to initialise and the command exits with code 1.  The run ended in a
    failure and no session file is left. *)
Lemma fresh_start_deletes_before_failure :
  fst (run [] envInitFails worldOld) = Exited 1
  /\ sessionFile worldOld = Session.Stored session0
  /\ sessionFile (snd (run [] envInitFails worldOld)) = Session.Absent
  /\ In DeleteSession (trace (snd (run [] envInitFails worldOld))).
Proof. repeat split; try reflexivity. vm_compute. tauto. Qed.





(** ** Lock conflicts (C6) *)

(** C6.  On a lock that names a live holder, [acquire] succeeds only
    with [force], and in non-interactive mode [acquireLockWithPrompt]
    reports the conflict.  A headless run without [--force] in such a
    working directory never takes the lock and never initialises or
    starts the engine; it ends with [process.exit(1)] (unless help was
    asked for, or the setup wizard was cancelled before the command got
    as far as the lock, in which case it just returns). *)
Theorem live_lock_conflict_exits_one :
  (forall f force,
     Session.holderAlive f = true ->
     (Session.acquire (Some f) force = Session.Acquired <-> force = true)
     /\ (force = false -> Session.acquire (Some f) force = Session.Conflict f))
  /\ (forall f answer,
        Session.holderAlive f = true ->
        Session.acquired (Session.acquireLockWithPrompt (Some f) false true answer)
        = false)
  /\ (forall args env w f options o w',
        parseRunArgs args = Normal options ->
        lockFile w = Some f -> Session.holderAlive f = true ->
        force options = false -> headless options = true ->
        run args env w = (o, w') ->
        exists es, w' = performAll es w /\ Forall preLockEffect es
          /\ (o = Exited 1 \/ o = Resolved)
          /\ (wantsHelp args = false -> setupResult env <> SetupCancelled ->
              o = Exited 1)).
Proof.
  repeat split.
  - unfold Session.acquire. rewrite H. destruct force0; [reflexivity | discriminate].
  - intros ->. unfold Session.acquire. now rewrite H.
  - intros ->. unfold Session.acquire. now rewrite H.
  - intros f answer H. unfold Session.acquireLockWithPrompt, Session.acquire.
    now rewrite H.
  - intros args env w f options o w' Ho Hl Ha Hf Hh H. unfold run in H.
    destruct (executeRunCommand args env w) as [r w1] eqn:E.
    rewrite executeRunCommand_staged in E. destruct (wantsHelp args).
    { apply pair_equal_spec in E as [<- <-]. apply pair_equal_spec in H as [<- <-].
      exists [PrintHelp]. split; [reflexivity|]. split; [repeat constructor; effect_tac|].
      split; [now right | discriminate]. }
    unfold staged in E.
    apply bindM_inv in E as [([[options' config] sc] & w2 & Hb & E)|(o1 & Hb & ->)].
    + destruct (beforeLock_options _ _ _ _ _ _ _ Hb) as [Ho' _].
      rewrite Ho in Ho'. injection Ho' as <-.
      destruct (beforeLock_keeps _ _ _ _ _ Hb) as (esB & -> & FB & _).
      destruct (acquireLock_conflict options env (performAll esB w) f)
        as (esL & Hacq & FL); auto.
      { now rewrite preLock_lockFile. }
      apply bindM_inv in E as [(? & w3 & Hl' & _)|(o1 & Hl' & ->)];
        rewrite Hacq in Hl'; [discriminate Hl'|].
      apply pair_equal_spec in Hl' as [Ho1 <-]. injection Ho1 as <-.
      apply pair_equal_spec in H as [<- <-]. rewrite performAll_ext.
      exists (esB ++ esL). repeat split; auto. apply Forall_app; auto.
    + apply pair_equal_spec in H as [<- <-].
      destruct (beforeLock_keeps _ _ _ _ _ Hb) as (esB & -> & FB & Hout).
      exists esB. repeat split; auto.
      * destruct Hout as [->| ->]; auto.
      * intros _ Hs. destruct (beforeLock_exits _ _ Hs _ _ _ Hb) as (_ & _ & _ & Hx).
        exact Hx.
Qed.

Lemma live_lock_conflict_exits_one_witness :
  exists es,
    snd (run ["--headless"] (env0 false [] []) worldLocked) = performAll es worldLocked
    /\ Forall preLockEffect es
    /\ fst (run ["--headless"] (env0 false [] []) worldLocked) = Exited 1.
Proof.
  destruct live_lock_conflict_exits_one as (_ & _ & Hrun).
  destruct (Hrun ["--headless"] (env0 false [] []) worldLocked
              (Session.mkLock 777 "other-session" true) (set_headless noOptions)
              (fst (run ["--headless"] (env0 false [] []) worldLocked))
              (snd (run ["--headless"] (env0 false [] []) worldLocked))
              eq_refl eq_refl eq_refl eq_refl eq_refl eq_refl)
    as (es & Hw & F & _ & Hexit).
  exists es. split; [exact Hw|]. split; [exact F|].
  apply Hexit; [reflexivity | discriminate].
Defined.

(** ** Further properties of [parseRunArgs] *)

Lemma hasValue_usable v : usable v = true -> hasValue (Some v) = Normal true.
Proof.
  unfold usable, hasValue, and_then, truthy, startsWith. intros H.
  apply andb_prop in H as [H1 H2]. rewrite H1. cbn.
  destruct (String.prefix "-" v); [discriminate H2 | reflexivity].
Qed.

Lemma runSwitch_string args i o f set v :
  index args i = Some f -> In (f, set) stringFlagSetters ->
  index args (i + 1) = Some v -> usable v = true ->
  runSwitch args i o = Normal (i + 1, set (Some v) o).
Proof.
  intros Hi Hf Hn Hu. unfold runSwitch. rewrite Hi, Hn. cbn in Hf.
  repeat destruct Hf as [[= <- <-]|Hf]; try contradiction; cbn;
    unfold stringCase; rewrite (hasValue_usable v Hu); reflexivity.
Qed.

Lemma runSwitch_number args i o f set v :
  index args i = Some f -> In (f, set) numberFlagSetters ->
  index args (i + 1) = Some v -> usable v = true ->
  runSwitch args i o = Normal (i + 1, stored set v o).
Proof.
  intros Hi Hf Hn Hu. unfold runSwitch. rewrite Hi, Hn. cbn in Hf.
  repeat destruct Hf as [[= <- <-]|Hf]; try contradiction; cbn -[parseInt];
    unfold numberCase, stored; rewrite (hasValue_usable v Hu); cbn [Js.bind];
    destruct (isNaN (parseInt (Some v))); reflexivity.
Qed.

(** The loop entered at index 2 of [f :: v :: rest] is the loop over
    [rest]. *)
Lemma runLoop_tail f v rest o :
  runLoop (f :: v :: rest) 2 o = runLoop rest 0 o.
Proof.
  rewrite (runLoop_cons f (v :: rest) (length (v :: rest)) 1) by (cbn; lia).
  apply (runLoop_cons v rest (length rest) 0). lia.
Qed.

(** A value-taking flag of [parseRunArgs] followed by a usable token (not
    empty, not starting with a dash) consumes that token.  The body of
    the loop stores the token for a string flag and, for a numeric flag,
    the number [parseInt] reads, or nothing when that is NaN; it leaves
    the loop variable on the token, so the loop goes on two positions
    further.  At the head of the argument list the result is therefore
    that of the loop over the rest, started from the options with the
    field set; for the two tokens alone it is the options with just that
    field.  A decimal numeral below 2^53 after a numeric flag is stored
    as the number it denotes. *)
Theorem parseRunArgs_value_consumed :
  (forall args i options f set v,
     index args i = Some f -> In (f, set) stringFlagSetters ->
     index args (i + 1) = Some v -> usable v = true ->
     runSwitch args i options = Normal (i + 1, set (Some v) options)
     /\ runLoop args i options = runLoop args (i + 2) (set (Some v) options))
  /\ (forall args i options f set v,
        index args i = Some f -> In (f, set) numberFlagSetters ->
        index args (i + 1) = Some v -> usable v = true ->
        runSwitch args i options = Normal (i + 1, stored set v options)
        /\ runLoop args i options = runLoop args (i + 2) (stored set v options))
  /\ (forall f set v rest,
        In (f, set) stringFlagSetters -> usable v = true ->
        parseRunArgs (f :: v :: rest) = runLoop rest 0 (set (Some v) noOptions)
        /\ parseRunArgs [f; v] = Normal (set (Some v) noOptions))
  /\ (forall f set v rest,
        In (f, set) numberFlagSetters -> usable v = true ->
        parseRunArgs (f :: v :: rest) = runLoop rest 0 (stored set v noOptions)
        /\ (isNaN (parseInt (Some v)) = true ->
            parseRunArgs (f :: v :: rest) = parseRunArgs rest)
        /\ (isNaN (parseInt (Some v)) = false ->
            parseRunArgs [f; v] = Normal (set (Some (parseInt (Some v))) noOptions)))
  /\ (forall f set n,
        In (f, set) numberFlagSetters -> (Z.of_nat n < 2 ^ 53)%Z ->
        parseRunArgs [f; decimal n]
        = Normal (set (Some (Int (Z.of_nat n))) noOptions)).
Proof.
  assert (Hs : forall args i o f set v,
            index args i = Some f -> In (f, set) stringFlagSetters ->
            index args (i + 1) = Some v -> usable v = true ->
            runLoop args i o = runLoop args (i + 2) (set (Some v) o)).
  { intros args i o f set v Hi Hf Hn Hu. rewrite (runLoop_step args i).
    destruct (lt_dec i (length args)) as [_|Hge];
      [|exfalso; apply Hge; eapply index_lt; eassumption].
    rewrite (runSwitch_string _ _ _ _ _ _ Hi Hf Hn Hu).
    now replace (S (i + 1)) with (i + 2) by lia. }
  assert (Hn : forall args i o f set v,
            index args i = Some f -> In (f, set) numberFlagSetters ->
            index args (i + 1) = Some v -> usable v = true ->
            runLoop args i o = runLoop args (i + 2) (stored set v o)).
  { intros args i o f set v Hi Hf Hn Hu. rewrite (runLoop_step args i).
    destruct (lt_dec i (length args)) as [_|Hge];
      [|exfalso; apply Hge; eapply index_lt; eassumption].
    rewrite (runSwitch_number _ _ _ _ _ _ Hi Hf Hn Hu).
    now replace (S (i + 1)) with (i + 2) by lia. }
  split; [|split; [|split; [|split]]].
  - intros args i o f set v Hi Hf Hv Hu.
    split; [now apply (runSwitch_string _ _ _ f) | now apply (Hs _ _ _ f)].
  - intros args i o f set v Hi Hf Hv Hu.
    split; [now apply (runSwitch_number _ _ _ f) | now apply (Hn _ _ _ f)].
  - intros f set v rest Hf Hu. unfold parseRunArgs. split.
    + rewrite (Hs (f :: v :: rest) 0 noOptions f set v eq_refl Hf eq_refl Hu).
      apply runLoop_tail.
    + rewrite (Hs [f; v] 0 noOptions f set v eq_refl Hf eq_refl Hu).
      rewrite runLoop_step. reflexivity.
  - intros f set v rest Hf Hu.
    assert (E : forall rest, parseRunArgs (f :: v :: rest)
                             = runLoop rest 0 (stored set v noOptions)).
    { intros rest'. unfold parseRunArgs.
      rewrite (Hn (f :: v :: rest') 0 noOptions f set v eq_refl Hf eq_refl Hu).
      apply runLoop_tail. }
    split; [apply E|]. split.
    + intros Hnan. rewrite E. unfold stored. now rewrite Hnan.
    + intros Hnum. rewrite E. unfold stored. rewrite Hnum.
      rewrite runLoop_step. reflexivity.
  - intros f set n Hf Hlt. unfold parseRunArgs.
    rewrite (Hn [f; decimal n] 0 noOptions f set (decimal n) eq_refl Hf eq_refl
               (usable_decimal n)).
    unfold stored. rewrite (parseInt_decimal n Hlt). cbn [isNaN].
    etransitivity; [apply runLoop_tail|]. rewrite runLoop_step. reflexivity.
Qed.

Lemma parseRunArgs_value_consumed_witness :
  runSwitch ["--force"; "--model"; "opus"] 1 noOptions
  = Normal (2, set_model (Some "opus") noOptions)
  /\ parseRunArgs ["--model"; "opus"] = Normal (set_model (Some "opus") noOptions)
  /\ parseRunArgs ["--iterations"; "soon"; "--force"] = parseRunArgs ["--force"]
  /\ parseRunArgs ["--delay"; (nbsp ++ "9007199254740993 ms")%string]
     = Normal (set_iterationDelay (Some (Int 9007199254740992)) noOptions)
  /\ parseRunArgs ["--iterations"; decimal 20]
     = Normal (set_iterations (Some (Int 20)) noOptions).
Proof.
  destruct parseRunArgs_value_consumed as (Hs & _ & Hhs & Hhn & Hd).
  split.
  { exact (proj1 (Hs ["--force"; "--model"; "opus"] 1 noOptions "--model" set_model
                    "opus" eq_refl
                    (or_intror (or_intror (or_intror (or_introl eq_refl))))
                    eq_refl eq_refl)). }
  split.
  { exact (proj2 (Hhs "--model" set_model "opus" []
                    (or_intror (or_intror (or_intror (or_introl eq_refl)))) eq_refl)). }
  split.
  { exact (proj1 (proj2 (Hhn "--iterations" set_iterations "soon" ["--force"]
                           (or_introl eq_refl) eq_refl)) eq_refl). }
  split.
  { exact (proj2 (proj2 (Hhn "--delay" set_iterationDelay
                           (nbsp ++ "9007199254740993 ms")%string []
                           (or_intror (or_introl eq_refl)) eq_refl)) eq_refl). }
  exact (Hd "--iterations" set_iterations 20%nat (or_introl eq_refl) eq_refl).
Defined.

(** [--no-tui] and [--headless] are the same flag. *)
Lemma canonical_dash t : String.prefix "-" (canonical t) = String.prefix "-" t.
Proof.
  unfold canonical. destruct (String.eqb_spec t "--no-tui") as [->|_]; reflexivity.
Qed.

Lemma canonical_empty t : (canonical t =? EmptyString) = (t =? EmptyString).
Proof.
  unfold canonical. destruct (String.eqb_spec t "--no-tui") as [->|_]; reflexivity.
Qed.

Lemma hasValue_canonical n : hasValue (option_map canonical n) = hasValue n.
Proof.
  destruct n as [t|]; [|reflexivity].
  unfold hasValue, and_then, truthy, startsWith. cbn [option_map].
  now rewrite canonical_empty, canonical_dash.
Qed.

Lemma canonical_value n :
  hasValue n = Normal true -> option_map canonical n = n.
Proof.
  destruct n as [t|]; [|reflexivity]. cbn [option_map]. intros H. f_equal.
  unfold canonical. destruct (String.eqb_spec t "--no-tui") as [->|_]; [|reflexivity].
  discriminate H.
Qed.

Lemma stringCase_canonical set n i o :
  stringCase set (option_map canonical n) i o = stringCase set n i o.
Proof.
  unfold stringCase. rewrite hasValue_canonical.
  destruct (hasValue n) as [[|]| |] eqn:E; cbn; try reflexivity.
  now rewrite (canonical_value n E).
Qed.

Lemma numberCase_canonical set n i o :
  numberCase set (option_map canonical n) i o = numberCase set n i o.
Proof.
  unfold numberCase. rewrite hasValue_canonical.
  destruct (hasValue n) as [[|]| |] eqn:E; cbn; try reflexivity.
  now rewrite (canonical_value n E).
Qed.

Lemma runSwitch_canonical args i o :
  runSwitch (map canonical args) i o = runSwitch args i o.
Proof.
  unfold runSwitch, index. rewrite !nth_error_map.
  destruct (nth_error args i) as [arg|]; [|reflexivity]. cbn [option_map].
  rewrite !stringCase_canonical, !numberCase_canonical.
  destruct (arg =? "--no-tui") eqn:Eq.
  - apply String.eqb_eq in Eq. subst arg. reflexivity.
  - assert (E : canonical arg = arg) by (unfold canonical; now rewrite Eq).
    rewrite E, Eq. reflexivity.
Qed.

Lemma runLoop_canonical args : forall n i o,
  length args - i <= n -> runLoop (map canonical args) i o = runLoop args i o.
Proof.
  induction n as [|n IH]; intros i o Hn;
    rewrite (runLoop_step (map canonical args)), (runLoop_step args);
    rewrite length_map, runSwitch_canonical;
    destruct (lt_dec i (length args)); try lia; try reflexivity.
  destruct (runSwitch args i o) as [[j o']| |] eqn:E; try reflexivity.
  apply IH. apply runSwitch_index in E. lia.
Qed.

(** [--no-tui] is an alias of [--headless] wherever it stands: replacing
    every [--no-tui] of an argument list by [--headless] does not change
    what [parseRunArgs] returns. *)
Theorem parseRunArgs_no_tui_alias :
  forall args, parseRunArgs (map canonical args) = parseRunArgs args.
Proof.
  intros args. unfold parseRunArgs. apply (runLoop_canonical args (length args)). lia.
Qed.

(** ** Further properties of [parseCreatePrdArgs] *)

Lemma prdBody_cases args i r :
  (exists j r', CreatePrd.prdBody args i r = Normal (j, r'))
  \/ (CreatePrd.prdBody args i r = ProcessExit 0
      /\ (index args i = Some "--help" \/ index args i = Some "-h")).
Proof.
  unfold CreatePrd.prdBody. destruct (index args i) as [arg|]; [|left; eauto].
  repeat match goal with
  | |- (exists j r', (if ?c then _ else _) = _) \/ _ =>
      destruct c eqn:?; [left; solve [eauto]|]
  end.
  destruct ((arg =? "--help") || (arg =? "-h")) eqn:E; [|left; eauto].
  right. split; [reflexivity|].
  apply orb_prop in E as [E|E]; apply String.eqb_eq in E; subst; auto.
Qed.

Lemma prdLoop_cases args : forall n i r,
  length args - i <= n ->
  (exists r', CreatePrd.prdLoop args i r = Normal r')
  \/ (CreatePrd.prdLoop args i r = ProcessExit 0
      /\ (In "--help" args \/ In "-h" args)).
Proof.
  induction n as [|n IH]; intros i r Hn; rewrite prdLoop_step;
    destruct (lt_dec i (length args)) as [Hlt|Hge]; try lia;
    try (left; solve [eauto]).
  destruct (prdBody_cases args i r) as [(j & r' & E)|[E Hh]]; rewrite E.
  - apply IH. apply CreatePrd.prdBody_index in E. lia.
  - right. split; [reflexivity|].
    destruct Hh as [Hh|Hh]; [left|right]; eapply nth_error_In; exact Hh.
Qed.

(** [parseCreatePrdArgs] never throws.  It either returns the parsed
    arguments or ends the process with [process.exit(0)], and the latter
    only when the argument list holds [--help] or [-h]. *)
Theorem parseCreatePrdArgs_exits_only_for_help :
  forall args,
    (exists parsed, CreatePrd.parseCreatePrdArgs args = Normal parsed)
    \/ (CreatePrd.parseCreatePrdArgs args = ProcessExit 0
        /\ (In "--help" args \/ In "-h" args)).
Proof.
  intros args. apply (prdLoop_cases args (length args)). lia.
Qed.

Lemma prdLoop_end args i r : length args <= i -> CreatePrd.prdLoop args i r = Normal r.
Proof.
  intros H. rewrite prdLoop_step. destruct (lt_dec i (length args)); [lia | reflexivity].
Qed.

Lemma index_end args i : length args <= i -> index args i = None.
Proof. intros H. now apply nth_error_None. Qed.

(** A value-taking flag that is the last argument of create-prd reads
    [args[++i]] past the end of the list: [--cwd], [--output] and
    [--agent] then assign [undefined], which erases a value given
    earlier, while [--stories] and [--timeout] leave the result as it
    was. *)
Theorem parseCreatePrdArgs_trailing_flag :
  (forall args i result f set,
     index args i = Some f -> In (f, set) CreatePrd.stringFlags ->
     S i = length args ->
     CreatePrd.prdLoop args i result = Normal (set None result))
  /\ (forall args i result f set,
        index args i = Some f -> In (f, set) CreatePrd.numberFlags ->
        S i = length args ->
        CreatePrd.prdLoop args i result = Normal result).
Proof.
  split; intros args i r f set Hi Hf Hlast; rewrite prdLoop_step;
    (destruct (lt_dec i (length args)) as [_|Hge]; [|lia]).
  - rewrite (prdBody_string args i r f set Hi Hf).
    rewrite index_end by lia. apply prdLoop_end. lia.
  - rewrite (prdBody_number args i r f set Hi Hf).
    rewrite index_end by lia. rewrite prdLoop_end by lia.
    reflexivity.
Qed.

Lemma parseCreatePrdArgs_trailing_flag_witness :
  CreatePrd.prdLoop ["--cwd"; "/repo"; "--cwd"] 2
    (CreatePrd.set_cwd (Some "/repo") CreatePrd.noArgs)
  = Normal CreatePrd.noArgs
  /\ CreatePrd.prdLoop ["-n"; "4"; "-n"] 2
       (CreatePrd.set_stories (Some (Int 4)) CreatePrd.noArgs)
     = Normal (CreatePrd.set_stories (Some (Int 4)) CreatePrd.noArgs).
Proof.
  destruct parseCreatePrdArgs_trailing_flag as [Hstring Hnumber].
  split.
  - exact (Hstring ["--cwd"; "/repo"; "--cwd"] 2
             (CreatePrd.set_cwd (Some "/repo") CreatePrd.noArgs)
             "--cwd" CreatePrd.set_cwd eq_refl (or_introl eq_refl) eq_refl).
  - exact (Hnumber ["-n"; "4"; "-n"] 2
             (CreatePrd.set_stories (Some (Int 4)) CreatePrd.noArgs)
             "-n" CreatePrd.set_stories eq_refl (or_intror (or_introl eq_refl)) eq_refl).
Defined.

(** ** Properties of the create-prd command *)

Lemma orElse_nonempty a b : b <> EmptyString -> JsString.orElse a b <> EmptyString.
Proof.
  unfold JsString.orElse, truthy. intros Hb.
  destruct a as [s|]; [|exact Hb].
  destruct (String.eqb_spec s EmptyString) as [->|Hs]; cbn; assumption.
Qed.

Lemma orElse_truthy a c : truthy a = true -> JsString.orElse a c = nullish a EmptyString.
Proof.
  unfold JsString.orElse. intros H. rewrite H.
  destruct a; [reflexivity | discriminate H].
Qed.

Lemma orElse_falsy a b : truthy a = false -> JsString.orElse a b = b.
Proof. unfold JsString.orElse. now intros ->. Qed.

(** Output and result of a sequence. *)
Lemma andThen_eq {A B} (m : CreatePrdCommand.Run A) (k : A -> CreatePrdCommand.Run B) :
  CreatePrdCommand.andThen m k
  = match snd m with
    | Next a => (fst m ++ fst (k a), snd (k a))
    | Halt o => (fst m, Halt o)
    end.
Proof. destruct m as [out [a|o]]; cbn; [destruct (k a)|]; reflexivity. Qed.

Lemma in_andThen {A B} (m : CreatePrdCommand.Run A) (k : A -> CreatePrdCommand.Run B) x :
  In x (fst (CreatePrdCommand.andThen m k))
  <-> In x (fst m) \/ exists a, snd m = Next a /\ In x (fst (k a)).
Proof.
  rewrite andThen_eq. destruct (snd m) as [a|o]; cbn [fst].
  - rewrite in_app_iff. split; intros [H|H]; auto.
    + right. eauto.
    + destruct H as (a' & [= <-] & H). auto.
  - split; [auto|]. intros [H|(a & [=] & _)]. exact H.
Qed.

Lemma snd_andThen {A B} (m : CreatePrdCommand.Run A) (k : A -> CreatePrdCommand.Run B) :
  snd (CreatePrdCommand.andThen m k)
  = match snd m with Next a => snd (k a) | Halt o => Halt o end.
Proof. rewrite andThen_eq. now destruct (snd m). Qed.

Lemma in_say {B} o (k : CreatePrdCommand.Run B) x :
  In x (fst (CreatePrdCommand.andThen (CreatePrdCommand.say o) (fun _ => k)))
  <-> o = x \/ In x (fst k).
Proof.
  rewrite in_andThen. cbn. split.
  - intros [[H|[]]|(a & _ & H)]; auto.
  - intros [H|H]; [auto | right; eauto].
Qed.

Lemma snd_say {B} o (k : CreatePrdCommand.Run B) :
  snd (CreatePrdCommand.andThen (CreatePrdCommand.say o) (fun _ => k)) = snd k.
Proof. now rewrite snd_andThen. Qed.

(** [getAgent], call by call. *)
Lemma getAgent_eq agentName env :
  CreatePrdCommand.getAgent agentName env
  = match CreatePrdCommand.loadStoredConfig env with
    | inr message => ([failedToLoad message], Next None)
    | inl stored =>
        match CreatePrdCommand.registerAgents env with
        | inr message => ([failedToLoad message], Next None)
        | inl _ =>
            let target := CreatePrdCommand.targetAgent agentName stored in
            match CreatePrdCommand.getInstance env target with
            | inr message => ([failedToLoad message], Next None)
            | inl agent =>
                match CreatePrdCommand.isReady agent with
                | inr message => ([failedToLoad message], Next None)
                | inl true => ([], Next (Some agent))
                | inl false =>
                    match CreatePrdCommand.detect agent with
                    | inr message => ([failedToLoad message], Next None)
                    | inl detection =>
                        if CreatePrdCommand.detected detection
                        then ([], Next (Some agent))
                        else ([CreatePrdCommand.Error
                                 ("Agent '" ++ target ++ "' is not available: "
                                  ++ JsString.orElse
                                       (CreatePrdCommand.detectionError detection)
                                       "not detected")], Next None)
                    end
                end
            end
        end
    end.
Proof.
  unfold CreatePrdCommand.getAgent.
  destruct (CreatePrdCommand.loadStoredConfig env) as [stored|m]; [|reflexivity].
  destruct (CreatePrdCommand.registerAgents env) as [[]|m]; [|reflexivity].
  cbn. destruct (CreatePrdCommand.getInstance env _) as [agent|m]; [|reflexivity].
  cbn. destruct (CreatePrdCommand.isReady agent) as [[]|m]; try reflexivity.
  cbn. destruct (CreatePrdCommand.detect agent) as [d|m]; [|reflexivity].
  cbn. destruct (CreatePrdCommand.detected d); reflexivity.
Qed.

(** [getAgent] asks the registry for the first non-empty name among the
    [--agent] argument, the stored agent, the stored default agent and
    [claude].  It never throws and always returns.  It returns an agent,
    printing nothing, exactly when the stored configuration loads, the
    registry initialises and gives an instance for that name, and the
    instance is ready or, failing that, detected as available.  In every
    other case it returns [null] after one error line: the one that names
    the agent asked for when the instance is neither ready nor detected,
    and otherwise the message of the first call that threw. *)
Theorem getAgent_resolution :
  (forall agentName stored,
     CreatePrdCommand.targetAgent agentName stored <> EmptyString
     /\ (truthy agentName = true ->
         CreatePrdCommand.targetAgent agentName stored = nullish agentName EmptyString)
     /\ (truthy agentName = false ->
         truthy (CreatePrdCommand.storedAgent stored) = true ->
         CreatePrdCommand.targetAgent agentName stored
         = nullish (CreatePrdCommand.storedAgent stored) EmptyString)
     /\ (truthy agentName = false ->
         truthy (CreatePrdCommand.storedAgent stored) = false ->
         truthy (CreatePrdCommand.defaultAgent stored) = true ->
         CreatePrdCommand.targetAgent agentName stored
         = nullish (CreatePrdCommand.defaultAgent stored) EmptyString)
     /\ (truthy agentName = false ->
         truthy (CreatePrdCommand.storedAgent stored) = false ->
         truthy (CreatePrdCommand.defaultAgent stored) = false ->
         CreatePrdCommand.targetAgent agentName stored = "claude"))
  /\ (forall agentName env,
        exists result, snd (CreatePrdCommand.getAgent agentName env) = Next result)
  /\ (forall agentName env out agent,
        CreatePrdCommand.getAgent agentName env = (out, Next (Some agent))
        <-> out = []
            /\ exists stored,
                 CreatePrdCommand.loadStoredConfig env = inl stored
                 /\ CreatePrdCommand.registerAgents env = inl tt
                 /\ CreatePrdCommand.getInstance env
                      (CreatePrdCommand.targetAgent agentName stored) = inl agent
                 /\ (CreatePrdCommand.isReady agent = inl true
                     \/ (CreatePrdCommand.isReady agent = inl false
                         /\ exists detection,
                              CreatePrdCommand.detect agent = inl detection
                              /\ CreatePrdCommand.detected detection = true)))
  /\ (forall agentName env out,
        CreatePrdCommand.getAgent agentName env = (out, Next None) ->
        (exists stored agent detection,
            CreatePrdCommand.loadStoredConfig env = inl stored
            /\ CreatePrdCommand.getInstance env
                 (CreatePrdCommand.targetAgent agentName stored) = inl agent
            /\ CreatePrdCommand.detect agent = inl detection
            /\ out = [CreatePrdCommand.Error
                        ("Agent '" ++ CreatePrdCommand.targetAgent agentName stored
                         ++ "' is not available: "
                         ++ JsString.orElse (CreatePrdCommand.detectionError detection)
                              "not detected")])
        \/ (exists message,
              out = [failedToLoad message]
              /\ (CreatePrdCommand.loadStoredConfig env = inr message
                  \/ exists stored,
                       CreatePrdCommand.loadStoredConfig env = inl stored
                       /\ (CreatePrdCommand.registerAgents env = inr message
                           \/ CreatePrdCommand.getInstance env
                                (CreatePrdCommand.targetAgent agentName stored)
                              = inr message
                           \/ exists agent,
                                CreatePrdCommand.getInstance env
                                  (CreatePrdCommand.targetAgent agentName stored)
                                = inl agent
                                /\ (CreatePrdCommand.isReady agent = inr message
                                    \/ CreatePrdCommand.detect agent = inr message))))).
Proof.
  split; [|split; [|split]].
  - intros agentName stored. unfold CreatePrdCommand.targetAgent. repeat split.
    + repeat apply orElse_nonempty. discriminate.
    + intros H. now apply orElse_truthy.
    + intros H1 H2. rewrite (orElse_falsy agentName) by assumption.
      now apply orElse_truthy.
    + intros H1 H2 H3. rewrite !orElse_falsy by assumption.
      now apply orElse_truthy.
    + intros H1 H2 H3. now rewrite !orElse_falsy by assumption.
  - intros agentName env. rewrite getAgent_eq.
    destruct (CreatePrdCommand.loadStoredConfig env) as [stored|m]; [|cbn; eauto].
    destruct (CreatePrdCommand.registerAgents env) as [[]|m]; [|cbn; eauto].
    cbn zeta. destruct (CreatePrdCommand.getInstance env _) as [agent|m]; [|cbn; eauto].
    destruct (CreatePrdCommand.isReady agent) as [[]|m]; try (cbn; eauto; fail).
    destruct (CreatePrdCommand.detect agent) as [d|m]; [|cbn; eauto].
    destruct (CreatePrdCommand.detected d); cbn; eauto.
  - intros agentName env out agent. rewrite getAgent_eq. split.
    + destruct (CreatePrdCommand.loadStoredConfig env) as [stored|m]; [|discriminate].
      destruct (CreatePrdCommand.registerAgents env) as [[]|m]; [|discriminate].
      cbn zeta.
      destruct (CreatePrdCommand.getInstance env _) as [a|m] eqn:Ei; [|discriminate].
      destruct (CreatePrdCommand.isReady a) as [[]|m] eqn:Er; try discriminate.
      * intros [= <- <-]. split; [reflexivity|]. exists stored. auto.
      * destruct (CreatePrdCommand.detect a) as [d|m] eqn:Ed; [|discriminate].
        destruct (CreatePrdCommand.detected d) eqn:Edd; [|discriminate].
        intros [= <- <-]. split; [reflexivity|]. exists stored.
        repeat split; auto. right. eauto.
    + intros (-> & stored & -> & -> & Hi & Hr). cbn zeta. rewrite Hi.
      destruct Hr as [-> | (-> & d & -> & ->)]; reflexivity.
  - intros agentName env out. rewrite getAgent_eq.
    destruct (CreatePrdCommand.loadStoredConfig env) as [stored|m].
    2:{ intros [= <-]. right. exists m. split; [reflexivity | now left]. }
    destruct (CreatePrdCommand.registerAgents env) as [[]|m].
    2:{ intros [= <-]. right. exists m. split; [reflexivity|]. right. exists stored.
        split; [reflexivity | now left]. }
    cbn zeta.
    destruct (CreatePrdCommand.getInstance env _) as [a|m] eqn:Ei.
    2:{ intros [= <-]. right. exists m. split; [reflexivity|]. right. exists stored.
        split; [reflexivity | right; now left]. }
    destruct (CreatePrdCommand.isReady a) as [[]|m] eqn:Er; [discriminate| |].
    2:{ intros [= <-]. right. exists m. split; [reflexivity|]. right. exists stored.
        split; [reflexivity|]. right. right. exists a. split; [exact Ei | now left]. }
    destruct (CreatePrdCommand.detect a) as [d|m] eqn:Ed.
    2:{ intros [= <-]. right. exists m. split; [reflexivity|]. right. exists stored.
        split; [reflexivity|]. right. right. exists a. split; [exact Ei | now right]. }
    destruct (CreatePrdCommand.detected d); [discriminate|].
    intros [= <-]. left. exists stored, a, d. auto.
Qed.

Lemma getAgent_resolution_witness :
  CreatePrdCommand.targetAgent (Some EmptyString)
    (CreatePrdCommand.mkStored None (Some "opencode"))
  = "opencode".
Proof.
  destruct getAgent_resolution as [Htarget _].
  destruct (Htarget (Some EmptyString)
              (CreatePrdCommand.mkStored None (Some "opencode")))
    as (_ & _ & _ & Hdefault & _).
  exact (Hdefault eq_refl eq_refl eq_refl).
Defined.

(** ** Tracker selection *)

Lemma snd_sayAll {B} lines (k : CreatePrdCommand.Run B) :
  snd (CreatePrdCommand.andThen (CreatePrdCommand.sayAll lines) (fun _ => k)) = snd k.
Proof.
  rewrite snd_andThen.
  assert (E : snd (CreatePrdCommand.sayAll lines) = Next tt).
  { induction lines as [|o lines IH]; [reflexivity|]. cbn [CreatePrdCommand.sayAll].
    now rewrite snd_say. }
  now rewrite E.
Qed.

Lemma in_sayAll_fst lines x : In x (fst (CreatePrdCommand.sayAll lines)) <-> In x lines.
Proof.
  induction lines as [|o lines IH]; [reflexivity|]. cbn [CreatePrdCommand.sayAll].
  rewrite in_say, IH. reflexivity.
Qed.

Lemma in_sayAll {B} lines (k : CreatePrdCommand.Run B) x :
  In x (fst (CreatePrdCommand.andThen (CreatePrdCommand.sayAll lines) (fun _ => k)))
  <-> In x lines \/ In x (fst k).
Proof.
  rewrite in_andThen, in_sayAll_fst. split.
  - intros [H|(a & _ & H)]; auto.
  - intros [H|H]; [auto|]. right. exists tt. split; [|exact H].
    induction lines as [|o lines IH]; [reflexivity|]. cbn [CreatePrdCommand.sayAll].
    now rewrite snd_say.
Qed.

(** The letters whose upper case is a given capital. *)
Lemma upper_capital (c k : ascii) :
  (65 <= nat_of_ascii k <= 90)%nat ->
  JsString.upper c = k <-> c = k \/ nat_of_ascii c = (nat_of_ascii k + 32)%nat.
Proof.
  intros Hk. unfold JsString.upper.
  destruct ((97 <=? nat_of_ascii c)%nat && (nat_of_ascii c <=? 122)%nat) eqn:E.
  - apply andb_prop in E as [E1 E2]. apply Nat.leb_le in E1, E2. split.
    + intros <-. right. rewrite nat_ascii_embedding by lia. lia.
    + intros [-> | H]; [lia|].
      replace (nat_of_ascii c - 32)%nat with (nat_of_ascii k) by lia.
      apply ascii_nat_embedding.
  - split; [auto|]. intros [H|H]; [exact H|].
    apply andb_false_iff in E as [E|E]; apply Nat.leb_gt in E; lia.
Qed.

Lemma toUpperCase_capital s (k : ascii) :
  (65 <= nat_of_ascii k <= 90)%nat ->
  JsString.toUpperCase s = String k EmptyString
  <-> s = String k EmptyString
      \/ s = String (ascii_of_nat (nat_of_ascii k + 32)) EmptyString.
Proof.
  intros Hk. destruct s as [|c r]; cbn.
  - split; [discriminate | intros [H|H]; discriminate H].
  - split.
    + intros [= Hc Hr]. destruct r; [|discriminate Hr].
      apply (upper_capital c k Hk) in Hc as [-> | Hc]; [now left | right].
      rewrite <- Hc. now rewrite ascii_nat_embedding.
    + intros [[= -> ->] | [= -> ->]]; cbn; f_equal; apply (upper_capital _ k Hk).
      * now left.
      * right. apply nat_ascii_embedding. lia.
Qed.

Lemma selection_eq hasBeads answer :
  snd (CreatePrdCommand.promptTrackerSelection hasBeads (Some answer))
  = Next (if "A" =? JsString.toUpperCase (JsString.trim answer) then Some jsonTracker
          else if hasBeads && ("B" =? JsString.toUpperCase (JsString.trim answer))
               then Some beadsTracker
               else None).
Proof.
  unfold CreatePrdCommand.promptTrackerSelection.
  rewrite !snd_say, snd_sayAll, !snd_say.
  set (normalized := JsString.toUpperCase (JsString.trim answer)).
  destruct hasBeads; cbn -[String.eqb];
    destruct ("A" =? normalized); cbn -[String.eqb]; try reflexivity;
    try (destruct ("B" =? normalized); cbn -[String.eqb]; try reflexivity);
    destruct ("C" =? normalized); reflexivity.
Qed.

Lemma selection_pending hasBeads :
  snd (CreatePrdCommand.promptTrackerSelection hasBeads None) = Halt Pending.
Proof.
  unfold CreatePrdCommand.promptTrackerSelection.
  now rewrite !snd_say, snd_sayAll, !snd_say.
Qed.

(** [promptTrackerSelection] resolves to a tracker in two cases only:
    the answer without the white space around it is [a] or [A], which
    selects the JSON tracker, or it is [b] or [B] and the [.beads]
    directory exists, which selects Beads.  Every other answer, [C]
    (skip) included, gives [null]; as long as no line is typed the promise
    stays pending.  The white space is JavaScript's: an answer of [a]
    between no-break spaces selects JSON.  Beads is offered in the menu
    exactly when the directory exists. *)
Theorem promptTrackerSelection_choice :
  forall hasBeads,
    (forall answer tracker,
       snd (CreatePrdCommand.promptTrackerSelection hasBeads (Some answer))
       = Next (Some tracker)
       <-> ((JsString.trim answer = "a" \/ JsString.trim answer = "A")
            /\ tracker = jsonTracker)
           \/ ((JsString.trim answer = "b" \/ JsString.trim answer = "B")
               /\ hasBeads = true /\ tracker = beadsTracker))
    /\ (forall answer,
          exists selected,
            snd (CreatePrdCommand.promptTrackerSelection hasBeads (Some answer))
            = Next selected)
    /\ snd (CreatePrdCommand.promptTrackerSelection hasBeads None) = Halt Pending
    /\ snd (CreatePrdCommand.promptTrackerSelection hasBeads
              (Some (nbsp ++ "a" ++ nbsp)%string)) = Next (Some jsonTracker)
    /\ (forall answer,
          In (CreatePrdCommand.Log "  B. Beads - Git-backed issue tracker with dependencies")
            (fst (CreatePrdCommand.promptTrackerSelection hasBeads answer))
          <-> hasBeads = true).
Proof.
  intros hasBeads.
  assert (HA : forall s, ("A" =? JsString.toUpperCase s) = true <-> s = "a" \/ s = "A").
  { intros s. rewrite String.eqb_eq.
    split.
    - intros H. symmetry in H. apply (toUpperCase_capital s "A") in H; [|cbn; lia].
      destruct H as [H|H]; [now right | now left].
    - intros H. symmetry. apply (toUpperCase_capital s "A"); [cbn; lia|].
      destruct H as [H|H]; [now right | now left]. }
  assert (HB : forall s, ("B" =? JsString.toUpperCase s) = true <-> s = "b" \/ s = "B").
  { intros s. rewrite String.eqb_eq.
    split.
    - intros H. symmetry in H. apply (toUpperCase_capital s "B") in H; [|cbn; lia].
      destruct H as [H|H]; [now right | now left].
    - intros H. symmetry. apply (toUpperCase_capital s "B"); [cbn; lia|].
      destruct H as [H|H]; [now right | now left]. }
  split; [|split; [|split; [|split]]].
  - intros answer tracker. rewrite selection_eq.
    specialize (HA (JsString.trim answer)). specialize (HB (JsString.trim answer)).
    destruct ("A" =? JsString.toUpperCase (JsString.trim answer)).
    + assert (Ha : JsString.trim answer = "a" \/ JsString.trim answer = "A")
        by now apply HA.
      split; [intros [= <-]; auto|].
      intros [[_ ->]|([Hb|Hb] & _)]; [reflexivity| |];
        destruct Ha as [Ha|Ha]; rewrite Ha in Hb; discriminate Hb.
    + assert (Ha : ~ (JsString.trim answer = "a" \/ JsString.trim answer = "A")).
      { intros Ha. apply HA in Ha. discriminate Ha. }
      destruct hasBeads; cbn [andb].
      * destruct ("B" =? JsString.toUpperCase (JsString.trim answer)).
        -- split; [intros [= <-]; right; split; [now apply HB | auto]|].
           intros [[H _]|(_ & _ & ->)]; [now elim Ha | reflexivity].
        -- split; [discriminate|].
           intros [[H _]|(H & _)]; [now elim Ha|]. apply HB in H. discriminate H.
      * split; [discriminate|]. intros [[H _]|(_ & H & _)]; [now elim Ha | discriminate H].
  - intros answer. rewrite selection_eq. eauto.
  - apply selection_pending.
  - rewrite selection_eq. reflexivity.
  - intros answer. unfold CreatePrdCommand.promptTrackerSelection.
    rewrite !in_say, in_sayAll, !in_say.
    destruct hasBeads; cbn -[String.eqb].
    + split; [reflexivity|]. intros _. do 3 right. left. right. now left.
    + split; [|discriminate].
      intros H.
      repeat match goal with
      | H : _ \/ _ |- _ => destruct H as [H|H]
      end; try discriminate H; try contradiction.
      destruct answer as [answer|]; cbn in H; [|contradiction].
      repeat match type of H with
      | In _ (fst (match ?c with _ => _ end)) => destruct c
      | In _ (fst (if ?c then _ else _)) => destruct c
      end; cbn in H; contradiction.
Qed.

(** ** The chat and the conversion *)

Lemma getAgent_plain agentName env :
  Forall plainOutput (fst (CreatePrdCommand.getAgent agentName env)).
Proof.
  rewrite getAgent_eq.
  destruct (CreatePrdCommand.loadStoredConfig env) as [stored|m]; [|repeat constructor].
  destruct (CreatePrdCommand.registerAgents env) as [[]|m]; [|repeat constructor].
  cbn zeta.
  destruct (CreatePrdCommand.getInstance env _) as [agent|m]; [|repeat constructor].
  destruct (CreatePrdCommand.isReady agent) as [[]|m]; try (repeat constructor; fail).
  destruct (CreatePrdCommand.detect agent) as [d|m]; [|repeat constructor].
  destruct (CreatePrdCommand.detected d); repeat constructor.
Qed.

Lemma getAgent_agentOf parsed env :
  snd (CreatePrdCommand.getAgent (CreatePrd.agent parsed) env) = Next (agentOf parsed env).
Proof.
  unfold agentOf.
  destruct getAgent_resolution as (_ & Hret & _).
  destruct (Hret (CreatePrd.agent parsed) env) as [result ->]. reflexivity.
Qed.

Lemma chatWait_spec events :
  Forall plainOutput (fst (CreatePrdCommand.chatWait events))
  /\ snd (CreatePrdCommand.chatWait events)
     = match firstTerminal events with
       | Some (CreatePrdCommand.OnComplete prdPath _) => Next (Some prdPath)
       | Some CreatePrdCommand.OnCancel => Next None
       | _ => Halt Pending
       end.
Proof.
  induction events as [|e events [IHo IHr]];
    cbn [CreatePrdCommand.chatWait firstTerminal].
  - split; [constructor | reflexivity].
  - destruct e.
    + rewrite snd_say. split; [|exact IHr].
      apply Forall_forall. intros x Hx. apply in_say in Hx as [<-|Hx]; [exact I|].
      rewrite Forall_forall in IHo. now apply IHo.
    + split; [repeat constructor | reflexivity].
    + split; [repeat constructor | reflexivity].
Qed.

Lemma promptTrackerSelection_plain hasBeads answer :
  Forall plainOutput (fst (CreatePrdCommand.promptTrackerSelection hasBeads answer)).
Proof.
  apply Forall_forall. intros x. unfold CreatePrdCommand.promptTrackerSelection.
  rewrite !in_say, in_sayAll, !in_say, in_map_iff. intros H.
  repeat match goal with
  | H : _ \/ _ |- _ => destruct H as [H|H]
  end; try (subst x; exact I).
  - destruct H as (t & <- & _). exact I.
  - destruct answer as [answer|]; [|contradiction].
    repeat match type of H with
    | In _ (fst (match ?c with _ => _ end)) => destruct c
    | In _ (fst (if ?c then _ else _)) => destruct c
    end; contradiction.
Qed.

(** [runTrackerConversion] by what the agent does. *)
Lemma runTrackerConversion_eq execute prdPath tracker cwd :
  let prompt := CreatePrdCommand.conversionPrompt tracker prdPath in
  let start :=
    [CreatePrdCommand.Log EmptyString;
     CreatePrdCommand.Log ("Converting PRD to " ++ CreatePrdCommand.name tracker
                           ++ " format...");
     CreatePrdCommand.Log EmptyString; CreatePrdCommand.Execute prompt cwd] in
  exists rest r,
    CreatePrdCommand.runTrackerConversion execute prdPath tracker cwd = (start ++ rest, r)
    /\ Forall plainOutput rest
    /\ match execute prompt cwd with
       | CreatePrdCommand.NeverSettles => r = Halt Pending
       | _ => exists ok, r = Next ok
       end.
Proof.
  intros prompt start. unfold CreatePrdCommand.runTrackerConversion,
    CreatePrdCommand.runAgent. fold prompt.
  destruct (execute prompt cwd) as [result|m|].
  - destruct ((CreatePrdCommand.status result =? "completed")
              && match CreatePrdCommand.exitCode result with
                 | Some code => (code =? 0)%Z
                 | None => false
                 end) eqn:E.
    + eexists [_; _], _. cbn -[String.eqb]. rewrite E. cbn.
      split; [reflexivity|]. split; [repeat constructor | eauto].
    + eexists [_; _], _. cbn -[String.eqb]. rewrite E. cbn.
      split; [reflexivity|]. split; [repeat constructor | eauto].
  - eexists [_; _], _. cbn. split; [reflexivity|]. split; [repeat constructor | eauto].
  - exists [], (Halt Pending). cbn. split; [reflexivity|]. split; [constructor | reflexivity].
Qed.

Lemma runTrackerConversion_out execute prdPath tracker cwd o :
  In o (fst (CreatePrdCommand.runTrackerConversion execute prdPath tracker cwd)) ->
  plainOutput o
  \/ o = CreatePrdCommand.Execute (CreatePrdCommand.conversionPrompt tracker prdPath) cwd.
Proof.
  destruct (runTrackerConversion_eq execute prdPath tracker cwd) as (rest & r & -> & F & _).
  cbn [fst]. intros H. apply in_app_or in H as [H|H].
  - repeat destruct H as [<-|H]; try contradiction; cbn; auto.
  - left. rewrite Forall_forall in F. now apply F.
Qed.


(** The output of [runChatMode] in pieces. *)
Lemma runChatMode_out parsed env o :
  In o (fst (CreatePrdCommand.runChatMode parsed env)) ->
  plainOutput o
  \/ (exists agent,
        agentOf parsed env = Some agent /\ CreatePrdCommand.createRenderer env = inl tt
        /\ o = renderOf parsed env agent)
  \/ (exists prdPath featureName tracker,
        firstTerminal (CreatePrdCommand.chat env)
        = Some (CreatePrdCommand.OnComplete prdPath featureName)
        /\ prdPath <> EmptyString
        /\ selectionOf parsed env = Next (Some tracker)
        /\ o = CreatePrdCommand.Execute
                 (CreatePrdCommand.conversionPrompt tracker prdPath) (cwdOf parsed env)).
Proof.
  unfold CreatePrdCommand.runChatMode. intros H.
  apply in_andThen in H as [H | (a & Ha & H)].
  { left. pose proof (getAgent_plain (CreatePrd.agent parsed) env) as P.
    rewrite Forall_forall in P. now apply P. }
  rewrite getAgent_agentOf in Ha. injection Ha as <-.
  destruct (agentOf parsed env) as [agent|] eqn:Eag.
  2:{ left. repeat (apply in_say in H as [<-|H]; [exact I|]). contradiction. }
  fold (cwdOf parsed env) in H.
  apply in_say in H as [<-|H]; [left; exact I|].
  apply in_say in H as [<-|H]; [left; exact I|].
  apply in_andThen in H as [H | ([] & Hr & H)].
  { destruct (CreatePrdCommand.createRenderer env); contradiction. }
  destruct (CreatePrdCommand.createRenderer env) as [[]|e] eqn:Er; [|discriminate Hr].
  apply in_say in H as [<-|H]; [right; left; eauto|].
  destruct (chatWait_spec (CreatePrdCommand.chat env)) as [P3 R3].
  apply in_andThen in H as [H | (completed & Hc & H)].
  { left. rewrite Forall_forall in P3. now apply P3. }
  destruct (truthy completed) eqn:Et; [|contradiction].
  destruct completed as [prdPath|]; [|discriminate Et]. cbn [nullish] in H.
  assert (Hpath : prdPath <> EmptyString) by (intros ->; discriminate Et).
  assert (Hterm : exists featureName,
            firstTerminal (CreatePrdCommand.chat env)
            = Some (CreatePrdCommand.OnComplete prdPath featureName)).
  { rewrite Hc in R3.
    destruct (firstTerminal (CreatePrdCommand.chat env)) as [[| |]|];
      try discriminate R3. injection R3 as ->. eauto. }
  destruct Hterm as [featureName Hterm].
  apply in_andThen in H as [H | (selected & Hs & H)].
  { left. pose proof (promptTrackerSelection_plain
                        (CreatePrdCommand.hasBeads env (cwdOf parsed env))
                        (CreatePrdCommand.answer env)) as P4.
    rewrite Forall_forall in P4. now apply P4. }
  destruct selected as [tracker|].
  - apply in_andThen in H as [H | (ok & _ & H)]; [|contradiction].
    apply runTrackerConversion_out in H as [H | ->]; [now left|].
    right. right. exists prdPath, featureName, tracker. auto.
  - left. repeat (apply in_say in H as [<-|H]; [exact I|]).
    destruct H as [<-|[]]. exact I.
Qed.

(** How [runChatMode] ends. *)
Lemma runChatMode_snd parsed env :
  snd (CreatePrdCommand.runChatMode parsed env)
  = match agentOf parsed env with
    | None => Halt (Exited 1)
    | Some agent =>
        match CreatePrdCommand.createRenderer env with
        | inr e => Halt (Rejected e)
        | inl _ =>
            match firstTerminal (CreatePrdCommand.chat env) with
            | Some (CreatePrdCommand.OnComplete prdPath _) =>
                if prdPath =? EmptyString then Next tt
                else
                  match selectionOf parsed env with
                  | Halt o => Halt o
                  | Next None => Next tt
                  | Next (Some tracker) =>
                      match CreatePrdCommand.execute env
                              (CreatePrdCommand.conversionPrompt tracker prdPath)
                              (cwdOf parsed env) with
                      | CreatePrdCommand.NeverSettles => Halt Pending
                      | _ => Next tt
                      end
                  end
            | Some CreatePrdCommand.OnCancel => Next tt
            | _ => Halt Pending
            end
        end
    end.
Proof.
  unfold CreatePrdCommand.runChatMode.
  rewrite snd_andThen, getAgent_agentOf.
  destruct (agentOf parsed env) as [agent|]; [|now rewrite !snd_say].
  fold (cwdOf parsed env). rewrite !snd_say, snd_andThen.
  destruct (CreatePrdCommand.createRenderer env) as [[]|e]; [|reflexivity].
  cbn [CreatePrdCommand.call CreatePrdCommand.done snd]. rewrite snd_say, snd_andThen.
  destruct (chatWait_spec (CreatePrdCommand.chat env)) as [_ ->].
  destruct (firstTerminal (CreatePrdCommand.chat env)) as [[m|prdPath f|]|];
    try reflexivity.
  unfold truthy. destruct (prdPath =? EmptyString); [reflexivity|].
  cbn [negb nullish]. rewrite snd_andThen. fold (selectionOf parsed env).
  destruct (selectionOf parsed env) as [[tracker|]|o]; try reflexivity.
  rewrite snd_andThen.
  destruct (runTrackerConversion_eq (CreatePrdCommand.execute env) prdPath tracker
              (cwdOf parsed env)) as (rest & r & -> & _ & Hr).
  cbn [snd].
  destruct (CreatePrdCommand.execute env _ _); [destruct Hr as [ok ->]..| rewrite Hr];
    reflexivity.
Qed.

Lemma truthyNumber_timeoutOf parsed :
  truthyNumber (CreatePrdCommand.timeoutOf parsed) = true.
Proof.
  unfold CreatePrdCommand.timeoutOf. destruct (CreatePrd.timeout parsed) as [t|];
    [|reflexivity].
  destruct (truthyNumber t) eqn:E; [exact E | reflexivity].
Qed.

Lemma executeCreatePrdCommand_out args env o :
  In o (fst (CreatePrdCommand.executeCreatePrdCommand args env)) ->
  exists parsed,
    CreatePrd.parseCreatePrdArgs args = Normal parsed
    /\ In o (fst (CreatePrdCommand.runChatMode parsed env)).
Proof.
  unfold CreatePrdCommand.executeCreatePrdCommand.
  destruct (CreatePrd.parseCreatePrdArgs args) as [parsed| |]; try (intros []).
  destruct (CreatePrdCommand.setupMissing env); [intros []|].
  intros H. exists parsed. split; [reflexivity|].
  destruct (CreatePrdCommand.runChatMode parsed env) as [out [u|o']]; exact H.
Qed.

(** Whatever the arguments, the chat of create-prd is rendered with a
    timeout that is truthy (neither zero nor NaN), an output directory
    that is not empty and, for a given working directory, that directory:
    the timeout is the number [parseInt] read after [--timeout] unless
    that is zero or there is none, which gives 180000 ms; an empty
    [--output] gives [tasks], and an empty or missing [--cwd] gives the
    process's directory. *)
Theorem createPrd_render_defaults :
  forall args env agent cwd outputDir timeout,
    In (CreatePrdCommand.Render agent cwd outputDir timeout)
       (fst (CreatePrdCommand.executeCreatePrdCommand args env)) ->
    exists parsed,
      CreatePrd.parseCreatePrdArgs args = Normal parsed
      /\ truthyNumber timeout = true /\ outputDir <> EmptyString
      /\ (CreatePrd.timeout parsed = None -> timeout = Int 180000)
      /\ (forall t, CreatePrd.timeout parsed = Some t ->
            timeout = if truthyNumber t then t else Int 180000)
      /\ (truthy (CreatePrd.output parsed) = false -> outputDir = "tasks")
      /\ (truthy (CreatePrd.output parsed) = true -> Some outputDir = CreatePrd.output parsed)
      /\ (truthy (CreatePrd.cwd parsed) = false -> cwd = CreatePrdCommand.processCwd env)
      /\ (truthy (CreatePrd.cwd parsed) = true -> Some cwd = CreatePrd.cwd parsed).
Proof.
  intros args env agent cwd outputDir timeout H.
  apply executeCreatePrdCommand_out in H as (parsed & Hp & H).
  apply runChatMode_out in H as [[]|[(a & _ & _ & E)|(? & ? & ? & _ & _ & _ & E)]];
    [|discriminate E].
  injection E as -> -> -> ->. exists parsed. split; [exact Hp|].
  split; [apply truthyNumber_timeoutOf|]. split; [apply orElse_nonempty; discriminate|].
  unfold CreatePrdCommand.timeoutOf, cwdOf. repeat split.
  - now intros ->.
  - now intros t ->.
  - intros Ho. now apply orElse_falsy.
  - intros Ho. rewrite (orElse_truthy _ _ Ho).
    destruct (CreatePrd.output parsed); [reflexivity | discriminate Ho].
  - intros Hc. now apply orElse_falsy.
  - intros Hc. rewrite (orElse_truthy _ _ Hc).
    destruct (CreatePrd.cwd parsed); [reflexivity | discriminate Hc].
Qed.

Lemma createPrd_render_defaults_witness :
  (exists parsed,
     CreatePrd.parseCreatePrdArgs ["--timeout"; "0"; "-o"; EmptyString] = Normal parsed
     /\ truthyNumber (Int 180000) = true /\ "tasks" <> EmptyString)
  /\ (exists parsed,
        CreatePrd.parseCreatePrdArgs ["--timeout"; (nbsp ++ "5000")%string] = Normal parsed
        /\ CreatePrd.timeout parsed = Some (Int 5000)).
Proof.
  split.
  - destruct (createPrd_render_defaults ["--timeout"; "0"; "-o"; EmptyString]
                (prdEnv0 failingAgent) "Claude Code" "/repo" "tasks" (Int 180000))
      as (parsed & Hp & Ht & Ho & _).
    + vm_compute. tauto.
    + exists parsed. auto.
  - destruct (createPrd_render_defaults ["--timeout"; (nbsp ++ "5000")%string]
                (prdEnv0 failingAgent) "Claude Code" "/repo" "tasks" (Int 5000))
      as (parsed & Hp & _).
    + vm_compute. tauto.
    + exists parsed. split; [exact Hp|].
      vm_compute in Hp. now injection Hp as <-.
Defined.



(** Once the arguments are parsed and setup is in place, create-prd
    never simply returns.  It ends with [process.exit(1)] when no agent
    could be obtained, and rejects when the renderer cannot be created.
    Otherwise it waits as long as the chat has neither completed nor been
    cancelled, as long as the question about the tracker is not answered,
    and as long as the promise of the conversion does not settle; in
    every other case (the chat cancelled or completed, no tracker
    selected, the conversion succeeded, failed or threw) it ends with
    [process.exit(0)]. *)
Theorem createPrd_exit_status :
  forall args env parsed,
    CreatePrd.parseCreatePrdArgs args = Normal parsed ->
    CreatePrdCommand.setupMissing env = None ->
    let result := snd (CreatePrdCommand.executeCreatePrdCommand args env) in
    result <> Resolved
    /\ (agentOf parsed env = None -> result = Exited 1)
    /\ (agentOf parsed env <> None ->
        (forall e, CreatePrdCommand.createRenderer env = inr e -> result = Rejected e)
        /\ (CreatePrdCommand.createRenderer env = inl tt ->
            (firstTerminal (CreatePrdCommand.chat env) = None -> result = Pending)
            /\ (firstTerminal (CreatePrdCommand.chat env) = Some CreatePrdCommand.OnCancel ->
                result = Exited 0)
            /\ (forall prdPath featureName,
                  firstTerminal (CreatePrdCommand.chat env)
                  = Some (CreatePrdCommand.OnComplete prdPath featureName) ->
                  (prdPath = EmptyString -> result = Exited 0)
                  /\ (prdPath <> EmptyString ->
                      (CreatePrdCommand.answer env = None -> result = Pending)
                      /\ (selectionOf parsed env = Next None -> result = Exited 0)
                      /\ (forall tracker,
                            selectionOf parsed env = Next (Some tracker) ->
                            let execution :=
                              CreatePrdCommand.execute env
                                (promptText (CreatePrdCommand.skillPrompt tracker) prdPath)
                                (cwdOf parsed env) in
                            (execution = CreatePrdCommand.NeverSettles -> result = Pending)
                            /\ (execution <> CreatePrdCommand.NeverSettles ->
                                result = Exited 0)))))).
Proof.
  intros args env parsed Hp Hs result.
  assert (E : result
              = match snd (CreatePrdCommand.runChatMode parsed env) with
                | Next _ => Exited 0
                | Halt o => o
                end).
  { unfold result, CreatePrdCommand.executeCreatePrdCommand. rewrite Hp, Hs.
    now destruct (CreatePrdCommand.runChatMode parsed env) as [out [u|o]]. }
  rewrite runChatMode_snd in E. clearbody result.
  destruct (agentOf parsed env) as [agent|].
  2:{ subst result. split; [discriminate|]. split; [reflexivity|].
      intros Hn. now elim Hn. }
  destruct (CreatePrdCommand.createRenderer env) as [[]|e].
  2:{ subst result. split; [discriminate|]. split; [discriminate|]. intros _.
      split; [|discriminate]. now intros e' [= ->]. }
  split.
  { subst result.
    destruct (firstTerminal (CreatePrdCommand.chat env)) as [[m|prdPath f|]|];
      try discriminate.
    destruct (prdPath =? EmptyString); [discriminate|].
    destruct (selectionOf parsed env) as [[tracker|]|o] eqn:Esel; try discriminate.
    - destruct (CreatePrdCommand.execute env _ _); discriminate.
    - unfold selectionOf in Esel.
      destruct (CreatePrdCommand.answer env) as [a|].
      + rewrite selection_eq in Esel. discriminate Esel.
      + rewrite selection_pending in Esel. injection Esel as <-. discriminate. }
  split; [discriminate|]. intros _. split; [discriminate|]. intros _.
  split; [intros Hf; now rewrite Hf in E|].
  split; [intros Hf; now rewrite Hf in E|].
  intros prdPath featureName Hf. rewrite Hf in E. split.
  - intros ->. exact E.
  - intros Hpath. destruct (String.eqb_spec prdPath EmptyString) as [Hempty|_];
      [now elim Hpath|].
    split; [|split].
    + intros Ha. unfold selectionOf in E. rewrite Ha, selection_pending in E. exact E.
    + intros Hsel. now rewrite Hsel in E.
    + intros tracker Hsel execution. rewrite Hsel in E.
      change (CreatePrdCommand.conversionPrompt tracker prdPath)
        with (promptText (CreatePrdCommand.skillPrompt tracker) prdPath) in E.
      fold execution in E. split.
      * intros Hx. now rewrite Hx in E.
      * intros Hx. destruct execution; [exact E | exact E | now elim Hx].
Qed.

Lemma createPrd_exit_status_witness :
  snd (CreatePrdCommand.executeCreatePrdCommand ["-f"] (prdEnv0 failingAgent)) = Exited 0
  /\ snd (CreatePrdCommand.executeCreatePrdCommand ["-f"]
            (prdEnv0 (fun _ _ => CreatePrdCommand.NeverSettles))) = Pending.
Proof.
  split.
  - destruct (createPrd_exit_status ["-f"] (prdEnv0 failingAgent)
                (CreatePrd.set_force CreatePrd.noArgs) eq_refl eq_refl)
      as (_ & _ & H).
    destruct (H ltac:(discriminate)) as (_ & H1).
    destruct (H1 eq_refl) as (_ & _ & H2).
    destruct (H2 "tasks/prd-login.md" "login" eq_refl) as (_ & H3).
    destruct (H3 ltac:(discriminate)) as (_ & _ & H4).
    destruct (H4 beadsTracker eq_refl) as (_ & H5).
    apply H5. discriminate.
  - destruct (createPrd_exit_status ["-f"]
                (prdEnv0 (fun _ _ => CreatePrdCommand.NeverSettles))
                (CreatePrd.set_force CreatePrd.noArgs) eq_refl eq_refl)
      as (_ & _ & H).
    destruct (H ltac:(discriminate)) as (_ & H1).
    destruct (H1 eq_refl) as (_ & _ & H2).
    destruct (H2 "tasks/prd-login.md" "login" eq_refl) as (_ & H3).
    destruct (H3 ltac:(discriminate)) as (_ & _ & H4).
    destruct (H4 beadsTracker eq_refl) as (H5 & _).
    apply H5. reflexivity.
Defined.

(** ** Further properties of the run command *)

(** [promptResumeOrNew] only prints: it changes neither the session file
    nor the lock.  It never answers [resume].  It answers [abort] exactly
    when the session file can be loaded and [checkSession] reports a lock
    that is not stale; in every other case, whether the session is
    resumable or not, it answers [new], and without a loadable session
    file it prints nothing at all. *)
Theorem promptResumeOrNew_choice :
  forall env w,
    let sessionCheck := Session.checkSession (sessionMetadata env) (lockFile w) in
    exists choice lines,
      promptResumeOrNew env w = (Next choice, performAll (map Console lines) w)
      /\ choice <> resume_
      /\ (choice = abort_
          <-> Session.loadPersistedSession (sessionFile w) <> None
              /\ Session.isLocked sessionCheck = true
              /\ Session.isStale sessionCheck = false)
      /\ (Session.loadPersistedSession (sessionFile w) = None -> lines = []).
Proof.
  intros env w sessionCheck. unfold promptResumeOrNew, bindM, getWorld.
  destruct (sessionFile w) as [| |s] eqn:Ef; cbn.
  - exists new_, []. repeat split; try discriminate. intros (H & _); now elim H.
  - exists new_, []. repeat split; try discriminate. intros (H & _); now elim H.
  - fold sessionCheck.
    destruct (Session.isLocked sessionCheck) eqn:El;
      [destruct (Session.isStale sessionCheck) eqn:Es|]; cbn.
    + destruct (Session.isSessionResumable s); cbn;
        eexists new_, [_; _; _]; (split; [reflexivity|]);
        repeat split; try discriminate; intros (_ & _ & H); discriminate H.
    + eexists abort_, [_; _; _]. split; [reflexivity|].
      repeat split; try discriminate.
    + destruct (Session.isSessionResumable s); cbn;
        eexists new_, [_; _; _]; (split; [reflexivity|]);
        repeat split; try discriminate; intros (_ & H & _); discriminate H.
Qed.




(** The two ways [acquireLock] ends. *)
Lemma acquireLock_cases options env w r w' :
  acquireLock options env w = (r, w') ->
  (r = Next tt
   /\ w' = performAll
             [LockAcquired (processPid env) (newSessionId env); RegisterLockCleanup] w)
  \/ (r = Halt (Exited 1) /\ exists es, w' = performAll es w /\ Forall preLockEffect es).
Proof.
  unfold acquireLock, bindM, getWorld.
  destruct (Session.acquired _); cbn.
  - intros [= <- <-]. now left.
  - destruct (Session.existingPid _); cbn; intros [= <- <-]; right;
      (split; [reflexivity|]).
    + eexists [ConsoleError _; ConsoleError _]. split; [reflexivity|].
      repeat constructor; effect_tac.
    + eexists [ConsoleError _]. split; [reflexivity|].
      repeat constructor; effect_tac.
Qed.

Lemma perform_snoc e es w : perform e (performAll es w) = performAll (es ++ [e]) w.
Proof. now rewrite performAll_app. Qed.

(** When [afterLock] returns, the engine has been initialised and the
    lock was left alone. *)
Lemma afterLock_next options sessionCheck config env w s w' :
  afterLock options sessionCheck config env w = (Next s, w') ->
  exists es, w' = performAll es w /\ Forall openingEffect es
             /\ In EngineInitialize es /\ Forall (fun e => ~ touchesLock e) es.
Proof.
  intros H. change w with (performAll [] w) in H.
  unfold afterLock, openSession, initializeEngine, bindM in H.
  destruct (resume options && Session.hasSession sessionCheck);
    [destruct (resumedSessionId env)|];
    destruct (trackerTasks env);
    destruct (truthy (Config.epicId config));
    destruct (truthy (Config.prdPath config));
    cbn -[perform performAll] in H; try discriminate H;
    apply pair_equal_spec in H as [_ <-];
    repeat rewrite perform_snoc; cbn [app];
    (eexists; split; [reflexivity|]);
    (split; [repeat constructor; effect_tac|]);
    (split; [cbn; tauto|]);
    repeat constructor; cbn; tauto.
Qed.

(** The footprint of the headless mode, whatever is delivered. *)
Lemma headlessStep_effects config input st :
  keeps headlessEffect any any (headlessStep config input st).
Proof.
  intros w r w' H. destruct input.
  - rewrite headlessStep_Emit in H. apply pair_equal_spec in H as [<- <-].
    eexists. split; [reflexivity|]. split; [|exact I].
    apply Forall_app. split.
    + apply Forall_forall. intros e He. apply in_map_iff in He as (c & <- & _).
      exact I.
    + unfold savedBy. destruct (persisting event); repeat constructor.
  - cbn [headlessStep] in H.
    destruct (Z.ltb_spec (now - lastSigintTime st) DOUBLE_PRESS_WINDOW_MS) as [Hlt|Hge].
    + rewrite (handleSigint_force _ _ _ _ Hlt) in H. apply pair_equal_spec in H as [<- <-].
      eexists. split; [reflexivity|]. repeat constructor.
    + rewrite (handleSigint_graceful _ _ _ _ Hge) in H.
      apply pair_equal_spec in H as [<- <-].
      eexists. split; [reflexivity|]. repeat constructor.
  - cbn [headlessStep] in H. rewrite handleSigterm_eq in H.
    apply pair_equal_spec in H as [<- <-].
    eexists. split; [reflexivity|]. repeat constructor.
  - cbn [headlessStep] in H. unfold continueShutdown in H.
    destruct (nth_error (shutdowns st) k) as [[[]|]|];
      apply pair_equal_spec in H as [<- <-].
    + exists [EngineDispose]. split; [reflexivity|]. repeat constructor.
    + exists []. split; [reflexivity|]. repeat constructor.
    + exists []. split; [reflexivity|]. repeat constructor.
    + exists []. split; [reflexivity|]. repeat constructor.
  - apply pair_equal_spec in H as [<- <-].
    exists []. split; [reflexivity|]. repeat constructor.
Qed.

Lemma headlessWait_effects config inputs : forall st,
  keeps headlessEffect any any (headlessWait config inputs st).
Proof.
  induction inputs as [|input inputs IH]; intros st.
  - apply keeps_halt. exact I.
  - assert (K : keeps headlessEffect any any
                  (let* st' := headlessStep config input st in
                   headlessWait config inputs st')).
    { apply (keeps_bind headlessEffect any any); [apply headlessStep_effects|].
      intros st' _. apply IH. }
    destruct input; try exact K.
    destruct error as [e|]; cbn [headlessWait].
    + apply keeps_halt. exact I.
    + apply keeps_seq; [now apply keeps_emit|intros _]. now apply keeps_ret.
Qed.

Lemma headless_leavesLock es : Forall headlessEffect es -> Forall leavesLock es.
Proof.
  intros F. eapply Forall_impl; [|exact F]. intros e He Ht. now destruct e.
Qed.

Lemma leavesLock_not_in es : Forall leavesLock es -> ~ In ReleaseLock es.
Proof. rewrite Forall_forall. intros F Hin. now apply (F _ Hin). Qed.

Lemma preLock_leavesLock es : Forall preLockEffect es -> Forall leavesLock es.
Proof. intros F. eapply Forall_impl; [|exact F]. now intros e [_ [Hl _]]. Qed.

(** Neither mode function touches the lock. *)
Lemma mode_leavesLock config s env w r w' :
  (if Config.showTui config then runWithTui s (tuiInputs env)
   else runHeadless s config (headlessInputs env)) w = (r, w') ->
  exists es, w' = performAll es w /\ Forall leavesLock es /\ In EngineStart es.
Proof.
  destruct (Config.showTui config); intros H.
  - unfold runWithTui, bindM in H. cbn -[perform] in H.
    assert (K : keeps leavesLock any any (tuiWait (tuiInputs env) (mkTui s false))).
    { apply tuiWait_keeps; unfold leavesLock, any; cbn; auto. }
    destruct (K _ _ _ H) as (es & -> & F & _).
    exists ([RendererCreate; EngineStart] ++ es). split; [now rewrite performAll_app|].
    split; [|cbn; tauto].
    apply Forall_app. split; [|exact F]. repeat constructor; unfold leavesLock; cbn; tauto.
  - unfold runHeadless, bindM in H. cbn -[perform] in H.
    destruct (headlessWait_effects _ _ _ _ _ _ H) as (es & -> & F & _).
    eexists ([Log _; EngineStart] ++ es). split; [now rewrite performAll_app|].
    split; [|cbn; tauto].
    apply Forall_app. split; [|now apply headless_leavesLock].
    repeat constructor; unfold leavesLock; cbn; tauto.
Qed.

(** Only the [catch] block of [executeMode] releases the lock, and it
    ends in [process.exit(1)]. *)
Lemma executeMode_release config s env w r w' :
  executeMode config s env w = (r, w') ->
  exists es, w' = performAll es w /\ In EngineStart es
             /\ (r <> Halt (Exited 1) -> Forall leavesLock es).
Proof.
  intros H. unfold executeMode in H.
  apply try_catch_inv in H as [(e & w1 & Hm & Hh)|[Hm _]];
    destruct (mode_leavesLock _ _ _ _ _ _ Hm) as (es & -> & F & Hin).
  2:{ exists es. auto. }
  unfold bindM, savePersistedSession, callSave in Hh.
  destruct (failedSaveWritten env); cbn -[perform performAll] in Hh;
    apply pair_equal_spec in Hh as [<- <-];
    repeat rewrite perform_snoc; (eexists; split; [reflexivity|]);
    (split; [repeat (apply in_or_app; left); exact Hin|]).
  - intros Hr. now elim Hr.
  - intros _. rewrite <- app_assoc. apply Forall_app. split; [exact F|].
    repeat constructor; unfold leavesLock; cbn; tauto.
Qed.


Lemma notStarted_not_in es : Forall notStarted es -> ~ In EngineStart es.
Proof. rewrite Forall_forall. intros F Hin. now apply (F _ Hin). Qed.

(** The effects of a run in which the engine is started begin with the
    start-up, which takes the lock and initialises the engine, and the
    first snapshot. *)
Lemma staged_started args env w r w' :
  staged args env w = (r, w') ->
  exists es, w' = performAll es w /\
    (In EngineStart es ->
     exists es0 s es1,
       es = es0 ++ SaveSession s true :: es1
       /\ ~ In EngineStart es0
       /\ In EngineInitialize es0
       /\ In (LockAcquired (processPid env) (newSessionId env)) es0
       /\ ~ In ReleaseLock es0).
Proof.
  intros H. unfold staged in H.
  apply bindM_inv in H as [([[options config] sc] & w1 & Hb & H)|(o & Hb & ->)];
    destruct (beforeLock_keeps _ _ _ _ _ Hb) as (esB & -> & FB' & _);
    pose proof (preLock_notStarted _ FB') as FB.
  2:{ exists esB. split; [reflexivity|]. intros Hin.
      now apply notStarted_not_in in Hin. }
  apply bindM_inv in H as [(? & w2 & Hl & H)|(o & Hl & ->)].
  2:{ apply acquireLock_cases in Hl as [[[=] _]|[_ (esL & -> & FL)]].
      rewrite performAll_ext. eexists. split; [reflexivity|]. intros Hin.
      exfalso. eapply notStarted_not_in; [|exact Hin].
      apply Forall_app; split; auto using preLock_notStarted. }
  apply acquireLock_cases in Hl as [[_ ->]|[[=] _]].
  rewrite performAll_ext in H.
  set (esL := [LockAcquired (processPid env) (newSessionId env); RegisterLockCleanup])
    in *.
  assert (FL : Forall notStarted esL) by (repeat constructor; discriminate).
  apply bindM_inv in H as [(s & w3 & Ha & H)|(o & Ha & ->)].
  2:{ destruct (afterLock_keeps _ _ _ _ _ _ _ Ha) as (esA & -> & FA & _).
      rewrite performAll_ext. eexists. split; [reflexivity|]. intros Hin.
      exfalso. eapply notStarted_not_in; [|exact Hin].
      apply Forall_app3; auto using opening_notStarted. }
  destruct (afterLock_next _ _ _ _ _ _ _ Ha) as (esA & -> & FA & HinA & FLA).
  rewrite performAll_ext in H.
  set (es0 := (esB ++ esL) ++ esA) in *.
  assert (F0 : Forall notStarted es0)
    by (apply Forall_app3; auto using opening_notStarted).
  assert (L0 : In (LockAcquired (processPid env) (newSessionId env)) es0).
  { unfold es0. apply in_or_app. left. apply in_or_app. right. now left. }
  assert (R0 : ~ In ReleaseLock es0).
  { unfold es0. intros Hin. apply in_app_or in Hin as [Hin|Hin];
      [apply in_app_or in Hin as [Hin|Hin]|].
    - apply preLock_leavesLock, leavesLock_not_in in FB'. now apply FB'.
    - destruct Hin as [[=]|[[=]|[]]].
    - apply leavesLock_not_in in FLA. now apply FLA. }
  apply bindM_inv in H as [(? & w4 & Hs & H)|(o & Hs & ->)];
    apply savePersistedSession_inv in Hs as [Hw4 [[Hw Hr]|[Hw Hr]]];
    try discriminate Hr; rewrite Hw in Hw4; subst.
  2:{ exists (es0 ++ [SaveSession s false]). split; [now rewrite performAll_app|].
      intros Hin. exfalso. apply in_app_or in Hin as [Hin|[Hin|[]]];
        [now apply notStarted_not_in in Hin | discriminate Hin]. }
  change (perform (SaveSession s true) (performAll es0 w))
    with (performAll [SaveSession s true] (performAll es0 w)) in H.
  rewrite performAll_ext in H.
  assert (E : exists es1, w' = performAll es1 (performAll (es0 ++ [SaveSession s true]) w)).
  { apply bindM_inv in H as [(p & w5 & Hm & H)|(o & Hm & ->)];
      destruct (executeMode_spec _ _ _ _ _ _ Hm) as (es1 & -> & _).
    - destruct (finishRun_spec _ _ _ _ _ H) as (es2 & -> & _).
      exists (es1 ++ es2). apply performAll_ext.
    - now exists es1. }
  destruct E as (es1 & ->). rewrite performAll_ext.
  exists ((es0 ++ [SaveSession s true]) ++ es1). split; [reflexivity|]. intros _.
  exists es0, s, es1. split; [now rewrite <- app_assoc|].
  split; [now apply notStarted_not_in|]. split; [|split; [exact L0 | exact R0]].
  unfold es0. apply in_or_app. now right.
Qed.

(** The engine is started only under the lock and over a stored
    snapshot: whenever a run of the command reaches [engine.start()], it
    has before that taken the lock for this process and the new session
    id, initialised the engine and then written the initial session
    snapshot successfully, and up to that write it has not called
    [releaseLockNew]. *)
Theorem engine_starts_under_lock_after_snapshot :
  forall args env w,
  exists es,
    snd (run args env w) = performAll es w
    /\ (In EngineStart es ->
        exists es0 s es1,
          es = es0 ++ SaveSession s true :: es1
          /\ ~ In EngineStart es0
          /\ In EngineInitialize es0
          /\ In (LockAcquired (processPid env) (newSessionId env)) es0
          /\ ~ In ReleaseLock es0).
Proof.
  intros args env w. unfold run. rewrite executeRunCommand_staged.
  destruct (wantsHelp args).
  - exists [PrintHelp]. split; [reflexivity|]. intros [[=]|[]].
  - destruct (staged args env w) as [r w'] eqn:H.
    destruct (staged_started _ _ _ _ _ H) as (es & -> & Hs).
    exists es. split; [now destruct r|exact Hs].
Qed.







